(** * A shallow embedding of the ptext PDF engine

    The development follows the Python sources:
    - [ptext/io/read/page/read_root_dictionary_transformer.py]
    - [ptext/io/write/write_base_transformer.py]
    - [ptext/pdf/canvas/canvas.py]
    - [ptext/pdf/canvas/event/chunk_of_text_render_event.py]
    - [ptext/pdf/canvas/font/simple_font/font_type_1.py]

    Part I holds the embedding (one module per Python class), Part II the
    properties proved about it. *)

From Stdlib Require Import QArith Qround Lqa.
From stdpp Require Import base option list gmap strings pretty.

Set Warnings "-clear-no-such-hyp".

Local Open Scope Z_scope.

(** * Part I: the embedding *)

(** ** Python exceptions and fallible computations *)

Inductive exn : Set :=
| AssertionError
| AttributeError
| IndexError
| KeyError
| TypeError
| ValueError
| UnicodeDecodeError
| UnicodeEncodeError
| ReferenceConflict
| OperatorError (msg : string).

Inductive result (A : Type) : Type :=
| Ok (a : A)
| Raise (e : exn).
Arguments Ok {A} a.
Arguments Raise {A} e.

Definition rbind {A B} (m : result A) (k : A → result B) : result B :=
  match m with
  | Ok a => k a
  | Raise e => Raise e
  end.

Notation "'let?' x := m 'in' k" := (rbind m (fun x => k))
  (at level 10, x pattern, m at level 100, k at level 200).

Definition assert (b : bool) : result unit :=
  if b then Ok tt else Raise AssertionError.

Definition is_ok {A} (r : result A) : bool :=
  match r with Ok _ => true | Raise _ => false end.

(** ** Python dictionaries: insertion-ordered association lists *)

Module PyDict.
Section ops.
Context {K V : Type} `{EqDecision K}.

(** [d.get(k)] *)
Fixpoint get (k : K) (d : list (K * V)) : option V :=
  match d with
  | [] => None
  | (k', v) :: rest => if decide (k = k') then Some v else get k rest
  end.

(** [k in d] *)
Definition contains (k : K) (d : list (K * V)) : bool :=
  match get k d with Some _ => true | None => false end.

(** [d[k] = v]: an existing key keeps its position, a new key goes last. *)
Fixpoint set (k : K) (v : V) (d : list (K * V)) : list (K * V) :=
  match d with
  | [] => [(k, v)]
  | (k', v') :: rest =>
      if decide (k = k') then (k', v) :: rest else (k', v') :: set k v rest
  end.

(** [d[k]], raising [KeyError] on a missing key. *)
Definition getitem (k : K) (d : list (K * V)) : result V :=
  match get k d with Some v => Ok v | None => Raise KeyError end.
End ops.

(** [{v: k for k, v in d.items()}]: for a value held by several keys the
    last key in insertion order is the one kept. *)
Definition invert {K V : Type} `{EqDecision V} (d : list (K * V)) : list (V * K) :=
  foldl (fun acc kv => set kv.2 kv.1 acc) [] d.
End PyDict.

(** ** PDF values ([ptext.io.read.types])

    [Dictionary], [Page] and [Stream] are Python classes over [dict]; the
    class of a dictionary object is kept next to its items.  Numbers are
    [Decimal]s, modelled as rationals. *)

Inductive dict_class : Set :=
| ClsDictionary
| ClsPage
| ClsStream.

#[warnings="-register-all"]
Inductive pdf_object : Type :=
| PNull
| PBoolean (b : bool)
| PDecimal (q : Q)
| PName (text : string)
| PString (text : string)
| PBytes (bs : list N)
| PReference (object_number generation_number : Z)
| PList (items : list pdf_object)
| PDict (cls : dict_class) (items : list (string * pdf_object)).

Definition Dictionary := list (string * pdf_object).

(** [isinstance(o, Dictionary)] *)
Definition is_Dictionary (o : pdf_object) : bool :=
  match o with PDict _ _ => true | _ => false end.

(** [isinstance(o, Page)] *)
Definition is_Page (o : pdf_object) : bool :=
  match o with PDict ClsPage _ => true | _ => false end.

(** [isinstance(o, typing.List)], which is [isinstance(o, list)] *)
Definition is_List (o : pdf_object) : bool :=
  match o with PList _ => true | _ => false end.

(** [isinstance(o, Name)] *)
Definition is_Name (o : pdf_object) : bool :=
  match o with PName _ => true | _ => false end.

(** [isinstance(o, Decimal)] *)
Definition is_Decimal (o : pdf_object) : bool :=
  match o with PDecimal _ => true | _ => false end.

(** Modelled from the spec: [ptext/io/read/types.py] is not among the
    files followed here.  [o == "text"] for a Python [str] literal: a Name
    compares by its text, every other value differs from a [str]. *)
Definition eq_str (o : pdf_object) (s : string) : bool :=
  match o with PName t => String.eqb t s | _ => false end.

(** [o in [s1, s2, ...]] for a list of [str] literals *)
Definition in_strs (o : pdf_object) (l : list string) : bool :=
  existsb (eq_str o) l.

(** [k in o] for a dictionary object [o] *)
Definition has_key (k : string) (o : pdf_object) : bool :=
  match o with PDict _ d => PyDict.contains k d | _ => false end.

(** [o[k]] with a [str]/[Name] key: [KeyError] on a dictionary without the
    key, [TypeError] on anything that is not subscriptable by a name. *)
Definition getitem (o : pdf_object) (k : string) : result pdf_object :=
  match o with
  | PDict _ d => PyDict.getitem k d
  | _ => Raise TypeError
  end.

(** [o[Name(k)] = v] *)
Definition setitem (o : pdf_object) (k : string) (v : pdf_object) : result pdf_object :=
  match o with
  | PDict c d => Ok (PDict c (PyDict.set k v d))
  | _ => Raise TypeError
  end.

(** [int(d)] for a [Decimal]: truncation toward zero *)
Definition int_of_Decimal (q : Q) : Z := Z.quot (Qnum q) (Z.pos (Qden q)).

(** Number of constructors of a value, the measure of the page-tree walk. *)
Fixpoint weight (o : pdf_object) : nat :=
  match o with
  | PList l => S (foldr (fun x n => (weight x + n)%nat) O l)
  | PDict _ d => S (foldr (fun kv n => (weight kv.2 + n)%nat) O d)
  | _ => 1%nat
  end.

Definition weights (l : list pdf_object) : nat :=
  foldr (fun x n => (weight x + n)%nat) O l.

(** ** [ReadRootDictionaryTransformer] *)

Module ReadRootDictionaryTransformer.

Definition can_be_transformed (object : pdf_object) : bool :=
  is_Dictionary object && has_key "Type" object
  && match getitem object "Type" with
     | Ok t => eq_str t "Catalog"
     | Raise _ => false
     end.

(** The test guarding the [for k in obj["Kids"]] loop. *)
Definition pages_kids (obj : pdf_object) : option (list pdf_object) :=
  match obj with
  | PDict _ d =>
      match PyDict.get "Type" d with
      | Some t =>
          if eq_str t "Pages" then
            match PyDict.get "Kids" d with
            | Some (PList kids) => Some kids
            | _ => None
            end
          else None
      | None => None
      end
  | _ => None
  end.

(** The [while len(stack_to_handle) > 0] loop: [pop(0)] takes the head of
    the worklist, [append] puts the kids at its tail.  [fuel] bounds the
    number of iterations; [None] means the bound was hit. *)
Fixpoint explore (fuel : nat) (stack_to_handle pages_in_order : list pdf_object)
  : option (list pdf_object) :=
  match stack_to_handle with
  | [] => Some pages_in_order
  | obj :: stack =>
      match fuel with
      | O => None
      | S fuel' =>
          let pages_in_order' :=
            if is_Page obj then pages_in_order ++ [obj] else pages_in_order in
          let stack' :=
            match pages_kids obj with
            | Some kids => stack ++ kids
            | None => stack
            end in
          explore fuel' stack' pages_in_order'
      end
  end.

(** [pages_in_order] once the loop is over.  A walk over a finite tree
    takes every node from the worklist once, so [weight pages] iterations
    are enough and the default is never used (see [pages_in_order_explore]). *)
Definition pages_in_order (pages : pdf_object) : list pdf_object :=
  default [] (explore (weight pages) [pages] []).

(** The part of [transform] after the dictionary transformer has run:
    [Kids] of the [Pages] dictionary is replaced by a new list, the pages
    are appended to it and [Count] is set.  The values are trees: the
    [Pages] dictionary that is updated is the one under the catalog; a
    page that was collected is stored as it was when it was collected. *)
Definition rebuild_pages (transformed_root_dictionary : pdf_object)
  : result pdf_object :=
  let? pages := getitem transformed_root_dictionary "Pages" in
  let ps := pages_in_order pages in
  let? pages1 := setitem pages "Kids" (PList []) in
  let? kids := getitem pages1 "Kids" in
  let? pages2 :=
    match kids with
    | PList l => setitem pages1 "Kids" (PList (l ++ ps))
    | _ => Raise AttributeError
    end in
  let? pages3 :=
    setitem pages2 "Count" (PDecimal (inject_Z (Z.of_nat (length ps)))) in
  setitem transformed_root_dictionary "Pages" pages3.

(** [transform].  [dictionary_transformer] is the [transform] of the first
    [ReadDictionaryTransformer] among the children of the root
    transformer ([None] when there is none); event listeners only touch
    the listener list of the object and are left out. *)
Definition transform
    (dictionary_transformer : option (pdf_object → result pdf_object))
    (object_to_transform : pdf_object) : result pdf_object :=
  let? _ := assert (is_Dictionary object_to_transform) in
  match dictionary_transformer with
  | None => Raise AssertionError
  | Some t =>
      let? transformed_root_dictionary := t object_to_transform in
      let? _ := assert (is_Dictionary transformed_root_dictionary) in
      rebuild_pages transformed_root_dictionary
  end.

End ReadRootDictionaryTransformer.

(** ** [StandardType1Font._canonical_name] *)

Module StandardType1Font.

Definition STANDARD_14_FONT_NAMES : list string :=
  [ "Courier"; "Courier-Bold"; "Courier-Bold-Oblique"; "Courier-Oblique";
    "Helvetica"; "Helvetica-Bold"; "Helvetica-Bold-Oblique";
    "Helvetica-Oblique"; "Symbol"; "Times-Bold"; "Times-Bold-Italic";
    "Times-Italic"; "Times-Roman"; "ZapfDingbats" ]%string.

(** [str.lower] on one character.  Characters are Latin-1 code points:
    the ASCII capitals and the accented capitals 0xC0-0xDE (but the
    multiplication sign 0xD7) move up by 32. *)
Definition lower_char (c : Ascii.ascii) : Ascii.ascii :=
  let n := Ascii.N_of_ascii c in
  if ((65 <=? n) && (n <=? 90))%N
     || ((192 <=? n) && (n <=? 222) && negb (n =? 215))%N
  then Ascii.ascii_of_N (n + 32) else c.

Fixpoint lower (x : string) : string :=
  match x with
  | EmptyString => EmptyString
  | String c rest => String (lower_char c) (lower rest)
  end.

(** [c in s] for a one-character [c] *)
Fixpoint char_in (c : Ascii.ascii) (s : string) : bool :=
  match s with
  | EmptyString => false
  | String c' rest => Ascii.eqb c c' || char_in c rest
  end.

Fixpoint keep (p : Ascii.ascii → bool) (x : string) : string :=
  match x with
  | EmptyString => EmptyString
  | String c rest => if p c then String c (keep p rest) else keep p rest
  end.

Definition _to_lower_and_alpha (x : string) : string :=
  keep (fun c => char_in c "abcdefghijklmnopqrstuvwxyz") (lower x).

Fixpoint first_match (names : list string) (canonical_name : string)
  : option string :=
  match names with
  | [] => None
  | n :: rest =>
      if String.eqb (_to_lower_and_alpha n) canonical_name then Some n
      else first_match rest canonical_name
  end.

Definition _canonical_name (font_name : string) : option string :=
  first_match STANDARD_14_FONT_NAMES (_to_lower_and_alpha font_name).

Definition is_standard_14_font_name (font_name : string) : bool :=
  match _canonical_name font_name with Some _ => true | None => false end.

End StandardType1Font.

(** ** [WriteBaseTransformer.get_reference] *)

Module WriteBaseTransformer.

Record Reference : Set := {
  object_number : nat;
  generation_number : option nat;
  byte_offset : option nat }.

(** [while obj_number in existing_obj_numbers: obj_number += 1] *)
Fixpoint next_free (fuel : nat) (existing_obj_numbers : gset nat)
    (obj_number : nat) : nat :=
  match fuel with
  | O => obj_number
  | S fuel' =>
      if decide (obj_number ∈ existing_obj_numbers)
      then next_free fuel' existing_obj_numbers (S obj_number)
      else obj_number
  end.

Section registry.
(** The values of [ptext.io.read.types] enter through their [==] and
    their hash ([None]: [hash] and [__hash__] both raise). *)
Context {V : Type}.
Variable equals : V → V → bool.
Variable hash : V → option Z.

(** A Python object: its value and the reference attribute that
    [set_reference] writes.  Objects live in a heap indexed by [id]. *)
Record py_object : Type := {
  value : V;
  reference : option Reference }.

Record WriteTransformerContext : Type := {
  indirect_objects_by_id : gmap positive positive;
  indirect_objects_by_hash : gmap Z (list positive) }.

Definition fresh_context : WriteTransformerContext :=
  {| indirect_objects_by_id := ∅; indirect_objects_by_hash := ∅ |}.

(** The object behind an id.  An id that Python hands out is the id of a
    live object; the error is for a heap that lacks the id. *)
Definition deref (heap : gmap positive py_object) (p : positive)
  : result py_object :=
  match heap !! p with
  | Some o => Ok o
  | None => Raise AttributeError
  end.

Definition _hash (obj : V) : result Z :=
  match hash obj with
  | Some h => Ok h
  | None => Raise TypeError
  end.

(** Modelled from the spec: [set_reference] of [ptext/io/read/types.py],
    which is not among the files followed here: a second reference with
    a different object number is refused. *)
Definition set_reference (o : py_object) (ref : Reference) : result py_object :=
  match reference o with
  | Some r =>
      if Nat.eqb (object_number r) (object_number ref)
      then Ok {| value := value o; reference := Some ref |}
      else Raise ReferenceConflict
  | None => Ok {| value := value o; reference := Some ref |}
  end.

(** [for obj in bucket: if obj == object: ...]: the first equal entry *)
Fixpoint find_equal (heap : gmap positive py_object) (v : V)
    (bucket : list positive) : result (option positive) :=
  match bucket with
  | [] => Ok None
  | p :: rest =>
      let? o := deref heap p in
      if equals (value o) v then Ok (Some p) else find_equal heap v rest
  end.

(** The object numbers of everything held in the hash registry. *)
Definition numbers_of (heap : gmap positive py_object) (items : list positive)
  : result (gset nat) :=
  foldr (fun p acc =>
           let? s := acc in
           let? o := deref heap p in
           match reference o with
           | Some r => Ok ({[ object_number r ]} ∪ s)
           | None => Raise AttributeError
           end) (Ok ∅) items.

Definition existing_obj_numbers (heap : gmap positive py_object)
    (context : WriteTransformerContext) : result (gset nat) :=
  numbers_of heap
    (concat (map snd (map_to_list (indirect_objects_by_hash context)))).

Definition get_reference (object : positive)
    (σ : gmap positive py_object * WriteTransformerContext)
  : result (option Reference * (gmap positive py_object * WriteTransformerContext)) :=
  let '(heap, context) := σ in
  match indirect_objects_by_id context !! object with
  | Some cached_indirect_object =>
      let? o := deref heap cached_indirect_object in
      Ok (reference o, σ)
  | None =>
      let? this := deref heap object in
      let? obj_hash := _hash (value this) in
      let? found :=
        match indirect_objects_by_hash context !! obj_hash with
        | Some bucket => find_equal heap (value this) bucket
        | None => Ok None
        end in
      match found with
      | Some p =>
          let? obj := deref heap p in
          match reference obj with
          | None => Raise AssertionError
          | Some ref =>
              let? this' := set_reference this ref in
              Ok (Some ref, (<[object := this']> heap, context))
          end
      | None =>
          let? existing := existing_obj_numbers heap context in
          let obj_number :=
            next_free (S (size existing)) existing (size existing + 1) in
          let ref := {| object_number := obj_number;
                        generation_number := None;
                        byte_offset := None |} in
          let? this' := set_reference this ref in
          let by_hash :=
            match indirect_objects_by_hash context !! obj_hash with
            | Some bucket => bucket ++ [object]
            | None => [object]
            end in
          Ok (Some ref,
              (<[object := this']> heap,
               {| indirect_objects_by_id :=
                    <[object := object]> (indirect_objects_by_id context);
                  indirect_objects_by_hash :=
                    <[obj_hash := by_hash]> (indirect_objects_by_hash context) |}))
      end
  end.

(** A serialization pass asks for the reference of one object after
    the other. *)
Fixpoint register_all (objects : list positive)
    (σ : gmap positive py_object * WriteTransformerContext)
  : result (gmap positive py_object * WriteTransformerContext) :=
  match objects with
  | [] => Ok σ
  | object :: rest =>
      let? r := get_reference object σ in
      register_all rest r.2
  end.

(** [reference(a).object_number] in a heap *)
Definition number_of (heap : gmap positive py_object) (p : positive)
  : option nat :=
  o ← heap !! p; r ← reference o; Some (object_number r).

(** What holds of the heap and the two registries between two calls of
    [get_reference], [R] being the objects that went through it so far:
    the hash registry holds registered objects under their hash, each with
    a reference and listed in the id registry; the id registry maps the id
    of an object of the hash registry to that object; a registered object
    carries the number of an entry of the hash registry, which is the
    object itself or equal to it; equal registered objects carry the same
    number. *)
Record registry_inv (R : gset positive)
    (σ : gmap positive py_object * WriteTransformerContext) : Prop := {
  inv_bucket : ∀ h bucket p,
    indirect_objects_by_hash σ.2 !! h = Some bucket → p ∈ bucket →
    p ∈ R ∧ indirect_objects_by_id σ.2 !! p = Some p
    ∧ ∃ o r, σ.1 !! p = Some o ∧ hash (value o) = Some h
             ∧ reference o = Some r;
  inv_by_id : ∀ p q,
    indirect_objects_by_id σ.2 !! p = Some q →
    q = p ∧ ∃ o h bucket,
      σ.1 !! p = Some o ∧ hash (value o) = Some h
      ∧ indirect_objects_by_hash σ.2 !! h = Some bucket ∧ p ∈ bucket;
  inv_registered : ∀ p,
    p ∈ R →
    ∃ o r m om rm h bucket,
      σ.1 !! p = Some o ∧ reference o = Some r
      ∧ indirect_objects_by_hash σ.2 !! h = Some bucket ∧ m ∈ bucket
      ∧ σ.1 !! m = Some om ∧ reference om = Some rm
      ∧ object_number rm = object_number r
      ∧ (m = p ∨ equals (value om) (value o) = true);
  inv_dedup : ∀ p q op oq,
    p ∈ R → q ∈ R → σ.1 !! p = Some op → σ.1 !! q = Some oq →
    equals (value op) (value oq) = true →
    number_of σ.1 p = number_of σ.1 q }.


End registry.

(** *** The chain of child transformers *)

Section handlers.
(** [V]: the values to write; [C]: the write context; [R]: what a
    [transform] returns, [py_None] being Python's [None]. *)
Context {V C R : Type}.
Variable py_None : R.

(** A transformer object: the handlers it was given, its parent, and the
    two methods that its class defines ([can_be_transformed] and
    [transform]; for the base class the first one answers [False]). *)
Record transformer_object : Type := {
  handlers : list positive;
  parent : option positive;
  can_be_transformed : V → bool;
  own_transform : V → C → C * result R }.

Definition with_handlers (t : transformer_object) (hs : list positive)
  : transformer_object :=
  {| handlers := hs; parent := parent t;
     can_be_transformed := can_be_transformed t;
     own_transform := own_transform t |}.

Definition with_parent (t : transformer_object) (p : option positive)
  : transformer_object :=
  {| handlers := handlers t; parent := p;
     can_be_transformed := can_be_transformed t;
     own_transform := own_transform t |}.

(** [add_child_transformer]: [self.handlers.append(handler)], then
    [handler.parent = self]. *)
Definition add_child_transformer (self handler : positive)
    (store : gmap positive transformer_object)
  : result (gmap positive transformer_object) :=
  match store !! self with
  | None => Raise AttributeError
  | Some s =>
      let store1 := <[self := with_handlers s (handlers s ++ [handler])]> store in
      match store1 !! handler with
      | None => Raise AttributeError
      | Some h => Ok (<[handler := with_parent h (Some self)]> store1)
      end
  end.

(** [get_root_transformer]: [while p.parent is not None: p = p.parent].
    [None] means that [fuel] steps did not reach a transformer without
    parent. *)
Fixpoint get_root_transformer (fuel : nat)
    (store : gmap positive transformer_object) (p : positive)
  : option positive :=
  match fuel with
  | O => None
  | S fuel' =>
      match store !! p with
      | None => None
      | Some t =>
          match parent t with
          | None => Some p
          | Some q => get_root_transformer fuel' store q
          end
      end
  end.

(** The loop of the base [transform] over [self.handlers]. *)
Fixpoint dispatch (store : gmap positive transformer_object)
    (hs : list positive) (object_to_transform : V) (context : C)
  : C * result R :=
  match hs with
  | [] => (context, Ok py_None)
  | h :: rest =>
      match store !! h with
      | None => (context, Raise AttributeError)
      | Some t =>
          if can_be_transformed t object_to_transform
          then own_transform t object_to_transform context
          else dispatch store rest object_to_transform context
      end
  end.

(** [transform] of the base class *)
Definition transform (store : gmap positive transformer_object)
    (self : positive) (object_to_transform : V) (context : C)
  : C * result R :=
  match store !! self with
  | None => (context, Raise AttributeError)
  | Some s => dispatch store (handlers s) object_to_transform context
  end.

End handlers.

(** *** Object headers and trailers *)

(** [bytes(s, "latin1")] for a text of code points below 256 *)
Definition latin1 (s : string) : list N :=
  map Ascii.N_of_ascii (String.list_ascii_of_string s).

(** ["%d %d obj\n" % (ref.object_number, ref.generation_number or 0)] *)
Definition object_header (ref : Reference) : list N :=
  latin1 (pretty (object_number ref) +:+ " "
          +:+ pretty (default O (generation_number ref)) +:+ " obj"
          +:+ String (Ascii.ascii_of_nat 10) EmptyString).

(** ["endobj\n\n"] *)
Definition object_trailer : list N :=
  latin1 ("endobj" +:+ String (Ascii.ascii_of_nat 10)
            (String (Ascii.ascii_of_nat 10) EmptyString)).

(** [_start_object].  [reference] is what [get_reference()] of the object
    gives, the id of a [Reference] object in [refs] or [None]; several
    objects may hold the same one.  [context] is the optional context with
    its optional destination, a byte buffer that [write] appends to and
    whose [tell] is its length. *)
Definition _start_object (reference : option positive)
    (context : option (option (list N))) (refs : gmap positive Reference)
  : result (gmap positive Reference * list N) :=
  match context with
  | None | Some None => Raise AssertionError
  | Some (Some destination) =>
      let byte_offset := length destination in
      match reference with
      | None => Raise AssertionError
      | Some r =>
          match refs !! r with
          | None => Raise AttributeError
          | Some ref =>
              let ref' := {| object_number := object_number ref;
                             generation_number := generation_number ref;
                             byte_offset := Some byte_offset |} in
              Ok (<[r := ref']> refs, destination ++ object_header ref')
          end
      end
  end.

(** [_end_object] *)
Definition _end_object (context : option (option (list N)))
  : result (list N) :=
  match context with
  | None | Some None => Raise AssertionError
  | Some (Some destination) => Ok (destination ++ object_trailer)
  end.

End WriteBaseTransformer.

(** Modelled from the spec: [equals] of [ptext/io/read/types.py], which is
    not among the files followed here: structural equality of values (the
    parent and reference attributes are not part of a [pdf_object]). *)
Fixpoint pdf_object_eq_dec (a b : pdf_object) : {a = b} + {a ≠ b}.
Proof.
  decide equality;
    try solve [ apply Z.eq_dec | apply String.string_dec | apply Bool.bool_dec
              | apply (List.list_eq_dec N.eq_dec) ].
  - destruct q as [n1 d1], q0 as [n2 d2].
    destruct (Z.eq_dec n1 n2); [|right; congruence].
    destruct (Pos.eq_dec d1 d2); [left|right]; congruence.
  - apply List.list_eq_dec. apply pdf_object_eq_dec.
  - apply List.list_eq_dec. intros [k1 v1] [k2 v2].
    destruct (String.string_dec k1 k2); [|right; congruence].
    destruct (pdf_object_eq_dec v1 v2); [left|right]; congruence.
  - decide equality.
Defined.

Definition equals (a b : pdf_object) : bool :=
  if pdf_object_eq_dec a b then true else false.

(** ** Python text and bytes

    A Python [str] is a sequence of Unicode code points, a [bytes] value a
    sequence of numbers below 256. *)

Definition ustr := list N.
Definition bytes := list N.

Module Codec.

(** [bytes([i])]: [ValueError] unless [i] is in [range(256)] *)
Definition bytes_of_int (i : Z) : result bytes :=
  if (0 <=? i) && (i <? 256) then Ok [Z.to_N i] else Raise ValueError.

(** Code points of the bytes 0x80-0x9F in Python's [cp1252] codec; five
    bytes are undefined there. *)
Definition cp1252_high : list (option N) :=
  [ Some 8364; None;     Some 8218; Some 402;  Some 8222; Some 8230;
    Some 8224; Some 8225; Some 710;  Some 8240; Some 352;  Some 8249;
    Some 338;  None;     Some 381;  None;
    None;      Some 8216; Some 8217; Some 8220; Some 8221; Some 8226;
    Some 8211; Some 8212; Some 732;  Some 8482; Some 353;  Some 8250;
    Some 339;  None;     Some 382;  Some 376 ]%N.

Definition cp1252_decode_byte (b : N) : option N :=
  if (b <? 128)%N then Some b
  else if (b <? 160)%N then mjoin (cp1252_high !! N.to_nat (b - 128))
  else if (b <? 256)%N then Some b
  else None.

Fixpoint index_of (c : N) (l : list (option N)) (i : N) : option N :=
  match l with
  | [] => None
  | x :: rest =>
      if decide (x = Some c) then Some i else index_of c rest (i + 1)%N
  end.

Definition cp1252_encode_char (c : N) : option N :=
  if (c <? 128)%N then Some c
  else if (160 <=? c)%N && (c <? 256)%N then Some c
  else index_of c cp1252_high 128%N.

(** [bs.decode("cp1252")] *)
Fixpoint cp1252_decode (bs : bytes) : result ustr :=
  match bs with
  | [] => Ok []
  | b :: rest =>
      match cp1252_decode_byte b with
      | Some c => let? r := cp1252_decode rest in Ok (c :: r)
      | None => Raise UnicodeDecodeError
      end
  end.

(** [u.encode("cp1252")] *)
Fixpoint cp1252_encode (u : ustr) : result bytes :=
  match u with
  | [] => Ok []
  | c :: rest =>
      match cp1252_encode_char c with
      | Some b => let? r := cp1252_encode rest in Ok (b :: r)
      | None => Raise UnicodeEncodeError
      end
  end.

(** [int(bs)] for a [bytes] value: a decimal literal, with an optional
    sign, single underscores between digits and blanks around it. *)
Definition is_space (b : N) : bool :=
  ((b =? 32) || ((9 <=? b) && (b <=? 13)))%N.

Definition is_digit (b : N) : bool := ((48 <=? b) && (b <=? 57))%N.

Fixpoint lstrip (l : bytes) : bytes :=
  match l with
  | b :: rest => if is_space b then lstrip rest else l
  | [] => []
  end.

Definition strip (l : bytes) : bytes := rev (lstrip (rev (lstrip l))).

Fixpoint digits (acc : Z) (after_digit : bool) (l : bytes) : option Z :=
  match l with
  | [] => if after_digit then Some acc else None
  | b :: rest =>
      if is_digit b then digits (10 * acc + (Z.of_N b - 48)) true rest
      else if (b =? 95)%N && after_digit then digits acc false rest
      else None
  end.

Definition int_of_bytes (bs : bytes) : result Z :=
  let r :=
    match strip bs with
    | 43%N :: rest => digits 0 false rest
    | 45%N :: rest => Z.opp <$> digits 0 false rest
    | l => digits 0 false l
    end in
  match r with
  | Some z => Ok z
  | None => Raise ValueError
  end.

End Codec.

(** ** [Type1Font] *)

Module Type1Font.

(** The font is a [Dictionary] with two private lookup tables. *)
Record Type1Font : Type := {
  entries : Dictionary;
  _character_identifier_to_unicode_lookup : list (Z * ustr);
  _unicode_lookup_to_character_identifier : list (ustr * Z) }.

(** [Type1Font()] *)
Definition new : Type1Font :=
  {| entries := [("Type", PName "Font"); ("Subtype", PName "Type1")]%string;
     _character_identifier_to_unicode_lookup := [];
     _unicode_lookup_to_character_identifier := [] |}.

Definition predefined_encodings : list string :=
  [ "MacRomanEncoding"; "MacExpertEncoding"; "WinAnsiEncoding";
    "StandardEncoding" ]%string.

(** [try: ... except: return None] *)
Definition or_None {A} (r : result A) : result (option A) :=
  match r with
  | Ok a => Ok (Some a)
  | Raise _ => Ok None
  end.

(** [int(o)]: truncation for a number.  Font dictionaries hold numbers
    under [FirstChar] and [LastChar]; for any other value the conversion
    is taken to raise [TypeError]. *)
Definition py_int (o : pdf_object) : result Z :=
  match o with
  | PDecimal q => Ok (int_of_Decimal q)
  | _ => Raise TypeError
  end.

(** [o[i]] for an index that is not negative *)
Definition index (o : pdf_object) (i : Z) : result pdf_object :=
  match o with
  | PList l =>
      match l !! Z.to_nat i with
      | Some x => Ok x
      | None => Raise IndexError
      end
  | _ => Raise TypeError
  end.

Definition get_width (character_identifier : Z) (self : Type1Font)
  : result (option pdf_object) :=
  let? first := PyDict.getitem "FirstChar"%string (entries self) in
  let? first_char := py_int first in
  let? last := PyDict.getitem "LastChar"%string (entries self) in
  let? last_char := py_int last in
  if (first_char <=? character_identifier) && (character_identifier <=? last_char)
  then
    let? widths := PyDict.getitem "Widths"%string (entries self) in
    let? w := index widths (character_identifier - first_char) in
    Ok (Some w)
  else Ok None.

Section font.
(** What the font code calls and the files followed here do not define:
    the other codecs, the CMap parser of the parent class, the Adobe
    glyph list and [str] on a PDF value. *)
Variable mac_roman_decode : bytes → result ustr.
Variable mac_roman_encode : ustr → result bytes.
Variable adobe_standard_decode : bytes → result ustr.
Variable adobe_standard_encode : ustr → result bytes.
Variable _read_cmap : pdf_object → result (list (Z * ustr)).
Variable toUnicode : string → ustr.
Variable str_of : pdf_object → string.

Definition with_lookups (self : Type1Font) (l : list (Z * ustr))
    (r : list (ustr * Z)) : Type1Font :=
  {| entries := entries self;
     _character_identifier_to_unicode_lookup := l;
     _unicode_lookup_to_character_identifier := r |}.

Definition with_entries (self : Type1Font) (d : Dictionary) : Type1Font :=
  {| entries := d;
     _character_identifier_to_unicode_lookup :=
       _character_identifier_to_unicode_lookup self;
     _unicode_lookup_to_character_identifier :=
       _unicode_lookup_to_character_identifier self |}.

Definition _read_to_unicode (self : Type1Font) : Type1Font * result unit :=
  if (0 <? length (_unicode_lookup_to_character_identifier self))%nat
  then (self, Ok tt)
  else
    let parsed :=
      let? _ := assert (PyDict.contains "ToUnicode"%string (entries self)) in
      let? to_unicode := PyDict.getitem "ToUnicode"%string (entries self) in
      let? _ := assert (has_key "DecodedBytes" to_unicode) in
      let? cmap_bytes := getitem to_unicode "DecodedBytes" in
      _read_cmap cmap_bytes in
    match parsed with
    | Ok table => (with_lookups self table (PyDict.invert table), Ok tt)
    | Raise e => (self, Raise e)
    end.

(** The two nested [while] loops over [Differences]: a number sets the
    current code, every other entry names the glyph of the current
    code and advances it. *)
Fixpoint differences_from (character_code : Q) (differences : list pdf_object)
    (lookup : list (Z * ustr)) : list (Z * ustr) :=
  match differences with
  | [] => lookup
  | PDecimal q :: rest => differences_from q rest lookup
  | o :: rest =>
      differences_from (character_code + 1)%Q rest
        (PyDict.set (int_of_Decimal character_code) (toUnicode (str_of o))
           lookup)
  end.

Definition apply_differences (differences : pdf_object)
  : result (list (Z * ustr)) :=
  match differences with
  | PList [] => Ok []
  | PList (PDecimal q :: rest) => Ok (differences_from q rest [])
  | PList _ => Raise AssertionError
  | _ => Raise TypeError
  end.

Definition _read_encoding_with_differences (self : Type1Font)
  : Type1Font * result unit :=
  if (0 <? length (_unicode_lookup_to_character_identifier self))%nat
  then (self, Ok tt)
  else
    let checked :=
      let? _ := assert (PyDict.contains "FirstChar"%string (entries self)) in
      let? first_char := PyDict.getitem "FirstChar"%string (entries self) in
      let? _ := assert (is_Decimal first_char) in
      let? _ := assert (PyDict.contains "LastChar"%string (entries self)) in
      let? last_char := PyDict.getitem "LastChar"%string (entries self) in
      assert (is_Decimal last_char) in
    match checked with
    | Raise e => (self, Raise e)
    | Ok _ =>
        let self1 :=
          with_lookups self [] (_unicode_lookup_to_character_identifier self) in
        let built :=
          let? encoding := PyDict.getitem "Encoding"%string (entries self) in
          let? differences := getitem encoding "Differences" in
          apply_differences differences in
        match built with
        | Raise e => (self1, Raise e)
        | Ok table => (with_lookups self table (PyDict.invert table), Ok tt)
        end
    end.

(** [if "Encoding" not in self: self[Name("Encoding")] = Name("StandardEncoding")] *)
Definition implied_encoding (self : Type1Font) : Type1Font :=
  if PyDict.contains "Encoding"%string (entries self) then self
  else with_entries self
         (PyDict.set "Encoding"%string (PName "StandardEncoding") (entries self)).

(** [isinstance(self["Encoding"], Dictionary) and "BaseEncoding" in
    self["Encoding"] and self["Encoding"]["BaseEncoding"] in [...]] *)
Definition has_base_encoding (encoding : pdf_object) : bool :=
  is_Dictionary encoding && has_key "BaseEncoding" encoding
  && match getitem encoding "BaseEncoding" with
     | Ok b => in_strs b predefined_encodings
     | Raise _ => false
     end.

Definition character_identifier_to_unicode (character_identifier : Z)
    (self : Type1Font) : Type1Font * result (option ustr) :=
  if PyDict.contains "ToUnicode"%string (entries self) then
    let (self1, r) := _read_to_unicode self in
    (self1,
     let? _ := r in
     Ok (PyDict.get character_identifier
           (_character_identifier_to_unicode_lookup self1)))
  else
    let self1 := implied_encoding self in
    match PyDict.get "Encoding"%string (entries self1) with
    | None => (self1, Raise KeyError)
    | Some encoding =>
        (* the second [if] and the final [return None] *)
        let with_differences :=
          if has_base_encoding encoding then
            if (character_identifier <? 0) || (256 <? character_identifier)
            then (self1, Ok None)
            else
              let (self2, r) := _read_encoding_with_differences self1 in
              (self2,
               let? _ := r in
               Ok (PyDict.get character_identifier
                     (_character_identifier_to_unicode_lookup self2)))
          else (self1, Ok None) in
        if is_Name encoding && in_strs encoding predefined_encodings then
          if (character_identifier <? 0) || (256 <? character_identifier)
          then (self1, Ok None)
          else if eq_str encoding "WinAnsiEncoding" then
            (self1,
             let? b := Codec.bytes_of_int character_identifier in
             let? u := Codec.cp1252_decode b in Ok (Some u))
          else if eq_str encoding "MacRomanEncoding" then
            (self1,
             let? b := Codec.bytes_of_int character_identifier in
             let? u := mac_roman_decode b in Ok (Some u))
          else if eq_str encoding "MacExpertEncoding" then
            (self1,
             let? _ := PyDict.getitem "BaseFont"%string (entries self1) in
             let? b := Codec.bytes_of_int character_identifier in
             let? u := mac_roman_decode b in Ok (Some u))
          else if eq_str encoding "StandardEncoding" then
            (self1,
             let? b := Codec.bytes_of_int character_identifier in
             let? u := adobe_standard_decode b in Ok (Some u))
          else
            match PyDict.getitem "BaseFont"%string (entries self1) with
            | Raise e => (self1, Raise e)
            | Ok _ => with_differences
            end
        else with_differences
    end.

Definition unicode_to_character_identifier (unicode : ustr)
    (self : Type1Font) : Type1Font * result (option Z) :=
  if PyDict.contains "ToUnicode"%string (entries self) then
    let (self1, r) := _read_to_unicode self in
    (self1,
     let? _ := r in
     Ok (PyDict.get unicode (_unicode_lookup_to_character_identifier self1)))
  else
    let self1 := implied_encoding self in
    match PyDict.get "Encoding"%string (entries self1) with
    | None => (self1, Raise KeyError)
    | Some encoding =>
        (* the second [if] and the final [return None] *)
        let with_differences :=
          if has_base_encoding encoding then
            let (self2, r) := _read_encoding_with_differences self1 in
            (self2,
             let? _ := r in
             Ok (PyDict.get unicode
                   (_unicode_lookup_to_character_identifier self2)))
          else (self1, Ok None) in
        if is_Name encoding && in_strs encoding predefined_encodings then
          if eq_str encoding "WinAnsiEncoding" then
            (self1,
             or_None (let? b := Codec.cp1252_encode unicode in
                      Codec.int_of_bytes b))
          else if eq_str encoding "MacRomanEncoding" then
            (self1,
             or_None (let? b := mac_roman_encode unicode in
                      Codec.int_of_bytes b))
          else if eq_str encoding "MacExpertEncoding" then
            (self1,
             or_None (let? b := mac_roman_encode unicode in
                      Codec.int_of_bytes b))
          else if eq_str encoding "StandardEncoding" then
            (self1,
             or_None (let? b := adobe_standard_encode unicode in
                      Codec.int_of_bytes b))
          else with_differences
        else with_differences
    end.

End font.

End Type1Font.

(** ** [StandardType1Font], the object *)

Module StandardType1FontObject.

(** What the font reads of a parsed AFM file ([fontTools.afmLib.AFM]):
    the attributes and the glyph table, glyph name to code and width.
    [FontName] is a text attribute in an AFM file; a [Name] made of a
    number is not followed here and taken to raise. *)
Inductive afm_attribute : Type :=
| AttrText (s : string)
| AttrNumber (q : Q).

Record AFM : Type := {
  _attrs : list (string * afm_attribute);
  _chars : list (string * (Z * Q)) }.

Record StandardType1Font : Type := {
  font : Type1Font.Type1Font;
  _afm : option AFM }.

(** [{c: decode(c) for c in range(0, 256)}] *)
Definition table_of (decode : Z → ustr) : list (Z * ustr) :=
  foldl (fun acc c => PyDict.set c (decode c) acc) []
    (map Z.of_nat (seq 0 256)).

(** [try: bytes([c]).decode("cp1252") except: ""] *)
Definition cp1252_or_empty (c : Z) : ustr :=
  match (let? b := Codec.bytes_of_int c in Codec.cp1252_decode b) with
  | Ok u => u
  | Raise _ => []
  end.

Section init.
(** The AFM files of the package, by file name, and the two decoders of
    [symbol_encoding]. *)
Variable afm_files : string → option AFM.
Variable symbol_decode : list Z → ustr.
Variable zapfdingbats_decode : list Z → ustr.

Definition __init__ (font_name : option string) : result StandardType1Font :=
  match font_name with
  | None => Ok {| font := Type1Font.new; _afm := None |}
  | Some name =>
      match StandardType1Font._canonical_name name with
      | None => Raise AssertionError
      | Some font_name =>
          match afm_files (StandardType1Font.lower font_name +:+ ".afm") with
          | None => Raise AssertionError
          | Some afm =>
              let? font_name_attr := PyDict.getitem "FontName"%string (_attrs afm) in
              let? base_font :=
                match font_name_attr with
                | AttrText s => Ok (PName s)
                | AttrNumber _ => Raise TypeError
                end in
              let lookup :=
                if String.eqb font_name "Symbol"
                then table_of (fun c => symbol_decode [c])
                else if String.eqb font_name "ZapfDingbats"
                then table_of (fun c => zapfdingbats_decode [c])
                else table_of cp1252_or_empty in
              Ok {| font :=
                      {| Type1Font.entries :=
                           PyDict.set "BaseFont"%string base_font
                             (PyDict.set "Subtype"%string (PName "Type1")
                                (PyDict.set "Type"%string (PName "Font")
                                   (Type1Font.entries Type1Font.new)));
                         Type1Font._character_identifier_to_unicode_lookup :=
                           lookup;
                         Type1Font._unicode_lookup_to_character_identifier :=
                           PyDict.invert lookup |};
                    _afm := Some afm |}
          end
      end
  end.

End init.

Definition character_identifier_to_unicode (character_identifier : Z)
    (self : StandardType1Font) : option ustr :=
  PyDict.get character_identifier
    (Type1Font._character_identifier_to_unicode_lookup (font self)).

Definition unicode_to_character_identifier (unicode : ustr)
    (self : StandardType1Font) : option Z :=
  PyDict.get unicode
    (Type1Font._unicode_lookup_to_character_identifier (font self)).

End StandardType1FontObject.

(** ** [Canvas.read] *)

Module Canvas.

(** What [HighLevelTokenizer.read_object] hands out: an operand, or the
    name of an operator ([CanvasOperatorName]). *)
Inductive token : Type :=
| Operand (o : pdf_object)
| OperatorName (name : string).

Section canvas.
(** [CanvasGraphicsState] *)
Context {G : Type}.

Record Canvas : Type := {
  in_compatibility_section : bool;
  graphics_state : G;
  marked_content_stack : list pdf_object;
  graphics_state_stack : list G }.

(** A [CanvasOperator].  An operator that raises may have changed the
    canvas before: [invoke] gives the canvas it leaves behind and the
    exception, if any. *)
Record CanvasOperator : Type := {
  text : string;
  number_of_operands : nat;
  invoke : Canvas → list pdf_object → Canvas * option exn }.

(** [self.canvas_operators] *)
Variable canvas_operators : gmap string CanvasOperator.

Definition get_operator (name : string) : option CanvasOperator :=
  canvas_operators !! name.

(** [for _ in range(0, n): operands.insert(0, operand_stk.pop(-1))].
    The operand stack is kept with its top first. *)
Fixpoint pop_operands (n : nat) (operand_stk operands : list pdf_object)
  : result (list pdf_object * list pdf_object) :=
  match n with
  | O => Ok (operands, operand_stk)
  | S n' =>
      match operand_stk with
      | [] => Raise IndexError
      | top :: stk => pop_operands n' stk (top :: operands)
      end
  end.

(** The loop of [read] over the objects of the content stream. *)
Fixpoint read_loop (objects : list token) (operand_stk : list pdf_object)
    (self : Canvas) : Canvas * result unit :=
  match objects with
  | [] => (self, Ok tt)
  | Operand obj :: rest => read_loop rest (obj :: operand_stk) self
  | OperatorName obj :: rest =>
      match canvas_operators !! obj with
      | None => read_loop rest operand_stk self
      | Some operator =>
          if negb (in_compatibility_section self)
             && (length operand_stk <? number_of_operands operator)%nat
          then (self, Raise AssertionError)
          else
            match pop_operands (number_of_operands operator) operand_stk [] with
            | Raise e => (self, Raise e)
            | Ok (operands, operand_stk') =>
                match invoke operator self operands with
                | (self', None) => read_loop rest operand_stk' self'
                | (self', Some e) =>
                    if negb (in_compatibility_section self')
                    then (self', Raise e)
                    else read_loop rest operand_stk' self'
                end
            end
      end
  end.

Definition read (io_source : list token) (self : Canvas)
  : Canvas * result unit :=
  read_loop io_source [] self.

End canvas.

(** Modelled from the spec: the operator classes are not among the files
    followed here.  The graphics state is cut down to its line width;
    [BX] sets and [EX] clears the compatibility flag, [q] pushes a copy
    of the graphics state, [Q] pops it and fails on an empty stack, [w]
    sets the line width from its one operand. *)
Record CanvasGraphicsState : Type := { line_width : Q }.

Definition set_compatibility (b : bool) (c : @Canvas CanvasGraphicsState)
  : @Canvas CanvasGraphicsState :=
  {| in_compatibility_section := b;
     graphics_state := graphics_state c;
     marked_content_stack := marked_content_stack c;
     graphics_state_stack := graphics_state_stack c |}.

Definition BeginCompatibilitySection : @CanvasOperator CanvasGraphicsState :=
  {| text := "BX"; number_of_operands := 0;
     invoke := fun c _ => (set_compatibility true c, None) |}.

Definition EndCompatibilitySection : @CanvasOperator CanvasGraphicsState :=
  {| text := "EX"; number_of_operands := 0;
     invoke := fun c _ => (set_compatibility false c, None) |}.

Definition PushGraphicsState : @CanvasOperator CanvasGraphicsState :=
  {| text := "q"; number_of_operands := 0;
     invoke := fun c _ =>
       ({| in_compatibility_section := in_compatibility_section c;
           graphics_state := graphics_state c;
           marked_content_stack := marked_content_stack c;
           graphics_state_stack := graphics_state c :: graphics_state_stack c |},
        None) |}.

Definition PopGraphicsState : @CanvasOperator CanvasGraphicsState :=
  {| text := "Q"; number_of_operands := 0;
     invoke := fun c _ =>
       match graphics_state_stack c with
       | [] => (c, Some (OperatorError "GraphicsStateUnderflow"))
       | g :: stack =>
           ({| in_compatibility_section := in_compatibility_section c;
               graphics_state := g;
               marked_content_stack := marked_content_stack c;
               graphics_state_stack := stack |}, None)
       end |}.

Definition SetLineWidth : @CanvasOperator CanvasGraphicsState :=
  {| text := "w"; number_of_operands := 1;
     invoke := fun c operands =>
       match operands with
       | [PDecimal q] =>
           ({| in_compatibility_section := in_compatibility_section c;
               graphics_state := {| line_width := q |};
               marked_content_stack := marked_content_stack c;
               graphics_state_stack := graphics_state_stack c |}, None)
       | _ => (c, Some AssertionError)
       end |}.

(** [{x.get_text(): x for x in [...]}] over the operators above *)
Definition operators : gmap string (@CanvasOperator CanvasGraphicsState) :=
  list_to_map
    (map (fun x => (text x, x))
       [ BeginCompatibilitySection; EndCompatibilitySection;
         PopGraphicsState; PushGraphicsState; SetLineWidth ]).

(** [Canvas()] *)
Definition new : @Canvas CanvasGraphicsState :=
  {| in_compatibility_section := false;
     graphics_state := {| line_width := 1%Q |};
     marked_content_stack := [];
     graphics_state_stack := [] |}.

End Canvas.

(** ** [LeftToRightComparator] *)

Module LeftToRightComparator.

(** [ptext.pdf.canvas.geometry.rectangle.Rectangle]: four [Decimal]s *)
Record Rectangle : Set := {
  x : Q;
  y : Q;
  width : Q;
  height : Q }.

(** Of a [ChunkOfTextRenderEvent] the comparator reads the baseline only. *)
Record ChunkOfTextRenderEvent : Set := {
  baseline_bounding_box : Rectangle }.

Definition get_baseline (e : ChunkOfTextRenderEvent) : Rectangle :=
  baseline_bounding_box e.

(** [a % b] on [Decimal]s: the quotient is truncated toward zero, so the
    remainder has the sign of [a] (unlike [%] on Python's [int]).  The
    arithmetic is exact: the 28 digits of the default context are not
    modelled. *)
Definition decimal_mod (a b : Q) : Q :=
  (a - b * inject_Z (int_of_Decimal (a / b)))%Q.

Definition cmp (obj0 obj1 : ChunkOfTextRenderEvent) : Q :=
  let y0_round := y (get_baseline obj0) in
  let y0_round := (y0_round - decimal_mod y0_round 5)%Q in
  let y1_round := y (get_baseline obj1) in
  let y1_round := (y1_round - decimal_mod y1_round 5)%Q in
  if Qeq_bool y0_round y1_round
  then (x (get_baseline obj0) - x (get_baseline obj1))%Q
  else (- (y0_round - y1_round))%Q.

(** [sorted(events, key=cmp_to_key(cmp))], as a stable insertion sort:
    an event goes before the first one it compares negative to. *)
Fixpoint insert (e : ChunkOfTextRenderEvent) (l : list ChunkOfTextRenderEvent)
  : list ChunkOfTextRenderEvent :=
  match l with
  | [] => [e]
  | e' :: rest =>
      if Qlt_le_dec (cmp e e') 0%Q then e :: l else e' :: insert e rest
  end.

Definition sorted (l : list ChunkOfTextRenderEvent) : list ChunkOfTextRenderEvent :=
  foldr insert [] l.

End LeftToRightComparator.

(** ** Reference definitions and sample inputs *)

(** The walk as the specification words it: the kids of a [Pages] node go
    to the front of the worklist, which makes the walk depth-first. *)
Fixpoint explore_preorder (fuel : nat) (stack_to_handle pages_in_order : list pdf_object)
  : option (list pdf_object) :=
  match stack_to_handle with
  | [] => Some pages_in_order
  | obj :: stack =>
      match fuel with
      | O => None
      | S fuel' =>
          let pages_in_order' :=
            if is_Page obj then pages_in_order ++ [obj] else pages_in_order in
          let stack' :=
            match ReadRootDictionaryTransformer.pages_kids obj with
            | Some kids => kids ++ stack
            | None => stack
            end in
          explore_preorder fuel' stack' pages_in_order'
      end
  end.

Definition page (contents : string) : pdf_object :=
  PDict ClsPage [("Type", PName "Page"); ("Contents", PString contents)]%string.

Definition pages_node (kids : list pdf_object) : pdf_object :=
  PDict ClsDictionary
    [("Type", PName "Pages"); ("Kids", PList kids);
     ("Count", PDecimal (inject_Z (Z.of_nat (length kids))))]%string.

(** [Pages.Kids = [Pages(Kids=[Page_A, Page_B]), Page_C]] *)
Definition nested_pages : pdf_object :=
  pages_node [pages_node [page "A"; page "B"]; page "C"].

Definition nested_catalog : pdf_object :=
  PDict ClsDictionary
    [("Type", PName "Catalog"); ("Pages", nested_pages)]%string.

(** What [rebuild_pages] leaves in the catalog. *)
Definition flat_pages (root : pdf_object) : Prop :=
  ∃ pages kids,
    getitem root "Pages" = Ok pages
    ∧ getitem pages "Kids" = Ok (PList kids)
    ∧ Forall (fun p => is_Page p = true) kids
    ∧ getitem pages "Count" = Ok (PDecimal (inject_Z (Z.of_nat (length kids)))).


(** The two ways to bring a coordinate to a multiple of 5: down (what the
    specification says) and toward zero. *)
Definition round_down_5 (y : Q) : Q := (5 * inject_Z (Qfloor (y / 5)))%Q.

Definition round_toward_zero_5 (y : Q) : Q :=
  (5 * inject_Z (int_of_Decimal (y / 5)))%Q.

(** The comparator as the specification words it, for a given rounding:
    by x ascending on equal rounded y, by y descending otherwise. *)
Definition cmp_by (round : Q → Q)
    (obj0 obj1 : LeftToRightComparator.ChunkOfTextRenderEvent) : Q :=
  let b0 := LeftToRightComparator.get_baseline obj0 in
  let b1 := LeftToRightComparator.get_baseline obj1 in
  if Qeq_bool (round (LeftToRightComparator.y b0)) (round (LeftToRightComparator.y b1))
  then (LeftToRightComparator.x b0 - LeftToRightComparator.x b1)%Q
  else (- (round (LeftToRightComparator.y b0) - round (LeftToRightComparator.y b1)))%Q.

(** An event with its baseline at [(x, y)]. *)
Definition event_at (x y : Q) : LeftToRightComparator.ChunkOfTextRenderEvent :=
  {| LeftToRightComparator.baseline_bounding_box :=
       {| LeftToRightComparator.x := x; LeftToRightComparator.y := y;
          LeftToRightComparator.width := 10; LeftToRightComparator.height := 10 |} |}.

(** A Type-1 font with [Encoding = WinAnsiEncoding] and nothing else. *)
Definition winansi_font : Type1Font.Type1Font :=
  Type1Font.with_entries Type1Font.new
    (PyDict.set "Encoding"%string (PName "WinAnsiEncoding")
       (Type1Font.entries Type1Font.new)).

(** The same font with a [ToUnicode] stream on top. *)
Definition to_unicode_font (cmap : bytes) : Type1Font.Type1Font :=
  Type1Font.with_entries winansi_font
    (PyDict.set "ToUnicode"%string
       (PDict ClsStream [("DecodedBytes"%string, PBytes cmap)])
       (Type1Font.entries winansi_font)).

(** The lookup tables of a font agree with the CMap table [table]: they
    are still to be read, or they were read from it. *)
Definition cmap_cache_ok (self : Type1Font.Type1Font) (table : list (Z * ustr))
  : Prop :=
  Type1Font._unicode_lookup_to_character_identifier self = []
  ∨ (Type1Font._character_identifier_to_unicode_lookup self = table
     ∧ Type1Font._unicode_lookup_to_character_identifier self
       = PyDict.invert table).

(** [{Type: Font, Subtype: Type1}] *)
Definition font_dictionary : pdf_object :=
  PDict ClsDictionary [("Type", PName "Font"); ("Subtype", PName "Type1")]%string.

(** Two distinct objects with that value, neither with a reference. *)
Definition two_fonts : gmap positive (@WriteBaseTransformer.py_object pdf_object) :=
  {[ 1%positive := {| WriteBaseTransformer.value := font_dictionary;
                      WriteBaseTransformer.reference := None |};
     2%positive := {| WriteBaseTransformer.value := font_dictionary;
                      WriteBaseTransformer.reference := None |} ]}.

(** A hash for the sample runs. *)
Definition weight_hash (o : pdf_object) : option Z := Some (Z.of_nat (weight o)).

(** Stand-ins for the codecs and the CMap parser in the sample runs: a
    codec without any character, a CMap that maps 0x42 to ["B"] only. *)
Definition no_decode (bs : bytes) : result ustr := Raise UnicodeDecodeError.
Definition no_encode (u : ustr) : result bytes := Raise UnicodeEncodeError.
Definition cmap_B (cmap_bytes : pdf_object) : result (list (Z * ustr)) :=
  Ok [(66, [66%N])].
Definition no_glyph (glyph_name : string) : ustr := [].
Definition text_of (o : pdf_object) : string :=
  match o with PName t => t | PString t => t | _ => EmptyString end.

(** ** Further reference definitions *)

(** Whether an object of a content stream is an operand or the name of
    an operator of the table. *)
Definition known_token {G} (canvas_operators : gmap string (@Canvas.CanvasOperator G))
    (t : Canvas.token) : bool :=
  match t with
  | Canvas.Operand _ => true
  | Canvas.OperatorName name =>
      match canvas_operators !! name with Some _ => true | None => false end
  end.

(** Whether every operator of a stream finds as many operands as it takes,
    for an operand stack that starts [depth] deep.  The depth of the stack
    depends on the arities only, not on what the operators do. *)
Fixpoint enough_operands {G} (canvas_operators : gmap string (@Canvas.CanvasOperator G))
    (objects : list Canvas.token) (depth : nat) : bool :=
  match objects with
  | [] => true
  | Canvas.Operand _ :: rest => enough_operands canvas_operators rest (S depth)
  | Canvas.OperatorName name :: rest =>
      match canvas_operators !! name with
      | None => enough_operands canvas_operators rest depth
      | Some operator =>
          (Canvas.number_of_operands operator <=? depth)%nat
          && enough_operands canvas_operators rest
               (depth - Canvas.number_of_operands operator)
      end
  end.

(** The [Page] objects below a node in depth-first preorder, for a tree
    of height at most [fuel]. *)
Fixpoint pages_below (fuel : nat) (obj : pdf_object) : list pdf_object :=
  match fuel with
  | O => []
  | S fuel' =>
      (if is_Page obj then [obj] else [])
      ++ match ReadRootDictionaryTransformer.pages_kids obj with
         | Some kids => flat_map (pages_below fuel') kids
         | None => []
         end
  end.

Definition pages_of (obj : pdf_object) : list pdf_object :=
  pages_below (weight obj) obj.

(** The keys of a dictionary object, in insertion order. *)
Definition keys (o : pdf_object) : list string :=
  match o with PDict _ d => d.*1 | _ => [] end.

(** Whether one of the handlers [hs] can transform a value. *)
Definition handled {V C R : Type}
    (store : gmap positive (@WriteBaseTransformer.transformer_object V C R))
    (hs : list positive) (o : V) : bool :=
  existsb (fun h => match store !! h with
                    | Some t => WriteBaseTransformer.can_be_transformed t o
                    | None => false
                    end) hs.

(** The transformers from [p] up to the one without parent, when [fuel]
    steps reach it. *)
Fixpoint ancestors {V C R : Type} (fuel : nat)
    (store : gmap positive (@WriteBaseTransformer.transformer_object V C R))
    (p : positive) : option (list positive) :=
  match fuel with
  | O => None
  | S fuel' =>
      match store !! p with
      | None => None
      | Some t =>
          match WriteBaseTransformer.parent t with
          | None => Some [p]
          | Some q => cons p <$> ancestors fuel' store q
          end
      end
  end.

(** A base transformer that handles nothing, and one that handles the
    names. *)
Definition base_transformer : @WriteBaseTransformer.transformer_object pdf_object (list N) nat :=
  {| WriteBaseTransformer.handlers := [];
     WriteBaseTransformer.parent := None;
     WriteBaseTransformer.can_be_transformed := fun _ => false;
     WriteBaseTransformer.own_transform := fun _ c => (c, Ok O) |}.

Definition name_transformer : @WriteBaseTransformer.transformer_object pdf_object (list N) nat :=
  {| WriteBaseTransformer.handlers := [];
     WriteBaseTransformer.parent := None;
     WriteBaseTransformer.can_be_transformed := is_Name;
     WriteBaseTransformer.own_transform := fun _ c => (c ++ [47%N], Ok 1%nat) |}.

Definition three_transformers
  : gmap positive (@WriteBaseTransformer.transformer_object pdf_object (list N) nat) :=
  {[ 1%positive := base_transformer; 2%positive := name_transformer;
     3%positive := base_transformer ]}.

(** A reference object for the sample runs: object 12, generation 0, not
    yet written. *)
Definition reference_12 : WriteBaseTransformer.Reference :=
  {| WriteBaseTransformer.object_number := 12;
     WriteBaseTransformer.generation_number := None;
     WriteBaseTransformer.byte_offset := None |}.

(** An object is held in the hash registry of a context. *)
Definition in_hash_registry (context : WriteBaseTransformer.WriteTransformerContext)
    (p : positive) : Prop :=
  ∃ h bucket,
    WriteBaseTransformer.indirect_objects_by_hash context !! h = Some bucket
    ∧ p ∈ bucket.

(** The numbers of the objects of the hash registry are 1, ..., [n], each
    carried by one object. *)
Record numbering_inv {V : Type} (n : nat)
    (σ : gmap positive (@WriteBaseTransformer.py_object V)
         * WriteBaseTransformer.WriteTransformerContext) : Prop := {
  num_range : ∀ p,
    in_hash_registry σ.2 p →
    ∃ k, WriteBaseTransformer.number_of σ.1 p = Some k ∧ (1 ≤ k ≤ n)%nat;
  num_onto : ∀ k,
    (1 ≤ k ≤ n)%nat →
    ∃ p, in_hash_registry σ.2 p ∧ WriteBaseTransformer.number_of σ.1 p = Some k;
  num_inj : ∀ p q k,
    in_hash_registry σ.2 p → in_hash_registry σ.2 q →
    WriteBaseTransformer.number_of σ.1 p = Some k →
    WriteBaseTransformer.number_of σ.1 q = Some k → p = q }.

(** A font dictionary with the widths of the three characters 32..34. *)
Definition widths_font : Type1Font.Type1Font :=
  Type1Font.with_entries Type1Font.new
    [("Type", PName "Font"); ("Subtype", PName "Type1");
     ("FirstChar", PDecimal 32); ("LastChar", PDecimal 34);
     ("Widths", PList [PDecimal 250; PDecimal 333; PDecimal 408])]%string.

(** A font whose encoding is [WinAnsiEncoding] with two runs of
    differences: [39 /quotesingle] and [96 /grave /a]. *)
Definition differences_font : Type1Font.Type1Font :=
  Type1Font.with_entries Type1Font.new
    [("Type", PName "Font"); ("Subtype", PName "Type1");
     ("FirstChar", PDecimal 0); ("LastChar", PDecimal 255);
     ("Encoding",
      PDict ClsDictionary
        [("BaseEncoding", PName "WinAnsiEncoding");
         ("Differences",
          PList [PDecimal 39; PName "quotesingle";
                 PDecimal 96; PName "grave"; PName "a"])])]%string.

(** A stand-in for the glyph list in the sample runs: the character
    codes of the glyph name. *)
Definition name_codes (glyph_name : string) : ustr :=
  map Ascii.N_of_ascii (String.list_ascii_of_string glyph_name).

(** A CMap with two codes for two different texts. *)
Definition cmap_AB (cmap_bytes : pdf_object) : result (list (Z * ustr)) :=
  Ok [(65, [65%N]); (66, [66%N])].

(** A CMap parser that fails. *)
Definition no_cmap (cmap_bytes : pdf_object) : result (list (Z * ustr)) :=
  Raise ValueError.

(** A package with the metrics of one font, and with no symbol decoder. *)
Definition helvetica_afm : StandardType1FontObject.AFM :=
  {| StandardType1FontObject._attrs :=
       [("FontName"%string, StandardType1FontObject.AttrText "Helvetica");
        ("Ascender"%string, StandardType1FontObject.AttrNumber 718)];
     StandardType1FontObject._chars :=
       [("space"%string, (32, 278%Q)); ("A"%string, (65, 667%Q))] |}.

Definition afm_files (file_name : string) : option StandardType1FontObject.AFM :=
  if String.eqb file_name "helvetica.afm" then Some helvetica_afm else None.

Definition no_symbol (codes : list Z) : ustr := [].

(** The font that [StandardType1Font("helvetica")] builds from these
    metrics. *)
Definition helvetica_font : StandardType1FontObject.StandardType1Font :=
  {| StandardType1FontObject.font :=
       {| Type1Font.entries :=
            [("Type", PName "Font"); ("Subtype", PName "Type1");
             ("BaseFont", PName "Helvetica")]%string;
          Type1Font._character_identifier_to_unicode_lookup :=
            StandardType1FontObject.table_of
              StandardType1FontObject.cp1252_or_empty;
          Type1Font._unicode_lookup_to_character_identifier :=
            PyDict.invert
              (StandardType1FontObject.table_of
                 StandardType1FontObject.cp1252_or_empty) |};
     StandardType1FontObject._afm := Some helvetica_afm |}.

(** The twelve standard fonts that are neither [Symbol] nor
    [ZapfDingbats]. *)
Definition is_text_font_name (font_name : string) : bool :=
  match StandardType1Font._canonical_name font_name with
  | Some n => negb (String.eqb n "Symbol") && negb (String.eqb n "ZapfDingbats")
  | None => false
  end.

(** * Part II: properties *)

(** ** Dictionaries *)

Section PyDict_facts.
Context {K V : Type} `{EqDecision K}.
Implicit Types (k : K) (v : V) (d : list (K * V)).

Lemma get_set_eq k v d : PyDict.get k (PyDict.set k v d) = Some v.
Proof.
  induction d as [|[k' v'] d IH]; simpl.
  - by rewrite decide_True.
  - destruct (decide (k = k')) as [->|Hne]; simpl.
    + by rewrite decide_True.
    + by rewrite decide_False.
Qed.

Lemma get_set_ne k k' v d :
  k ≠ k' → PyDict.get k' (PyDict.set k v d) = PyDict.get k' d.
Proof.
  intros Hne. induction d as [|[k0 v0] d IH]; simpl.
  - by rewrite decide_False.
  - destruct (decide (k = k0)) as [->|Hk]; simpl.
    + by rewrite !decide_False.
    + destruct (decide (k' = k0)); [done | apply IH].
Qed.

Lemma contains_false_get k d : PyDict.contains k d = false → PyDict.get k d = None.
Proof. unfold PyDict.contains. by destruct (PyDict.get k d). Qed.

Lemma contains_true_get k d :
  PyDict.contains k d = true → ∃ v, PyDict.get k d = Some v.
Proof. unfold PyDict.contains. destruct (PyDict.get k d); [eauto | done]. Qed.
End PyDict_facts.

(** ** The catalog transformer *)

Section Catalog_facts.
Import ReadRootDictionaryTransformer.

Lemma weight_pos o : (1 ≤ weight o)%nat.
Proof. destruct o; simpl; lia. Qed.

Lemma weights_app l1 l2 : weights (l1 ++ l2) = (weights l1 + weights l2)%nat.
Proof. unfold weights. induction l1; simpl; lia. Qed.

Lemma get_weight (k : string) (d : Dictionary) v :
  PyDict.get k d = Some v →
  (weight v ≤ foldr (fun kv n => weight kv.2 + n) 0 d)%nat.
Proof.
  induction d as [|[k' v'] d IH]; simpl; [done|].
  destruct (decide (k = k')); intros Hg.
  - injection Hg as ->. lia.
  - specialize (IH Hg). lia.
Qed.

Lemma pages_kids_weight obj kids :
  pages_kids obj = Some kids → (weights kids + 2 ≤ weight obj)%nat.
Proof.
  destruct obj as [| | | | | | | |c d]; simpl; try done.
  destruct (PyDict.get "Type" d) as [t|]; [|done].
  destruct (eq_str t "Pages"); [|done].
  destruct (PyDict.get "Kids" d) as [[| | | | | | |l|]|] eqn:Hk; try done.
  intros [= ->]. apply get_weight in Hk. simpl in Hk. fold (weights kids) in Hk.
  lia.
Qed.

(** The walk ends: a worklist of total weight [n] is emptied within [n]
    iterations. *)
Lemma explore_total fuel stack pages :
  (weights stack ≤ fuel)%nat → ∃ ps, explore fuel stack pages = Some ps.
Proof.
  revert stack pages. induction fuel as [|fuel IH]; intros stack pages Hw.
  - destruct stack as [|obj stack]; simpl; [eauto|].
    pose proof (weight_pos obj). unfold weights in Hw. simpl in Hw. lia.
  - destruct stack as [|obj stack]; simpl; [eauto|].
    apply IH. unfold weights in Hw. simpl in Hw. fold (weights stack) in Hw.
    destruct (pages_kids obj) as [kids|] eqn:Hk.
    + apply pages_kids_weight in Hk. rewrite weights_app. lia.
    + pose proof (weight_pos obj). lia.
Qed.

Lemma pages_in_order_explore pages :
  explore (weight pages) [pages] [] = Some (pages_in_order pages).
Proof.
  unfold pages_in_order.
  destruct (explore_total (weight pages) [pages] []) as [ps ->]; [|done].
  unfold weights. simpl. lia.
Qed.

(** Only [Page] objects are collected. *)
Lemma explore_only_pages fuel stack pages ps :
  explore fuel stack pages = Some ps →
  Forall (fun p => is_Page p = true) pages →
  Forall (fun p => is_Page p = true) ps.
Proof.
  revert stack pages. induction fuel as [|fuel IH]; intros stack pages.
  - destruct stack; simpl; [|done]. by intros [= ->].
  - destruct stack as [|obj stack]; simpl; [by intros [= ->]|].
    intros He Hp. eapply IH; [exact He|].
    destruct (is_Page obj) eqn:Ho; [|done].
    apply Forall_app. split; [done|]. by constructor.
Qed.

Lemma getitem_setitem_eq o k v o' :
  setitem o k v = Ok o' → getitem o' k = Ok v.
Proof.
  destruct o; simpl; try done. intros [= <-]. simpl.
  unfold PyDict.getitem. by rewrite get_set_eq.
Qed.

Lemma getitem_setitem_ne o k k' v o' :
  k ≠ k' → setitem o k v = Ok o' → getitem o' k' = getitem o k'.
Proof.
  intros Hne. destruct o; simpl; try done. intros [= <-]. simpl.
  unfold PyDict.getitem. by rewrite get_set_ne.
Qed.

Lemma rebuild_pages_flat root root' :
  rebuild_pages root = Ok root' → flat_pages root'.
Proof.
  unfold rebuild_pages.
  destruct (getitem root "Pages") as [pages|] eqn:Hp; simpl; [|done].
  destruct (setitem pages "Kids" (PList [])) as [pages1|] eqn:H1; simpl; [|done].
  rewrite (getitem_setitem_eq _ _ _ _ H1). simpl.
  destruct (setitem pages1 "Kids" (PList (pages_in_order pages)))
    as [pages2|] eqn:H2; simpl; [|done].
  destruct (setitem pages2 "Count" _) as [pages3|] eqn:H3; simpl; [|done].
  intros H4. exists pages3, (pages_in_order pages). split_and!.
  - by apply getitem_setitem_eq in H4.
  - rewrite (getitem_setitem_ne pages2 "Count" "Kids" _ _ ltac:(done) H3).
    by apply getitem_setitem_eq in H2.
  - eapply explore_only_pages; [apply pages_in_order_explore | constructor].
  - by apply getitem_setitem_eq in H3.
Qed.

Lemma rebuild_pages_total root pages :
  getitem root "Pages" = Ok pages →
  is_Dictionary pages = true →
  ∃ root', rebuild_pages root = Ok root'.
Proof.
  intros Hp Hd. unfold rebuild_pages. rewrite Hp. simpl.
  destruct pages; try done. simpl.
  unfold PyDict.getitem. rewrite get_set_eq. simpl.
  destruct root; try done. simpl. eauto.
Qed.

End Catalog_facts.

(** C1, at the catalog [Pages.Kids = [Pages(Kids=[Page_A, Page_B]), Page_C]]:
    the transformer takes the next node from the head of its worklist and
    puts the kids at the tail, so the flat list comes out level by level,
    [Page_C, Page_A, Page_B], with [Count = 3]; the depth-first preorder of
    the same tree is [Page_A, Page_B, Page_C]. *)
Theorem catalog_flattening_level_order :
  (∃ root' pages',
      ReadRootDictionaryTransformer.transform (Some Ok) nested_catalog = Ok root'
      ∧ getitem root' "Pages" = Ok pages'
      ∧ getitem pages' "Kids" = Ok (PList [page "C"; page "A"; page "B"])
      ∧ getitem pages' "Count" = Ok (PDecimal 3))
  ∧ getitem nested_catalog "Pages" = Ok nested_pages
  ∧ explore_preorder (weight nested_pages) [nested_pages] []
    = Some [page "A"; page "B"; page "C"].
Proof.
  split_and!; [|reflexivity..].
  eexists _, _. split_and!; reflexivity.
Qed.

(** C8: whenever the catalog transformer returns, the [Kids] of the
    [Pages] entry of its result is a list of [Page] objects only and
    [Count] is the length of that list; and it does return as soon as the
    dictionary transformer hands back a dictionary whose [Pages] entry is
    a dictionary. *)
Theorem pages_flattening t catalog :
  (∀ root',
      ReadRootDictionaryTransformer.transform t catalog = Ok root' →
      ∃ pages kids,
        getitem root' "Pages" = Ok pages
        ∧ getitem pages "Kids" = Ok (PList kids)
        ∧ Forall (fun p => is_Page p = true) kids
        ∧ getitem pages "Count"
          = Ok (PDecimal (inject_Z (Z.of_nat (length kids)))))
  ∧ (∀ f root pages,
      t = Some f →
      is_Dictionary catalog = true →
      f catalog = Ok root →
      is_Dictionary root = true →
      getitem root "Pages" = Ok pages →
      is_Dictionary pages = true →
      ∃ root', ReadRootDictionaryTransformer.transform t catalog = Ok root').
Proof.
  split.
  - intros root'. unfold ReadRootDictionaryTransformer.transform.
    destruct (is_Dictionary catalog); simpl; [|done].
    destruct t as [f|]; [|done].
    destruct (f catalog) as [root|]; simpl; [|done].
    destruct (is_Dictionary root); simpl; [|done].
    apply rebuild_pages_flat.
  - intros f root pages -> Hc Hf Hr Hp Hd.
    unfold ReadRootDictionaryTransformer.transform.
    rewrite Hc, Hf. simpl. rewrite Hr. simpl.
    by eapply rebuild_pages_total.
Qed.

Lemma pages_flattening_witness :
  ∃ root' pages kids,
    ReadRootDictionaryTransformer.transform (Some Ok) nested_catalog = Ok root'
    ∧ getitem root' "Pages" = Ok pages
    ∧ getitem pages "Kids" = Ok (PList kids)
    ∧ Forall (fun p => is_Page p = true) kids
    ∧ getitem pages "Count"
      = Ok (PDecimal (inject_Z (Z.of_nat (length kids)))).
Proof.
  destruct (pages_flattening (Some Ok) nested_catalog) as [Hinv Htot].
  destruct (Htot Ok nested_catalog nested_pages
              eq_refl eq_refl eq_refl eq_refl eq_refl eq_refl) as [root' Hr].
  destruct (Hinv root' Hr) as (pages & kids & H).
  exists root', pages, kids. split; [exact Hr | exact H].
Defined.

(** ** The standard 14 font names *)

Section Canonical_name_facts.
Import StandardType1Font.






Lemma first_match_Some names c n :
  first_match names c = Some n → n ∈ names ∧ _to_lower_and_alpha n = c.
Proof.
  induction names as [|n' names IH]; simpl; [done|].
  destruct (String.eqb (_to_lower_and_alpha n') c) eqn:He.
  - intros [= <-]. apply String.eqb_eq in He. split; [left | done].
  - intros [Hin Hc]%IH. split; [by right | done].
Qed.


(** No two of the fourteen names share a canonical form: the first match
    of the loop is the only one. *)
Lemma canonical_name_of_standard n s :
  n ∈ STANDARD_14_FONT_NAMES →
  _to_lower_and_alpha n = _to_lower_and_alpha s →
  _canonical_name s = Some n.
Proof.
  unfold _canonical_name. intros Hin <-. revert Hin.
  unfold STANDARD_14_FONT_NAMES. rewrite !elem_of_cons, elem_of_nil.
  intros H. repeat (destruct H as [->|H]; [vm_compute; reflexivity|]). done.
Qed.



End Canonical_name_facts.

(** ** The reading-order comparator *)

Section Comparator_facts.
Import LeftToRightComparator.
Local Open Scope Q_scope.

Lemma decimal_mod_round y : y - decimal_mod y 5 == round_toward_zero_5 y.
Proof. unfold decimal_mod, round_toward_zero_5. ring. Qed.

Lemma int_of_Decimal_nonneg q : 0 <= q → int_of_Decimal q = Qfloor q.
Proof.
  destruct q as [n d]. unfold Qle, int_of_Decimal, Qfloor. simpl.
  intros Hn. apply Z.quot_div_nonneg; lia.
Qed.

Lemma int_of_Decimal_opp q : int_of_Decimal (- q) = (- int_of_Decimal q)%Z.
Proof.
  destruct q as [n d]. unfold int_of_Decimal. simpl. apply Z.quot_opp_l. lia.
Qed.

Lemma div5_nonneg y : 0 <= y → 0 <= y / 5.
Proof.
  intros Hy. unfold Qdiv. apply Qmult_le_0_compat; [done|]. by vm_compute.
Qed.

Lemma round_toward_zero_5_nonneg y :
  0 <= y → round_toward_zero_5 y = round_down_5 y.
Proof.
  intros Hy. unfold round_toward_zero_5, round_down_5.
  by rewrite int_of_Decimal_nonneg by by apply div5_nonneg.
Qed.

Lemma round_down_5_bounds y : round_down_5 y <= y ∧ y < round_down_5 y + 5.
Proof.
  unfold round_down_5.
  pose proof (Qfloor_le (y / 5)) as Hl. pose proof (Qlt_floor (y / 5)) as Hu.
  assert (y == 5 * (y / 5)) as Hy by (field).
  split.
  - rewrite Hy at 2. apply Qmult_le_l; [by vm_compute | done].
  - rewrite Hy at 1.
    assert (5 * inject_Z (Qfloor (y / 5)) + 5
            == 5 * inject_Z (Qfloor (y / 5) + 1)) as ->.
    { rewrite inject_Z_plus. ring. }
    apply Qmult_lt_l; [by vm_compute | done].
Qed.

Lemma round_toward_zero_5_opp y :
  round_toward_zero_5 (- y) == - round_toward_zero_5 y.
Proof.
  unfold round_toward_zero_5.
  replace (int_of_Decimal (- y / 5)) with (- int_of_Decimal (y / 5))%Z.
  - rewrite inject_Z_opp. ring.
  - rewrite <- int_of_Decimal_opp. destruct y as [n d]. unfold int_of_Decimal.
    simpl. f_equal. lia.
Qed.

(** Toward zero: down on the positive side, up on the negative side. *)
Lemma round_toward_zero_5_bounds y :
  (0 <= y → round_toward_zero_5 y <= y ∧ y < round_toward_zero_5 y + 5)
  ∧ (y <= 0 → y <= round_toward_zero_5 y ∧ round_toward_zero_5 y - 5 < y).
Proof.
  split; intros Hy.
  - rewrite round_toward_zero_5_nonneg by done. apply round_down_5_bounds.
  - assert (0 <= - y) as Hy'.
    { apply (Qopp_le_compat y 0) in Hy. exact Hy. }
    pose proof (round_toward_zero_5_opp y) as Ho.
    rewrite round_toward_zero_5_nonneg in Ho by done.
    destruct (round_down_5_bounds (- y)) as [Hl Hu].
    rewrite Ho in Hl, Hu. split.
    + apply Qopp_le_compat in Hl. rewrite !Qopp_involutive in Hl. exact Hl.
    + apply Qopp_lt_compat in Hu. rewrite Qopp_involutive in Hu.
      eapply Qle_lt_trans; [|exact Hu].
      apply Qle_lteq. right. ring.
Qed.

Lemma cmp_toward_zero e0 e1 : cmp e0 e1 == cmp_by round_toward_zero_5 e0 e1.
Proof.
  unfold cmp, cmp_by.
  pose proof (decimal_mod_round (y (get_baseline e0))) as H0.
  pose proof (decimal_mod_round (y (get_baseline e1))) as H1.
  destruct (Qeq_bool (y (get_baseline e0) - _) _) eqn:He.
  - apply Qeq_bool_iff in He. rewrite H0, H1 in He.
    apply Qeq_bool_iff in He. rewrite He. reflexivity.
  - apply Qeq_bool_neq in He. rewrite H0, H1 in He.
    destruct (Qeq_bool (round_toward_zero_5 _) _) eqn:He'.
    + apply Qeq_bool_iff in He'. done.
    + rewrite H0, H1. reflexivity.
Qed.

(** C7, as the code has it: the comparator brings each baseline y to a
    multiple of 5 by rounding toward zero ([y - y % 5], where the remainder
    of a [Decimal] takes the sign of [y]); on equal rounded values it orders
    by baseline x ascending, otherwise by y descending.  Toward zero is
    down exactly on the non-negative side, so for events with non-negative
    baselines the comparator is the one of the specification.  Events at
    [(10,100)], [(20,100)], [(5,92)] sort to that order from every
    arrangement. *)
Theorem reading_order_comparator :
  (∀ e0 e1, cmp e0 e1 == cmp_by round_toward_zero_5 e0 e1)
  ∧ (∀ y,
       (0 <= y → round_toward_zero_5 y <= y ∧ y < round_toward_zero_5 y + 5)
       ∧ (y <= 0 → y <= round_toward_zero_5 y ∧ round_toward_zero_5 y - 5 < y))
  ∧ (∀ e0 e1,
       0 <= y (get_baseline e0) → 0 <= y (get_baseline e1) →
       cmp e0 e1 == cmp_by round_down_5 e0 e1)
  ∧ (∀ l,
       l ≡ₚ [event_at 10 100; event_at 20 100; event_at 5 92] →
       sorted l = [event_at 10 100; event_at 20 100; event_at 5 92]).
Proof.
  split_and!.
  - apply cmp_toward_zero.
  - apply round_toward_zero_5_bounds.
  - intros e0 e1 H0 H1. rewrite cmp_toward_zero. unfold cmp_by.
    by rewrite !round_toward_zero_5_nonneg.
  - intros l Hl.
    assert (l ∈ permutations [event_at 10 100; event_at 20 100; event_at 5 92])
      as Hin by by apply permutations_Permutation.
    vm_compute permutations in Hin.
    rewrite !elem_of_cons, elem_of_nil in Hin.
    repeat (destruct Hin as [->|Hin]; [vm_compute; reflexivity|]). done.
Qed.

Lemma reading_order_comparator_witness :
  cmp (event_at 10 100) (event_at 5 92)
  == cmp_by round_down_5 (event_at 10 100) (event_at 5 92)
  ∧ sorted [event_at 5 92; event_at 20 100; event_at 10 100]
    = [event_at 10 100; event_at 20 100; event_at 5 92].
Proof.
  destruct reading_order_comparator as (_ & _ & Hd & Hs). split.
  - apply Hd; by vm_compute.
  - apply Hs. symmetry.
    apply (Permutation_rev [event_at 10 100; event_at 20 100; event_at 5 92]).
Defined.

(** C7 as stated fails below zero: for baselines at [(0,-3)] and [(1,3)]
    rounding down separates the two events (-5 and 0), and the higher one
    would come first; the code rounds both to 0 and orders them by x. *)
Lemma reading_order_comparator_counterexample :
  cmp (event_at 0 (-3)) (event_at 1 3) < 0
  ∧ 0 < cmp_by round_down_5 (event_at 0 (-3)) (event_at 1 3)
  ∧ ¬ (∀ e0 e1, cmp e0 e1 == cmp_by round_down_5 e0 e1).
Proof.
  split_and!; [by vm_compute | by vm_compute |].
  intros H. specialize (H (event_at 0 (-3)) (event_at 1 3)).
  vm_compute in H. done.
Qed.

End Comparator_facts.

(** ** The content-stream interpreter *)

Section Canvas_facts.
Import Canvas.
Context {G : Type}.
Variable canvas_operators : gmap string (@CanvasOperator G).
Implicit Types (self : @Canvas G) (operand_stk : list pdf_object).

Lemma pop_operands_underflow n operand_stk operands :
  (length operand_stk < n)%nat →
  pop_operands n operand_stk operands = Raise IndexError.
Proof.
  revert operand_stk operands. induction n as [|n IH]; intros stk ops Hl.
  - lia.
  - destruct stk as [|top stk]; simpl; [done|]. apply IH. simpl in Hl. lia.
Qed.

Lemma pop_operands_enough n operand_stk operands :
  (n ≤ length operand_stk)%nat →
  pop_operands n operand_stk operands
  = Ok (rev (take n operand_stk) ++ operands, drop n operand_stk).
Proof.
  revert operand_stk operands. induction n as [|n IH]; intros stk ops Hl.
  - done.
  - destruct stk as [|top stk]; simpl in *; [lia|].
    rewrite IH by lia. by rewrite <- app_assoc.
Qed.

(** An unknown operator is skipped, in a compatibility section or not. *)
Lemma read_unknown_operator name rest operand_stk self :
  canvas_operators !! name = None →
  read_loop canvas_operators (OperatorName name :: rest) operand_stk self
  = read_loop canvas_operators rest operand_stk self.
Proof. intros H. simpl. by rewrite H. Qed.

(** Outside a compatibility section too few operands fail the assertion. *)
Lemma read_underflow_outside name operator rest operand_stk self :
  canvas_operators !! name = Some operator →
  in_compatibility_section self = false →
  (length operand_stk < number_of_operands operator)%nat →
  read_loop canvas_operators (OperatorName name :: rest) operand_stk self
  = (self, Raise AssertionError).
Proof.
  intros Ho Hc Hl. simpl. rewrite Ho, Hc. simpl.
  by apply Nat.ltb_lt in Hl as ->.
Qed.

(** Inside one the assertion is skipped, and the [pop] of the operand
    loop, which no handler guards, raises instead. *)
Lemma read_underflow_inside name operator rest operand_stk self :
  canvas_operators !! name = Some operator →
  in_compatibility_section self = true →
  (length operand_stk < number_of_operands operator)%nat →
  read_loop canvas_operators (OperatorName name :: rest) operand_stk self
  = (self, Raise IndexError).
Proof.
  intros Ho Hc Hl. simpl. rewrite Ho, Hc. simpl.
  by rewrite pop_operands_underflow.
Qed.

(** An exception of [invoke] is dropped when the canvas it leaves is in a
    compatibility section, and passed on otherwise. *)
Lemma read_operator_exception name operator rest operand_stk self self' e :
  canvas_operators !! name = Some operator →
  (number_of_operands operator ≤ length operand_stk)%nat →
  invoke operator self
    (rev (take (number_of_operands operator) operand_stk)) = (self', Some e) →
  read_loop canvas_operators (OperatorName name :: rest) operand_stk self
  = if in_compatibility_section self'
    then read_loop canvas_operators rest
           (drop (number_of_operands operator) operand_stk) self'
    else (self', Raise e).
Proof.
  intros Ho Hl Hi. simpl. rewrite Ho.
  apply Nat.ltb_ge in Hl as Hl'. rewrite Hl', andb_false_r.
  rewrite pop_operands_enough by done. rewrite app_nil_r, Hi.
  by destruct (in_compatibility_section self').
Qed.

End Canvas_facts.

(** The scenario [BX /Foo bar EX q Q] runs to its end and leaves the
    canvas as it found it. *)
Lemma read_compatibility_scenario :
  Canvas.read Canvas.operators
    [ Canvas.OperatorName "BX"; Canvas.Operand (PName "Foo");
      Canvas.OperatorName "bar"; Canvas.OperatorName "EX";
      Canvas.OperatorName "q"; Canvas.OperatorName "Q" ] Canvas.new
  = (Canvas.new, Ok tt).
Proof. vm_compute. reflexivity. Qed.

(** C5, at the content stream [BX w EX]: [w] takes one operand and finds
    none; the canvas is in a compatibility section, the arity assertion is
    skipped, and [read] ends with the [IndexError] of the operand pop. *)
Theorem read_compatibility_section_underflow :
  Canvas.read Canvas.operators
    [ Canvas.OperatorName "BX"; Canvas.OperatorName "w";
      Canvas.OperatorName "EX" ] Canvas.new
  = (Canvas.set_compatibility true Canvas.new, Raise IndexError).
Proof. vm_compute. reflexivity. Qed.

(** ** Type-1 fonts *)

Section Font_facts.
Import Type1Font.
Variable mac_roman_decode : bytes → result ustr.
Variable mac_roman_encode : ustr → result bytes.
Variable adobe_standard_decode : bytes → result ustr.
Variable adobe_standard_encode : ustr → result bytes.
Variable _read_cmap : pdf_object → result (list (Z * ustr)).
Variable toUnicode : string → ustr.
Variable str_of : pdf_object → string.

Abbreviation cid_to_unicode :=
  (character_identifier_to_unicode mac_roman_decode adobe_standard_decode
     _read_cmap toUnicode str_of).
Abbreviation unicode_to_cid :=
  (unicode_to_character_identifier mac_roman_encode adobe_standard_encode
     _read_cmap toUnicode str_of).

(** C3, at a font with [Encoding = WinAnsiEncoding] and the character
    identifier 65: the forward map gives ["A"], the reverse map gives
    [None] on ["A"], since [int] of the encoded byte [b"A"] raises and the
    handler turns that into [None]. *)
Theorem winansi_round_trip_lost :
  (cid_to_unicode 65 winansi_font).2 = Ok (Some [65%N])
  ∧ (unicode_to_cid [65%N] winansi_font).2 = Ok None.
Proof. split; reflexivity. Qed.

Lemma cid_to_unicode_winansi cid :
  cid_to_unicode cid winansi_font
  = (winansi_font,
     if (cid <? 0) || (256 <? cid) then Ok None
     else let? b := Codec.bytes_of_int cid in
          let? u := Codec.cp1252_decode b in Ok (Some u)).
Proof.
  unfold character_identifier_to_unicode.
  change (PyDict.contains "ToUnicode"%string (entries winansi_font)) with false.
  change (implied_encoding winansi_font) with winansi_font.
  change (PyDict.get "Encoding"%string (entries winansi_font))
    with (Some (PName "WinAnsiEncoding")).
  cbn. by destruct (cid <? 0), (256 <? cid).
Qed.

Lemma unicode_to_cid_winansi u :
  unicode_to_cid u winansi_font
  = (winansi_font,
     or_None (let? b := Codec.cp1252_encode u in Codec.int_of_bytes b)).
Proof.
  unfold unicode_to_character_identifier.
  change (PyDict.contains "ToUnicode"%string (entries winansi_font)) with false.
  change (implied_encoding winansi_font) with winansi_font.
  change (PyDict.get "Encoding"%string (entries winansi_font))
    with (Some (PName "WinAnsiEncoding")).
  reflexivity.
Qed.

Lemma winansi_bytes_checked :
  forallb
    (fun cid =>
       match Codec.cp1252_decode [Z.to_N cid] with
       | Ok u =>
           match or_None (let? b := Codec.cp1252_encode u in Codec.int_of_bytes b) with
           | Ok (Some c) => (48 <=? cid) && (cid <=? 57) && (c =? cid - 48)
           | Ok None => negb ((48 <=? cid) && (cid <=? 57))
           | Raise _ => false
           end
       | Raise _ => true
       end)
    (map Z.of_nat (seq 0 256)) = true.
Proof. vm_compute. reflexivity. Qed.

(** On such a font no character identifier survives the round trip: the
    reverse map answers [None], or the digit value for the ten digits. *)
Lemma winansi_round_trip_never cid u :
  (cid_to_unicode cid winansi_font).2 = Ok (Some u) →
  (unicode_to_cid u winansi_font).2
  = Ok (if (48 <=? cid) && (cid <=? 57) then Some (cid - 48) else None)
  ∧ (unicode_to_cid u winansi_font).2 ≠ Ok (Some cid).
Proof.
  rewrite cid_to_unicode_winansi, unicode_to_cid_winansi. cbn [snd].
  unfold Codec.bytes_of_int.
  destruct (cid <? 0) eqn:H0; [done|].
  destruct (256 <? cid) eqn:H1; [done|]. cbn [orb].
  destruct (0 <=? cid) eqn:H2; [|done].
  destruct (cid <? 256) eqn:H3; [|done]. cbn [andb rbind].
  pose proof winansi_bytes_checked as Hall.
  rewrite forallb_forall in Hall.
  specialize (Hall cid). rewrite <- list_elem_of_In in Hall.
  specialize (Hall ltac:(apply list_elem_of_fmap; exists (Z.to_nat cid);
                          split; [lia | apply elem_of_seq; lia])).
  destruct (Codec.cp1252_decode [Z.to_N cid]) as [u'|]; [|done].
  cbn [rbind]. intros [= <-].
  destruct (or_None _) as [[c|]|]; [| |done].
  - apply andb_prop in Hall as [Hd%Is_true_true_2 Hc%Z.eqb_eq].
    apply Is_true_true_1 in Hd. rewrite Hd, Hc. split; [done|].
    intros [= ?]. lia.
  - apply negb_true_iff in Hall. rewrite Hall. done.
Qed.

(** C4, at a font with [Encoding = WinAnsiEncoding]: the bound check lets
    256 through and [bytes([256])] raises [ValueError]; 129 has no
    character in [cp1252] and the decoder raises [UnicodeDecodeError].
    Neither is caught on the way out. *)
Theorem winansi_lookup_raises :
  (cid_to_unicode 256 winansi_font).2 = Raise ValueError
  ∧ (cid_to_unicode 129 winansi_font).2 = Raise UnicodeDecodeError.
Proof. split; reflexivity. Qed.

Lemma _read_to_unicode_cached self to_unicode cmap_bytes table :
  PyDict.get "ToUnicode"%string (entries self) = Some to_unicode →
  getitem to_unicode "DecodedBytes" = Ok cmap_bytes →
  _read_cmap cmap_bytes = Ok table →
  cmap_cache_ok self table →
  ∃ self',
    _read_to_unicode _read_cmap self = (self', Ok tt)
    ∧ entries self' = entries self
    ∧ _character_identifier_to_unicode_lookup self' = table
    ∧ _unicode_lookup_to_character_identifier self' = PyDict.invert table.
Proof.
  intros Ht Hb Hc Hok. unfold _read_to_unicode.
  destruct (0 <? length _)%nat eqn:Hlen.
  - exists self. destruct Hok as [Hnil|[Hl Hr]].
    + rewrite Hnil in Hlen. done.
    + done.
  - unfold PyDict.contains, PyDict.getitem. rewrite Ht. simpl.
    assert (has_key "DecodedBytes" to_unicode = true) as ->.
    { destruct to_unicode as [| | | | | | | |c d]; try done.
      cbn [has_key getitem] in *.
      unfold PyDict.contains. unfold PyDict.getitem in Hb.
      by destruct (PyDict.get "DecodedBytes"%string d). }
    simpl. rewrite Hb. simpl. rewrite Hc. eexists. split; [done|]. done.
Qed.

(** C6: in a font dictionary with a [ToUnicode] stream whose CMap parses
    to [table], a character identifier is looked up in [table] and
    nowhere else, whatever [Encoding] says; one that is absent from the
    CMap gives [None].  The lookup leaves the dictionary alone and the
    tables read from the CMap. *)
Theorem to_unicode_takes_precedence self cid to_unicode cmap_bytes table :
  PyDict.get "ToUnicode"%string (entries self) = Some to_unicode →
  getitem to_unicode "DecodedBytes" = Ok cmap_bytes →
  _read_cmap cmap_bytes = Ok table →
  cmap_cache_ok self table →
  (cid_to_unicode cid self).2 = Ok (PyDict.get cid table)
  ∧ (PyDict.get cid table = None → (cid_to_unicode cid self).2 = Ok None)
  ∧ entries (cid_to_unicode cid self).1 = entries self
  ∧ cmap_cache_ok (cid_to_unicode cid self).1 table.
Proof.
  intros Ht Hb Hc Hok.
  destruct (_read_to_unicode_cached _ _ _ _ Ht Hb Hc Hok)
    as (self' & Hr & He & Hl & Hi).
  assert (cid_to_unicode cid self = (self', Ok (PyDict.get cid table))) as Heq.
  { unfold character_identifier_to_unicode, PyDict.contains.
    rewrite Ht, Hr. simpl. by rewrite Hl. }
  rewrite Heq. simpl. split_and!; [done | by intros -> | done | by right].
Qed.

(** C10: on a font dictionary without [ToUnicode] and without [Encoding],
    either lookup stores [Encoding = Name("StandardEncoding")] in the
    dictionary, whatever it then returns or raises, and changes no other
    entry. *)
Theorem implied_encoding_is_stored self cid unicode :
  PyDict.contains "ToUnicode"%string (entries self) = false →
  PyDict.contains "Encoding"%string (entries self) = false →
  ∀ self',
    self' = (cid_to_unicode cid self).1 ∨ self' = (unicode_to_cid unicode self).1 →
    entries self'
    = PyDict.set "Encoding"%string (PName "StandardEncoding") (entries self)
    ∧ PyDict.get "Encoding"%string (entries self')
      = Some (PName "StandardEncoding")
    ∧ (∀ k, k ≠ "Encoding"%string →
            PyDict.get k (entries self') = PyDict.get k (entries self)).
Proof.
  intros Ht He self' Hs.
  assert (entries self'
          = PyDict.set "Encoding"%string (PName "StandardEncoding") (entries self))
    as Hent.
  { destruct Hs as [-> | ->].
    - unfold character_identifier_to_unicode, implied_encoding.
      rewrite Ht, He. cbn [entries with_entries]. rewrite get_set_eq.
      cbn. destruct (cid <? 0); [done|]. destruct (256 <? cid); done.
    - unfold unicode_to_character_identifier, implied_encoding.
      rewrite Ht, He. cbn [entries with_entries]. rewrite get_set_eq.
      cbn. done. }
  rewrite Hent. split_and!; [done | apply get_set_eq |].
  intros k Hk. by apply get_set_ne.
Qed.

End Font_facts.

Lemma to_unicode_takes_precedence_witness :
  (Type1Font.character_identifier_to_unicode no_decode no_decode cmap_B
     no_glyph text_of 65 (to_unicode_font [])).2 = Ok None
  ∧ (Type1Font.character_identifier_to_unicode no_decode no_decode cmap_B
       no_glyph text_of 65 winansi_font).2 = Ok (Some [65%N]).
Proof.
  split; [|reflexivity].
  apply (to_unicode_takes_precedence no_decode no_decode cmap_B
           no_glyph text_of (to_unicode_font []) 65
           (PDict ClsStream [("DecodedBytes"%string, PBytes [])]) (PBytes [])
           [(66, [66%N])]);
    [reflexivity | reflexivity | reflexivity | left; reflexivity | reflexivity].
Defined.

Lemma implied_encoding_is_stored_witness :
  Type1Font.entries
    (Type1Font.character_identifier_to_unicode no_decode no_decode cmap_B
       no_glyph text_of 300 Type1Font.new).1
  = [("Type", PName "Font"); ("Subtype", PName "Type1");
     ("Encoding", PName "StandardEncoding")]%string.
Proof.
  destruct (implied_encoding_is_stored no_decode no_encode no_decode no_encode
              cmap_B no_glyph text_of Type1Font.new 300 [] eq_refl eq_refl
              (Type1Font.character_identifier_to_unicode no_decode no_decode
                 cmap_B no_glyph text_of 300 Type1Font.new).1
              (or_introl eq_refl))
    as [H _].
  exact H.
Defined.

(** ** The reference registry of the write pass *)

Section Registry_facts.
Import WriteBaseTransformer.
Context {V : Type}.
Variable equals : V → V → bool.
Variable hash : V → option Z.
Hypothesis equals_sym : ∀ a b, equals a b = true → equals b a = true.
Hypothesis equals_trans :
  ∀ a b c, equals a b = true → equals b c = true → equals a c = true.
Hypothesis hash_equals : ∀ a b, equals a b = true → hash a = hash b.

Implicit Types (heap : gmap positive (@py_object V)) (R : gset positive).
Implicit Types (context : WriteTransformerContext) (o this : @py_object V).

Lemma find_equal_Some heap v bucket z :
  find_equal equals heap v bucket = Ok (Some z) →
  z ∈ bucket ∧ ∃ o, heap !! z = Some o ∧ equals (value o) v = true.
Proof.
  induction bucket as [|p bucket IH]; simpl; [done|].
  unfold deref. destruct (heap !! p) as [o|] eqn:Hp; simpl; [|done].
  destruct (equals (value o) v) eqn:He.
  - intros [= <-]. split; [left | eauto].
  - intros [Hin Ho]%IH. split; [by right | done].
Qed.

Lemma find_equal_None heap v bucket z :
  find_equal equals heap v bucket = Ok None →
  z ∈ bucket → ∃ o, heap !! z = Some o ∧ equals (value o) v = false.
Proof.
  induction bucket as [|p bucket IH]; simpl; [by intros _ ?%elem_of_nil|].
  unfold deref. destruct (heap !! p) as [o|] eqn:Hp; simpl; [|done].
  destruct (equals (value o) v) eqn:He; [done|].
  intros Hf [->|Hin]%elem_of_cons; [eauto | by apply IH].
Qed.


Lemma set_reference_Ok o ref o' :
  set_reference o ref = Ok o' → value o' = value o ∧ reference o' = Some ref.
Proof.
  unfold set_reference. destruct (reference o) as [r|].
  - destruct (object_number r =? object_number ref)%nat; [|done].
    by intros [= <-].
  - by intros [= <-].
Qed.

Lemma number_of_insert_ne heap p q o :
  p ≠ q → number_of (<[p := o]> heap) q = number_of heap q.
Proof. intros Hne. unfold number_of. by rewrite lookup_insert_ne. Qed.

Lemma number_of_Some heap p o r :
  heap !! p = Some o → reference o = Some r →
  number_of heap p = Some (object_number r).
Proof. intros Hp Hr. unfold number_of. rewrite Hp. simpl. by rewrite Hr. Qed.

(** An object of the hash registry is in the id registry. *)
Lemma not_cached_not_in_bucket R heap context object h bucket :
  registry_inv equals hash R (heap, context) →
  indirect_objects_by_id context !! object = None →
  indirect_objects_by_hash context !! h = Some bucket →
  object ∉ bucket.
Proof.
  intros Hinv Hid Hb Hin.
  destruct (inv_bucket _ _ _ _ Hinv h bucket object Hb Hin) as (_ & Hc & _).
  simpl in Hc. congruence.
Qed.

(** No registered object equals one for which the search through its
    bucket came back empty. *)
Lemma no_equal_registered R heap context this h q oq :
  registry_inv equals hash R (heap, context) →
  hash (value this) = Some h →
  (∀ bucket z,
      indirect_objects_by_hash context !! h = Some bucket → z ∈ bucket →
      ∃ o, heap !! z = Some o ∧ equals (value o) (value this) = false) →
  q ∈ R → heap !! q = Some oq →
  equals (value oq) (value this) = true →
  False.
Proof.
  intros Hinv Hh Hnone Hq Hoq He.
  destruct (inv_registered _ _ _ _ Hinv q Hq)
    as (o & r & m & om & rm & h' & bucket & Ho & Hr & Hb & Hm & Hom & Hrm & Hn & Hrep).
  simpl in *. rewrite Hoq in Ho. injection Ho as <-.
  assert (equals (value om) (value this) = true) as Hmt.
  { destruct Hrep as [-> | Hrep].
    - rewrite Hoq in Hom. by injection Hom as <-.
    - by eapply equals_trans. }
  destruct (inv_bucket _ _ _ _ Hinv h' bucket m Hb Hm)
    as (_ & _ & om' & rm' & Hom' & Hhm & _).
  simpl in *. rewrite Hom in Hom'. injection Hom' as <-.
  apply hash_equals in Hmt as Hhash. rewrite Hhm, Hh in Hhash.
  injection Hhash as ->.
  destruct (Hnone bucket m Hb Hm) as (om'' & Hom'' & Hf).
  rewrite Hom in Hom''. injection Hom'' as <-. congruence.
Qed.


(** The object takes over the reference of an equal entry [z]. *)
Lemma adopt_inv R heap context object this h bucket z obj ref this' :
  registry_inv equals hash R (heap, context) →
  indirect_objects_by_id context !! object = None →
  heap !! object = Some this →
  hash (value this) = Some h →
  indirect_objects_by_hash context !! h = Some bucket →
  z ∈ bucket → heap !! z = Some obj →
  equals (value obj) (value this) = true →
  reference obj = Some ref →
  set_reference this ref = Ok this' →
  registry_inv equals hash ({[object]} ∪ R) (<[object := this']> heap, context).
Proof.
  intros Hinv Hid Hthis Hh Hb Hz Hobj He Href Hset.
  apply set_reference_Ok in Hset as [Hv Hr].
  assert (∀ h' b', indirect_objects_by_hash context !! h' = Some b' →
                   object ∉ b') as Hnb
    by (intros; by eapply not_cached_not_in_bucket).
  assert (z ≠ object) as Hzo by (intros ->; by eapply Hnb).
  destruct (inv_bucket _ _ _ _ Hinv h bucket z Hb Hz) as (HzR & _ & _).
  assert (number_of heap z = Some (object_number ref)) as Hnz
    by by eapply number_of_Some.
  split; simpl.
  - intros h' b' p Hb' Hp.
    destruct (inv_bucket _ _ _ _ Hinv h' b' p Hb' Hp)
      as (HpR & Hc & o & r & Ho & Hho & Hro).
    assert (p ≠ object) by (intros ->; by eapply Hnb).
    split_and!; [set_solver | done |].
    exists o, r. by rewrite lookup_insert_ne.
  - intros p q Hpq.
    destruct (inv_by_id _ _ _ _ Hinv p q Hpq)
      as (-> & o & h' & b' & Ho & Hho & Hb' & Hp).
    split; [done|]. assert (p ≠ object) by (simpl in *; congruence).
    exists o, h', b'. by rewrite lookup_insert_ne.
  - intros p Hp. destruct (decide (p = object)) as [-> | Hne].
    + exists this', ref, z, obj, ref, h, bucket.
      rewrite lookup_insert_eq, lookup_insert_ne by done.
      split_and!; try done. right. by rewrite Hv.
    + assert (p ∈ R) as HpR by set_solver.
      destruct (inv_registered _ _ _ _ Hinv p HpR)
        as (o & r & m & om & rm & h' & b' & Ho & Hro & Hb' & Hm & Hom & Hrm & Hn & Hrep).
      assert (m ≠ object) by (intros ->; by eapply Hnb).
      exists o, r, m, om, rm, h', b'. simpl in *.
      by rewrite !lookup_insert_ne by done.
  - intros p q op oq Hp Hq Hop Hoq Hpq.
    destruct (decide (p = object)) as [-> | Hp'];
      destruct (decide (q = object)) as [-> | Hq']; [done | | |].
    + rewrite lookup_insert_eq in Hop. injection Hop as <-.
      rewrite lookup_insert_ne in Hoq by done.
      rewrite (number_of_insert_ne _ _ q) by done.
      rewrite (number_of_Some _ object this' ref) by (by rewrite ?lookup_insert_eq).
      rewrite <- Hnz. rewrite Hv in Hpq.
      apply (inv_dedup _ _ _ _ Hinv z q obj oq); simpl; try done; [set_solver|].
      by eapply equals_trans.
    + rewrite lookup_insert_eq in Hoq. injection Hoq as <-.
      rewrite lookup_insert_ne in Hop by done.
      rewrite (number_of_insert_ne _ _ p) by done.
      rewrite (number_of_Some _ object this' ref) by (by rewrite ?lookup_insert_eq).
      rewrite <- Hnz. rewrite Hv in Hpq.
      apply (inv_dedup _ _ _ _ Hinv p z op obj); simpl; try done; [set_solver|].
      eapply equals_trans; [exact Hpq|]. by apply equals_sym.
    + rewrite lookup_insert_ne in Hop, Hoq by done.
      rewrite !number_of_insert_ne by done.
      apply (inv_dedup _ _ _ _ Hinv p q op oq); simpl; try done; set_solver.
Qed.

(** The object gets a number of its own and enters both registries. *)
Lemma mint_inv R heap context object this h ref this' :
  registry_inv equals hash R (heap, context) →
  indirect_objects_by_id context !! object = None →
  heap !! object = Some this →
  hash (value this) = Some h →
  (∀ bucket z,
      indirect_objects_by_hash context !! h = Some bucket → z ∈ bucket →
      ∃ o, heap !! z = Some o ∧ equals (value o) (value this) = false) →
  set_reference this ref = Ok this' →
  registry_inv equals hash ({[object]} ∪ R)
    (<[object := this']> heap,
     {| indirect_objects_by_id :=
          <[object := object]> (indirect_objects_by_id context);
        indirect_objects_by_hash :=
          <[h := match indirect_objects_by_hash context !! h with
                 | Some bucket => bucket ++ [object]
                 | None => [object]
                 end]> (indirect_objects_by_hash context) |}).
Proof.
  intros Hinv Hid Hthis Hh Hnone Hset.
  apply set_reference_Ok in Hset as [Hv Hr].
  assert (∀ h' b', indirect_objects_by_hash context !! h' = Some b' →
                   object ∉ b') as Hnb
    by (intros; by eapply not_cached_not_in_bucket).
  assert (∀ q oq, q ∈ R → heap !! q = Some oq →
                  equals (value oq) (value this) = true → False) as Hfresh
    by (intros; by eapply no_equal_registered).
  (* membership in a bucket of the new hash registry *)
  assert (∀ h' b' p,
    <[h := match indirect_objects_by_hash context !! h with
           | Some bucket => bucket ++ [object]
           | None => [object]
           end]> (indirect_objects_by_hash context) !! h' = Some b' →
    p ∈ b' →
    (p = object ∧ h' = h)
    ∨ (p ≠ object ∧ ∃ b, indirect_objects_by_hash context !! h' = Some b ∧ p ∈ b))
    as Hnew.
  { intros h' b' p Hb' Hp. destruct (decide (h = h')) as [<- | Hne].
    - rewrite lookup_insert_eq in Hb'. injection Hb' as <-.
      destruct (indirect_objects_by_hash context !! h) as [b|] eqn:Hb.
      + apply elem_of_app in Hp as [Hp | Hp%list_elem_of_singleton].
        * right. split; [intros ->; by eapply Hnb | eauto].
        * by left.
      + apply list_elem_of_singleton in Hp. by left.
    - rewrite lookup_insert_ne in Hb' by done.
      right. split; [intros ->; by eapply Hnb | eauto]. }
  (* an old bucket is part of the new one *)
  assert (∀ h' b p,
    indirect_objects_by_hash context !! h' = Some b → p ∈ b →
    ∃ b',
      <[h := match indirect_objects_by_hash context !! h with
             | Some bucket => bucket ++ [object]
             | None => [object]
             end]> (indirect_objects_by_hash context) !! h' = Some b'
      ∧ p ∈ b') as Hold.
  { intros h' b p Hb Hp. destruct (decide (h = h')) as [<- | Hne].
    - rewrite lookup_insert_eq, Hb. eexists. split; [done|].
      apply elem_of_app. by left.
    - rewrite lookup_insert_ne by done. eauto. }
  split; simpl.
  - intros h' b' p Hb' Hp.
    destruct (Hnew h' b' p Hb' Hp) as [[-> ->] | (Hne & b & Hb & Hpb)].
    + split_and!; [set_solver | by rewrite lookup_insert_eq |].
      exists this', ref. rewrite lookup_insert_eq, Hv. done.
    + destruct (inv_bucket _ _ _ _ Hinv h' b p Hb Hpb)
        as (HpR & Hc & o & r & Ho & Hho & Hro).
      simpl in *. split_and!; [set_solver | by rewrite lookup_insert_ne |].
      exists o, r. by rewrite lookup_insert_ne.
  - intros p q Hpq. destruct (decide (p = object)) as [-> | Hne].
    + rewrite lookup_insert_eq in Hpq. injection Hpq as <-. split; [done|].
      exists this', h. rewrite !lookup_insert_eq, Hv. eexists.
      split_and!; try done.
      destruct (indirect_objects_by_hash context !! h).
      * apply elem_of_app. right. by apply list_elem_of_singleton.
      * by apply list_elem_of_singleton.
    + rewrite lookup_insert_ne in Hpq by done.
      destruct (inv_by_id _ _ _ _ Hinv p q Hpq)
        as (-> & o & h' & b & Ho & Hho & Hb & Hp).
      split; [done|]. simpl in *.
      destruct (Hold h' b p Hb Hp) as (b' & Hb' & Hp').
      exists o, h', b'. by rewrite (lookup_insert_ne heap).
  - intros p Hp. destruct (decide (p = object)) as [-> | Hne].
    + exists this', ref, object, this', ref, h. rewrite !lookup_insert_eq.
      eexists. split_and!; try done; [|by left].
      destruct (indirect_objects_by_hash context !! h).
      * apply elem_of_app. right. by apply list_elem_of_singleton.
      * by apply list_elem_of_singleton.
    + assert (p ∈ R) as HpR by set_solver.
      destruct (inv_registered _ _ _ _ Hinv p HpR)
        as (o & r & m & om & rm & h' & b & Ho & Hro & Hb & Hm & Hom & Hrm & Hn & Hrep).
      simpl in *. assert (m ≠ object) by (intros ->; by eapply Hnb).
      destruct (Hold h' b m Hb Hm) as (b' & Hb' & Hm').
      exists o, r, m, om, rm, h', b'.
      by rewrite !(lookup_insert_ne heap) by done.
  - intros p q op oq Hp Hq Hop Hoq Hpq.
    destruct (decide (p = object)) as [-> | Hp'];
      destruct (decide (q = object)) as [-> | Hq']; [done | | |].
    + exfalso. rewrite lookup_insert_eq in Hop. injection Hop as <-.
      rewrite lookup_insert_ne in Hoq by done. rewrite Hv in Hpq.
      apply (Hfresh q oq); [set_solver | done | by apply equals_sym].
    + exfalso. rewrite lookup_insert_eq in Hoq. injection Hoq as <-.
      rewrite lookup_insert_ne in Hop by done. rewrite Hv in Hpq.
      apply (Hfresh p op); [set_solver | done | done].
    + rewrite lookup_insert_ne in Hop, Hoq by done.
      rewrite !number_of_insert_ne by done.
      apply (inv_dedup _ _ _ _ Hinv p q op oq); simpl; try done; set_solver.
Qed.

Lemma get_reference_inv R heap context object r σ' :
  registry_inv equals hash R (heap, context) →
  get_reference equals hash object (heap, context) = Ok (r, σ') →
  registry_inv equals hash ({[object]} ∪ R) σ'
  ∧ (∀ q o, heap !! q = Some o →
            ∃ o', σ'.1 !! q = Some o' ∧ value o' = value o)
  ∧ (∃ o', σ'.1 !! object = Some o' ∧ reference o' = r ∧ is_Some r).
Proof.
  intros Hinv. unfold get_reference.
  destruct (indirect_objects_by_id context !! object) as [cached|] eqn:Hid.
  - destruct (inv_by_id _ _ _ _ Hinv object cached Hid)
      as (-> & o & h & b & Ho & Hh & Hb & Hin).
    destruct (inv_bucket _ _ _ _ Hinv h b object Hb Hin)
      as (HR & _ & o' & r' & Ho' & _ & Hr').
    unfold deref. simpl in *. rewrite Ho. simpl. intros [= <- <-].
    rewrite Ho in Ho'. injection Ho' as <-.
    replace ({[object]} ∪ R) with R by set_solver.
    split_and!; [done | eauto |]. exists o. by rewrite Hr'.
  - unfold deref. destruct (heap !! object) as [this|] eqn:Hthis; simpl; [|done].
    unfold _hash. destruct (hash (value this)) as [h|] eqn:Hh; simpl; [|done].
    destruct (match indirect_objects_by_hash context !! h with
              | Some bucket => find_equal equals heap (value this) bucket
              | None => Ok None
              end) as [found|] eqn:Hfound; simpl; [|done].
    destruct found as [z|].
    + destruct (indirect_objects_by_hash context !! h) as [bucket|] eqn:Hb;
        [|done].
      apply find_equal_Some in Hfound as (Hz & obj & Hobj & He).
      rewrite Hobj. simpl. destruct (reference obj) as [ref|] eqn:Href; [|done].
      destruct (set_reference this ref) as [this'|] eqn:Hset; simpl; [|done].
      intros [= <- <-]. split_and!.
      * by eapply adopt_inv.
      * intros q o Hq. simpl. destruct (decide (q = object)) as [-> | Hne].
        -- exists this'. rewrite lookup_insert_eq. split; [done|].
           apply set_reference_Ok in Hset as [-> _]. congruence.
        -- exists o. by rewrite lookup_insert_ne.
      * exists this'. simpl. rewrite lookup_insert_eq.
        apply set_reference_Ok in Hset as [_ ->]. eauto.
    + destruct (existing_obj_numbers heap context) as [existing|]; simpl; [|done].
      destruct (set_reference this _) as [this'|] eqn:Hset; simpl; [|done].
      intros [= <- <-]. split_and!.
      * eapply mint_inv; try done.
        intros bucket z Hb Hz. rewrite Hb in Hfound.
        by eapply find_equal_None.
      * intros q o Hq. simpl. destruct (decide (q = object)) as [-> | Hne].
        -- exists this'. rewrite lookup_insert_eq. split; [done|].
           apply set_reference_Ok in Hset as [-> _]. congruence.
        -- exists o. by rewrite lookup_insert_ne.
      * exists this'. simpl. rewrite lookup_insert_eq.
        apply set_reference_Ok in Hset as [_ ->]. eauto.
Qed.

Lemma registry_inv_fresh heap :
  registry_inv equals hash ∅ (heap, fresh_context).
Proof. split; simpl; intros; by simplify_map_eq || set_solver. Qed.

Lemma register_all_inv objects R σ σ' :
  registry_inv equals hash R σ →
  register_all equals hash objects σ = Ok σ' →
  registry_inv equals hash (list_to_set objects ∪ R) σ'
  ∧ (∀ q o, σ.1 !! q = Some o →
            ∃ o', σ'.1 !! q = Some o' ∧ value o' = value o).
Proof.
  revert R σ. induction objects as [|object objects IH]; intros R σ Hinv; simpl.
  - intros [= <-]. replace (∅ ∪ R) with R by set_solver. eauto.
  - destruct σ as [heap context].
    destruct (get_reference equals hash object (heap, context))
      as [[r σ1]|] eqn:Hg; simpl; [|done].
    intros Hrest.
    destruct (get_reference_inv _ _ _ _ _ _ Hinv Hg) as (Hinv1 & Hval1 & _).
    destruct (IH _ _ Hinv1 Hrest) as (Hinv' & Hval').
    split.
    + replace ({[object]} ∪ list_to_set objects ∪ R)
        with (list_to_set objects ∪ ({[object]} ∪ R)) by set_solver. done.
    + intros q o Hq. destruct (Hval1 q o Hq) as (o1 & Ho1 & Hv1).
      destruct (Hval' q o1 Ho1) as (o' & Ho' & Hv'). exists o'.
      split; [done | congruence].
Qed.


(** *** The pass does not get stuck *)

Lemma numbers_of_total heap items :
  (∀ p, p ∈ items → ∃ o r, heap !! p = Some o ∧ reference o = Some r) →
  ∃ s, numbers_of heap items = Ok s.
Proof.
  induction items as [|p items IH]; simpl; intros Hall; [eauto|].
  destruct IH as [s ->]; [intros q Hq; apply Hall; by right|]. simpl.
  destruct (Hall p) as (o & r & Ho & Hr); [left|].
  unfold deref. rewrite Ho. simpl. rewrite Hr. eauto.
Qed.

Lemma existing_obj_numbers_total R heap context :
  registry_inv equals hash R (heap, context) →
  ∃ s, existing_obj_numbers heap context = Ok s.
Proof.
  intros Hinv. apply numbers_of_total. intros p Hp.
  apply list_elem_of_In, in_concat in Hp as (bucket & Hb & Hp).
  apply in_map_iff in Hb as ([h b] & <- & Hb).
  apply list_elem_of_In, elem_of_map_to_list in Hb.
  apply list_elem_of_In in Hp.
  destruct (inv_bucket _ _ _ _ Hinv h b p Hb Hp) as (_ & _ & o & r & Ho & _ & Hr).
  eauto.
Qed.





End Registry_facts.

(** The number minted is not one in use: fewer than [fuel] numbers of the
    set lie at or above the candidate, so the search stops at a free one. *)
Lemma next_free_not_in fuel (existing : gset nat) n :
  (size (filter (fun x => n ≤ x)%nat existing) < fuel)%nat →
  WriteBaseTransformer.next_free fuel existing n ∉ existing.
Proof.
  revert n. induction fuel as [|fuel IH]; intros n Hsize; [lia|]. simpl.
  destruct (decide (n ∈ existing)) as [Hin | Hnin]; [|done].
  apply IH.
  assert (filter (fun x => S n ≤ x)%nat existing
          ⊂ filter (fun x => n ≤ x)%nat existing) as Hsub.
  { apply strict_spec_alt. split.
    - intros x [Hx Hxin]%elem_of_filter. apply elem_of_filter. split; [lia | done].
    - intros Heq. assert (n ∈ filter (fun x => S n ≤ x)%nat existing) as Hn.
      { rewrite Heq. apply elem_of_filter. split; [lia | done]. }
      apply elem_of_filter in Hn as [Hn _]. lia. }
  apply subset_size in Hsub. lia.
Qed.

Lemma minted_number_fresh (existing : gset nat) :
  WriteBaseTransformer.next_free (S (size existing)) existing (size existing + 1)
  ∉ existing.
Proof.
  apply next_free_not_in.
  assert (size (filter (fun x => size existing + 1 ≤ x)%nat existing)
          ≤ size existing)%nat; [|lia].
  apply subseteq_size. intros x [_ Hx]%elem_of_filter. done.
Qed.

(** ** Reference dedup on PDF values *)

Lemma equals_eq a b : equals a b = true ↔ a = b.
Proof. unfold equals. by destruct (pdf_object_eq_dec a b). Qed.

Lemma equals_sym a b : equals a b = true → equals b a = true.
Proof. rewrite !equals_eq. done. Qed.

Lemma equals_trans a b c :
  equals a b = true → equals b c = true → equals a c = true.
Proof. rewrite !equals_eq. congruence. Qed.

Lemma hash_equals (hash : pdf_object → option Z) a b :
  equals a b = true → hash a = hash b.
Proof. rewrite equals_eq. by intros ->. Qed.

Section Dedup.
Import WriteBaseTransformer.
Variable hash : pdf_object → option Z.



End Dedup.


(** ** More on the catalog transformer *)

Section PyDict_more.
Context {K V : Type} `{EqDecision K}.
Implicit Types (k : K) (v : V) (d : list (K * V)).

Lemma set_same k v d : PyDict.get k d = Some v → PyDict.set k v d = d.
Proof.
  induction d as [|[k' v'] d IH]; simpl; [done|].
  destruct (decide (k = k')) as [->|Hne].
  - by intros [= ->].
  - intros Hg. by rewrite IH.
Qed.

Lemma set_set_eq k v v' d : PyDict.set k v (PyDict.set k v' d) = PyDict.set k v d.
Proof.
  induction d as [|[k0 v0] d IH]; simpl.
  - by rewrite decide_True.
  - destruct (decide (k = k0)) as [->|Hne]; simpl.
    + by rewrite decide_True.
    + rewrite decide_False by done. by rewrite IH.
Qed.

Lemma set_keys_present k v v0 d :
  PyDict.get k d = Some v0 → (PyDict.set k v d).*1 = d.*1.
Proof.
  induction d as [|[k' v'] d IH]; simpl; [done|].
  destruct (decide (k = k')) as [->|Hne]; simpl; [done|].
  intros Hg. f_equal. by apply IH.
Qed.

Lemma get_elem_of k v d : PyDict.get k d = Some v → (k, v) ∈ d.
Proof.
  induction d as [|[k' v'] d IH]; simpl; [done|].
  destruct (decide (k = k')) as [->|Hne].
  - intros [= ->]. left.
  - intros Hg. right. by apply IH.
Qed.
End PyDict_more.

Section Catalog_more.
Import ReadRootDictionaryTransformer.

Lemma weight_elem k kids : k ∈ kids → (weight k ≤ weights kids)%nat.
Proof.
  unfold weights. induction kids as [|k' kids IH]; [by intros ?%elem_of_nil|].
  intros [->|Hin]%elem_of_cons; simpl; [lia|]. specialize (IH Hin). lia.
Qed.

Lemma length_le_weights l : (length l ≤ weights l)%nat.
Proof.
  unfold weights. induction l as [|o l IH]; simpl; [done|].
  pose proof (weight_pos o). lia.
Qed.

Lemma flat_map_ext_in {A B} (f g : A → list B) l :
  (∀ a, a ∈ l → f a = g a) → flat_map f l = flat_map g l.
Proof.
  induction l as [|a l IH]; intros Hfg; simpl; [done|].
  rewrite Hfg by left. rewrite IH; [done|]. intros b Hb. apply Hfg. by right.
Qed.

Lemma pages_below_fuel f1 f2 obj :
  (weight obj ≤ f1)%nat → (weight obj ≤ f2)%nat →
  pages_below f1 obj = pages_below f2 obj.
Proof.
  revert f2 obj. induction f1 as [|f1 IH]; intros f2 obj H1 H2.
  - pose proof (weight_pos obj). lia.
  - destruct f2 as [|f2]; [pose proof (weight_pos obj); lia|]. simpl.
    f_equal. destruct (pages_kids obj) as [kids|] eqn:Hk; [|done].
    apply pages_kids_weight in Hk. apply flat_map_ext_in. intros k Hin.
    apply weight_elem in Hin. apply IH; lia.
Qed.

Lemma pages_of_unfold obj :
  pages_of obj
  = (if is_Page obj then [obj] else [])
    ++ match pages_kids obj with
       | Some kids => flat_map pages_of kids
       | None => []
       end.
Proof.
  unfold pages_of. pose proof (weight_pos obj) as Hw.
  destruct (weight obj) as [|m] eqn:Hm; [lia|]. simpl. f_equal.
  destruct (pages_kids obj) as [kids|] eqn:Hk; [|done].
  apply pages_kids_weight in Hk. apply flat_map_ext_in. intros k Hin.
  apply weight_elem in Hin. apply pages_below_fuel; lia.
Qed.

Lemma explore_preorder_total fuel stack pages :
  (weights stack ≤ fuel)%nat → ∃ ps, explore_preorder fuel stack pages = Some ps.
Proof.
  revert stack pages. induction fuel as [|fuel IH]; intros stack pages Hw.
  - destruct stack as [|obj stack]; simpl; [eauto|].
    pose proof (weight_pos obj). unfold weights in Hw. simpl in Hw. lia.
  - destruct stack as [|obj stack]; simpl; [eauto|].
    apply IH. unfold weights in Hw. simpl in Hw. fold (weights stack) in Hw.
    destruct (pages_kids obj) as [kids|] eqn:Hk.
    + apply pages_kids_weight in Hk. rewrite weights_app. lia.
    + pose proof (weight_pos obj). lia.
Qed.

(** The depth-first walk lists the pages in preorder. *)
Lemma explore_preorder_pages fuel stack pages r :
  explore_preorder fuel stack pages = Some r →
  r = pages ++ flat_map pages_of stack.
Proof.
  revert stack pages. induction fuel as [|fuel IH]; intros stack pages.
  - destruct stack; simpl; [|done]. intros [= <-]. by rewrite app_nil_r.
  - destruct stack as [|obj stack]; simpl.
    { intros [= <-]. by rewrite app_nil_r. }
    intros He. apply IH in He. rewrite He, (pages_of_unfold obj).
    destruct (is_Page obj), (pages_kids obj) as [kids|];
      rewrite ?flat_map_app, ?app_nil_r; simpl;
      by rewrite <- ?app_assoc.
Qed.

(** The walk of the transformer lists the same pages, in another order. *)
Lemma explore_pages fuel stack pages r :
  explore fuel stack pages = Some r →
  r ≡ₚ pages ++ flat_map pages_of stack.
Proof.
  revert stack pages. induction fuel as [|fuel IH]; intros stack pages.
  - destruct stack; simpl; [|done]. intros [= <-]. by rewrite app_nil_r.
  - destruct stack as [|obj stack]; simpl.
    { intros [= <-]. by rewrite app_nil_r. }
    intros He. apply IH in He. rewrite He, (pages_of_unfold obj).
    destruct (is_Page obj), (pages_kids obj) as [kids|];
      rewrite ?flat_map_app, ?app_nil_r; simpl; rewrite <- ?app_assoc; simpl.
    + f_equiv. f_equiv. apply Permutation_app_comm.
    + done.
    + f_equiv. apply Permutation_app_comm.
    + done.
Qed.

(** X1: the flat page list holds the [Page] objects of the tree under
    [Pages], each as often as the tree holds it: it is a rearrangement of
    the depth-first preorder list, of the same length. *)
Theorem pages_in_order_rearranges_preorder pages :
  ∃ r,
    explore_preorder (weight pages) [pages] [] = Some r
    ∧ pages_in_order pages ≡ₚ r
    ∧ length (pages_in_order pages) = length r.
Proof.
  destruct (explore_preorder_total (weight pages) [pages] []) as [r Hr].
  { unfold weights. simpl. lia. }
  exists r. split; [done|].
  assert (pages_in_order pages ≡ₚ r) as Hp.
  { pose proof (explore_pages _ _ _ _ (pages_in_order_explore pages)) as H1.
    apply explore_preorder_pages in Hr. rewrite H1, Hr. done. }
  split; [done | by rewrite Hp].
Qed.

(** A worklist of nodes without kids is emptied in order. *)
Lemma explore_leaves fuel stack acc :
  Forall (fun o => pages_kids o = None) stack →
  (length stack ≤ fuel)%nat →
  explore fuel stack acc = Some (acc ++ List.filter is_Page stack).
Proof.
  revert fuel acc. induction stack as [|obj stack IH]; intros fuel acc Hl Hf.
  - destruct fuel; simpl; by rewrite app_nil_r.
  - destruct fuel as [|fuel]; simpl in *; [lia|].
    apply Forall_cons in Hl as [Ho Hl]. rewrite Ho, IH by (done || lia).
    destruct (is_Page obj); [by rewrite <- app_assoc | done].
Qed.

Lemma filter_all_pages l :
  Forall (fun p => is_Page p = true) l → List.filter is_Page l = l.
Proof.
  induction 1 as [|p l Hp _ IH]; simpl; [done|]. by rewrite Hp, IH.
Qed.

Lemma pages_in_order_only_pages pages :
  Forall (fun p => is_Page p = true) (pages_in_order pages).
Proof.
  eapply explore_only_pages; [apply pages_in_order_explore | constructor].
Qed.

Lemma pages_in_order_flat pages ps :
  is_Page pages = false →
  pages_kids pages = Some ps →
  Forall (fun p => pages_kids p = None) ps →
  Forall (fun p => is_Page p = true) ps →
  pages_in_order pages = ps.
Proof.
  intros Hnp Hk Hleaf Hpage. unfold pages_in_order.
  pose proof (pages_kids_weight _ _ Hk) as Hw.
  pose proof (length_le_weights ps).
  destruct (weight pages) as [|m] eqn:Hm; [lia|]. simpl.
  rewrite Hnp, Hk. simpl. rewrite explore_leaves by (done || lia).
  simpl. by rewrite filter_all_pages.
Qed.

Lemma pages_in_order_childless pages :
  is_Page pages = false → pages_kids pages = None → pages_in_order pages = [].
Proof.
  intros Hnp Hk. unfold pages_in_order. pose proof (weight_pos pages).
  destruct (weight pages) as [|m] eqn:Hm; [lia|]. simpl.
  rewrite Hnp, Hk. by destruct m.
Qed.

(** X2: on a catalog whose collected pages have no kids of their own, a
    second pass changes nothing: the transformer is idempotent.  (The
    [Pages] entry itself must not be a [Page] object.) *)
Theorem rebuild_pages_idempotent root root' pages :
  rebuild_pages root = Ok root' →
  getitem root "Pages" = Ok pages →
  is_Page pages = false →
  Forall (fun p => pages_kids p = None) (pages_in_order pages) →
  rebuild_pages root' = Ok root'.
Proof.
  intros Hr Hp Hnp Hleaf.
  destruct root as [| | | | | | | |c d]; try done.
  destruct pages as [| | | | | | | |cp dp];
    try (unfold rebuild_pages in Hr; rewrite Hp in Hr; done).
  set (ps := pages_in_order (PDict cp dp)) in *.
  set (n := PDecimal (inject_Z (Z.of_nat (length ps)))).
  set (d3 := PyDict.set "Count"%string n
               (PyDict.set "Kids"%string (PList ps)
                  (PyDict.set "Kids"%string (PList []) dp))).
  assert (root' = PDict c (PyDict.set "Pages"%string (PDict cp d3) d)) as ->.
  { unfold rebuild_pages in Hr. rewrite Hp in Hr. simpl in Hr.
    unfold PyDict.getitem in Hr. rewrite get_set_eq in Hr. simpl in Hr.
    by injection Hr as <-. }
  assert (PyDict.get "Kids"%string d3 = Some (PList ps)) as HK.
  { unfold d3. rewrite get_set_ne by done. by rewrite get_set_eq. }
  assert (PyDict.get "Count"%string d3 = Some n) as HC
    by (unfold d3; by rewrite get_set_eq).
  assert (PyDict.get "Type"%string d3 = PyDict.get "Type"%string dp) as HT
    by (unfold d3; by rewrite !get_set_ne by done).
  assert (is_Page (PDict cp d3) = false) as Hnp3 by done.
  assert (pages_in_order (PDict cp d3) = ps) as Hps.
  { destruct (pages_kids (PDict cp d3)) as [ps'|] eqn:Hk3.
    - assert (ps' = ps) as ->.
      { simpl in Hk3. rewrite HK in Hk3.
        destruct (PyDict.get "Type"%string d3) as [t|]; [|done].
        destruct (eq_str t "Pages"); [|done]. by injection Hk3. }
      apply pages_in_order_flat; try done. apply pages_in_order_only_pages.
    - rewrite pages_in_order_childless by done. symmetry.
      apply pages_in_order_childless; [done|].
      simpl in *. rewrite HT, HK in Hk3.
      destruct (PyDict.get "Type"%string dp) as [t|]; [|done].
      by destruct (eq_str t "Pages"). }
  unfold rebuild_pages. simpl. unfold PyDict.getitem.
  rewrite get_set_eq. simpl. rewrite Hps.
  unfold PyDict.getitem. rewrite get_set_eq. simpl.
  rewrite !set_set_eq. change ([] ++ ps) with ps.
  rewrite (set_same "Kids"%string (PList ps) d3 HK).
  fold n. by rewrite (set_same "Count"%string n d3 HC).
Qed.

Lemma rebuild_pages_idempotent_witness :
  ∃ root',
    rebuild_pages nested_catalog = Ok root' ∧ rebuild_pages root' = Ok root'.
Proof.
  destruct (rebuild_pages nested_catalog) as [root'|] eqn:Hr;
    [|vm_compute in Hr; discriminate].
  exists root'. split; [done|].
  apply (rebuild_pages_idempotent nested_catalog root' nested_pages Hr);
    [reflexivity | reflexivity |].
  vm_compute. repeat constructor.
Defined.

(** X3: the transformer touches [Kids] and [Count] of the [Pages]
    dictionary and nothing else: the catalog keeps its keys, their order
    and every other entry, the [Pages] dictionary every other entry. *)
Theorem rebuild_pages_frame root root' :
  rebuild_pages root = Ok root' →
  keys root' = keys root
  ∧ (∀ k, k ≠ "Pages"%string → getitem root' k = getitem root k)
  ∧ ∃ pages pages',
      getitem root "Pages" = Ok pages
      ∧ getitem root' "Pages" = Ok pages'
      ∧ ∀ k, k ≠ "Kids"%string → k ≠ "Count"%string →
             getitem pages' k = getitem pages k.
Proof.
  unfold rebuild_pages.
  destruct (getitem root "Pages") as [pages|] eqn:Hp; simpl; [|done].
  destruct root as [| | | | | | | |c d]; try done.
  destruct pages as [| | | | | | | |cp dp]; try done. simpl.
  unfold PyDict.getitem. rewrite get_set_eq. simpl. intros [= <-].
  simpl in Hp. unfold PyDict.getitem in Hp.
  destruct (PyDict.get "Pages"%string d) as [p0|] eqn:Hg; [|done].
  split_and!.
  - simpl. by eapply set_keys_present.
  - intros k Hk. simpl. unfold PyDict.getitem. by rewrite get_set_ne.
  - eexists _, _. split; [reflexivity|]. split.
    { cbn [getitem]. unfold PyDict.getitem. by rewrite get_set_eq. }
    intros k Hk Hc. cbn [getitem].
    unfold PyDict.getitem. by rewrite !get_set_ne by done.
Qed.

Lemma rebuild_pages_frame_witness :
  ∃ root',
    rebuild_pages nested_catalog = Ok root'
    ∧ keys root' = ["Type"; "Pages"]%string
    ∧ getitem root' "Type" = Ok (PName "Catalog").
Proof.
  destruct (rebuild_pages nested_catalog) as [root'|] eqn:Hr;
    [|vm_compute in Hr; discriminate].
  exists root'. split; [done|].
  destruct (rebuild_pages_frame nested_catalog root' Hr) as (Hk & Hf & _).
  split; [exact Hk | by rewrite Hf].
Defined.

(** X4: how the transformer fails: on a value that is no dictionary, or
    without a dictionary transformer among the children of the root, or
    when that transformer gives back something else than a dictionary, an
    assertion fails; an exception of the dictionary transformer is passed
    on; a catalog without [Pages] gives [KeyError], one whose [Pages] is
    no dictionary gives [TypeError]. *)
Theorem transform_failures t catalog :
  (is_Dictionary catalog = false → transform t catalog = Raise AssertionError)
  ∧ (t = None → transform t catalog = Raise AssertionError)
  ∧ (∀ f e, t = Some f → is_Dictionary catalog = true →
            f catalog = Raise e → transform t catalog = Raise e)
  ∧ (∀ f root, t = Some f → is_Dictionary catalog = true →
               f catalog = Ok root → is_Dictionary root = false →
               transform t catalog = Raise AssertionError)
  ∧ (∀ f root, t = Some f → is_Dictionary catalog = true →
               f catalog = Ok root → is_Dictionary root = true →
               has_key "Pages" root = false →
               transform t catalog = Raise KeyError)
  ∧ (∀ f root pages, t = Some f → is_Dictionary catalog = true →
               f catalog = Ok root → is_Dictionary root = true →
               getitem root "Pages" = Ok pages →
               is_Dictionary pages = false →
               transform t catalog = Raise TypeError).
Proof.
  unfold transform. split_and!.
  - by intros ->.
  - intros ->. by destruct (is_Dictionary catalog).
  - intros f e -> -> Hf. simpl. by rewrite Hf.
  - intros f root -> -> Hf Hr. simpl. rewrite Hf. simpl. by rewrite Hr.
  - intros f root -> -> Hf Hr Hk. simpl. rewrite Hf. simpl. rewrite Hr. simpl.
    unfold rebuild_pages. destruct root as [| | | | | | | |c d]; try done.
    simpl in *. unfold PyDict.getitem.
    by rewrite (contains_false_get _ _ Hk).
  - intros f root pages -> -> Hf Hr Hp Hd. simpl. rewrite Hf. simpl.
    rewrite Hr. simpl. unfold rebuild_pages. rewrite Hp. simpl.
    by destruct pages.
Qed.

Lemma transform_failures_witness :
  transform (Some Ok) (PDict ClsDictionary [("Type"%string, PName "Catalog")])
  = Raise KeyError
  ∧ transform (Some Ok)
      (PDict ClsDictionary
         [("Type"%string, PName "Catalog"); ("Pages"%string, PList [])])
    = Raise TypeError.
Proof.
  split.
  - destruct (transform_failures (Some Ok)
                (PDict ClsDictionary [("Type"%string, PName "Catalog")]))
      as (_ & _ & _ & _ & H & _).
    by apply (H Ok (PDict ClsDictionary [("Type"%string, PName "Catalog")])).
  - destruct (transform_failures (Some Ok)
                (PDict ClsDictionary
                   [("Type"%string, PName "Catalog"); ("Pages"%string, PList [])]))
      as (_ & _ & _ & _ & _ & H).
    by apply (H Ok (PDict ClsDictionary
                      [("Type"%string, PName "Catalog"); ("Pages"%string, PList [])])
                (PList [])).
Defined.

End Catalog_more.

(** ** More on the reading-order comparator *)

Section Comparator_order.
Import LeftToRightComparator.
Local Open Scope Q_scope.

Abbreviation band e := (round_toward_zero_5 (y (get_baseline e))).

Lemma cmp_negative_iff e0 e1 :
  cmp e0 e1 < 0 ↔
  band e1 < band e0
  ∨ (band e0 == band e1 ∧ x (get_baseline e0) < x (get_baseline e1)).
Proof.
  rewrite cmp_toward_zero. unfold cmp_by.
  destruct (Qeq_bool (band e0) (band e1)) eqn:He.
  - apply Qeq_bool_iff in He. split.
    + intros H. right. split; [done | lra].
    + intros [H | [_ H]]; lra.
  - apply Qeq_bool_neq in He. split.
    + intros H. left. lra.
    + intros [H | [H _]]; [lra | done].
Qed.

Lemma cmp_zero_iff e0 e1 :
  cmp e0 e1 == 0 ↔
  band e0 == band e1 ∧ x (get_baseline e0) == x (get_baseline e1).
Proof.
  rewrite cmp_toward_zero. unfold cmp_by.
  destruct (Qeq_bool (band e0) (band e1)) eqn:He.
  - apply Qeq_bool_iff in He. split.
    + intros H. split; [done | lra].
    + intros [_ H]. lra.
  - apply Qeq_bool_neq in He. split.
    + intros H. exfalso. apply He. lra.
    + intros [H _]. done.
Qed.

(** X5: swapping the arguments flips the sign of the result, and an event
    compares equal to itself: the comparator is a consistent three-way
    comparison. *)
Theorem cmp_antisymmetric e0 e1 :
  cmp e1 e0 == - cmp e0 e1 ∧ cmp e0 e0 == 0.
Proof.
  split.
  - rewrite !cmp_toward_zero. unfold cmp_by.
    destruct (Qeq_bool (band e0) (band e1)) eqn:He.
    + apply Qeq_bool_iff in He.
      assert (Qeq_bool (band e1) (band e0) = true) as ->
        by (apply Qeq_bool_iff; lra).
      lra.
    + apply Qeq_bool_neq in He.
      destruct (Qeq_bool (band e1) (band e0)) eqn:He'.
      * apply Qeq_bool_iff in He'. exfalso. apply He. lra.
      * lra.
  - apply cmp_zero_iff. split; reflexivity.
Qed.

(** X6: "comes before" is transitive, and so is "compares equal"; events
    that compare equal stand in the same relation to every third event.
    The comparator orders events by the pair (band descending, x
    ascending). *)
Theorem cmp_transitive e0 e1 e2 :
  (cmp e0 e1 < 0 → cmp e1 e2 < 0 → cmp e0 e2 < 0)
  ∧ (cmp e0 e1 == 0 → cmp e1 e2 == 0 → cmp e0 e2 == 0)
  ∧ (cmp e0 e1 == 0 → (cmp e0 e2 < 0 ↔ cmp e1 e2 < 0)).
Proof.
  split_and!.
  - rewrite !cmp_negative_iff. intros [H1 | [H1 H1']] [H2 | [H2 H2']].
    + left. lra.
    + left. lra.
    + left. lra.
    + right. split; lra.
  - rewrite !cmp_zero_iff. intros [H1 H1'] [H2 H2']. split; lra.
  - rewrite cmp_zero_iff, !cmp_negative_iff. intros [H1 H1']. split.
    + intros [H | [H H']]; [left; lra | right; split; lra].
    + intros [H | [H H']]; [left; lra | right; split; lra].
Qed.

Lemma cmp_transitive_witness :
  cmp (event_at 10 100) (event_at 5 92) < 0.
Proof.
  destruct (cmp_transitive (event_at 10 100) (event_at 20 100) (event_at 5 92))
    as (H & _ & _).
  apply H; by vm_compute.
Defined.

Lemma round_toward_zero_5_near y :
  round_toward_zero_5 y - 5 < y ∧ y < round_toward_zero_5 y + 5.
Proof.
  destruct (round_toward_zero_5_bounds y) as [Hpos Hneg].
  destruct (Qlt_le_dec y 0) as [Hy | Hy].
  - destruct Hneg as [H1 H2]; [lra|]. lra.
  - destruct Hpos as [H1 H2]; [lra|]. lra.
Qed.

Lemma int_of_Decimal_floor_opp q :
  q <= 0 → int_of_Decimal q = (- Qfloor (- q))%Z.
Proof.
  destruct q as [n d]. unfold Qle, int_of_Decimal, Qfloor. simpl.
  intros Hn. rewrite <- (Z.opp_involutive n) at 1.
  rewrite Z.quot_opp_l by lia. f_equal. apply Z.quot_div_nonneg; lia.
Qed.

Lemma int_of_Decimal_mono q q' :
  q <= q' → (int_of_Decimal q ≤ int_of_Decimal q')%Z.
Proof.
  intros Hle.
  destruct (Qlt_le_dec q 0) as [Hq | Hq];
    destruct (Qlt_le_dec q' 0) as [Hq' | Hq'].
  - rewrite !int_of_Decimal_floor_opp by lra.
    assert (Qfloor (- q') ≤ Qfloor (- q))%Z; [|lia].
    apply Qfloor_resp_le. lra.
  - rewrite int_of_Decimal_floor_opp by lra.
    rewrite (int_of_Decimal_nonneg q') by done.
    assert (0 ≤ Qfloor (- q))%Z.
    { change 0%Z with (Qfloor 0). apply Qfloor_resp_le. lra. }
    assert (0 ≤ Qfloor q')%Z.
    { change 0%Z with (Qfloor 0). apply Qfloor_resp_le. lra. }
    lia.
  - lra.
  - rewrite !int_of_Decimal_nonneg by lra. by apply Qfloor_resp_le.
Qed.

Lemma round_toward_zero_5_mono y y' :
  y <= y' → round_toward_zero_5 y <= round_toward_zero_5 y'.
Proof.
  intros Hle. unfold round_toward_zero_5.
  assert (int_of_Decimal (y / 5) ≤ int_of_Decimal (y' / 5))%Z as Hi.
  { apply int_of_Decimal_mono. unfold Qdiv.
    apply Qmult_le_compat_r; [done | by vm_compute]. }
  rewrite Zle_Qle in Hi. lra.
Qed.

(** X7: vertical separation decides: an event whose baseline lies 10 units
    or more above another one comes first whatever the x positions (5
    units are enough when both baselines are non-negative); an event is
    never placed before one whose baseline is in a higher band; within one
    band the smaller x comes first. *)
Theorem cmp_vertical_separation e0 e1 :
  (y (get_baseline e1) + 10 <= y (get_baseline e0) → cmp e0 e1 < 0)
  ∧ (0 <= y (get_baseline e1) →
     y (get_baseline e1) + 5 <= y (get_baseline e0) → cmp e0 e1 < 0)
  ∧ (y (get_baseline e0) <= y (get_baseline e1) →
     cmp e0 e1 < 0 →
     band e0 == band e1 ∧ x (get_baseline e0) < x (get_baseline e1)).
Proof.
  split_and!.
  - intros Hsep. apply cmp_negative_iff. left.
    pose proof (round_toward_zero_5_near (y (get_baseline e0))).
    pose proof (round_toward_zero_5_near (y (get_baseline e1))).
    lra.
  - intros H1 Hsep. apply cmp_negative_iff. left.
    destruct (round_toward_zero_5_bounds (y (get_baseline e0))) as [H0 _].
    destruct (round_toward_zero_5_bounds (y (get_baseline e1))) as [H1' _].
    specialize (H0 ltac:(lra)). specialize (H1' H1).
    assert (band e1 <= band e0) as Hm by (apply round_toward_zero_5_mono; lra).
    destruct (Qlt_le_dec (band e1) (band e0)) as [|Hge]; [done|].
    exfalso. lra.
  - intros Hle [Hlt | H]%cmp_negative_iff; [|done].
    exfalso. pose proof (round_toward_zero_5_mono _ _ Hle). lra.
Qed.

Lemma cmp_vertical_separation_witness :
  cmp (event_at 300 8) (event_at 0 (-3)) < 0
  ∧ cmp (event_at 300 7) (event_at 0 2) < 0.
Proof.
  destruct (cmp_vertical_separation (event_at 300 8) (event_at 0 (-3)))
    as (H10 & _ & _).
  destruct (cmp_vertical_separation (event_at 300 7) (event_at 0 2))
    as (_ & H5 & _).
  split; [apply H10 | apply H5]; by vm_compute.
Defined.

End Comparator_order.

(** ** More on the content-stream interpreter *)

Section Canvas_streams.
Import Canvas.
Context {G : Type}.
Variable canvas_operators : gmap string (@CanvasOperator G).
Implicit Types (self : @Canvas G) (operand_stk : list pdf_object).

(** X8: operator names that are not in the table leave no trace: reading a
    stream gives the canvas and the outcome of reading it with those names
    taken out. *)
Theorem read_ignores_unknown_operators io_source self :
  read canvas_operators io_source self
  = read canvas_operators
      (List.filter (known_token canvas_operators) io_source) self.
Proof.
  unfold read. generalize (@nil pdf_object) as operand_stk. revert self.
  induction io_source as [|[obj|name] rest IH]; intros self operand_stk.
  - done.
  - simpl. apply IH.
  - simpl. destruct (canvas_operators !! name) as [operator|] eqn:Ho.
    + simpl. rewrite Ho.
      destruct (negb (in_compatibility_section self) && _); [done|].
      destruct (pop_operands _ _ _) as [[operands stk']|]; [|done].
      destruct (invoke operator self operands) as [self' [e|]].
      * destruct (negb (in_compatibility_section self')); [done | apply IH].
      * apply IH.
    + apply IH.
Qed.

Lemma read_loop_operands operands rest operand_stk self :
  read_loop canvas_operators (map Operand operands ++ rest) operand_stk self
  = read_loop canvas_operators rest (rev operands ++ operand_stk) self.
Proof.
  revert operand_stk. induction operands as [|o operands IH]; intros stk.
  - done.
  - simpl. rewrite IH. by rewrite <- app_assoc.
Qed.

(** X9: an operator gets the operands in the order they stand in the
    stream: after the operands [before ++ operands], an operator that
    takes [length operands] of them is invoked with [operands], and the
    ones in [before] stay on the stack for what follows.  Its exception,
    if any, ends the reading unless the canvas it leaves is in a
    compatibility section. *)
Theorem read_operands_in_order name operator before operands rest self :
  canvas_operators !! name = Some operator →
  number_of_operands operator = length operands →
  read canvas_operators
    (map Operand (before ++ operands) ++ OperatorName name :: rest) self
  = match invoke operator self operands with
    | (self', None) => read_loop canvas_operators rest (rev before) self'
    | (self', Some e) =>
        if in_compatibility_section self'
        then read_loop canvas_operators rest (rev before) self'
        else (self', Raise e)
    end.
Proof.
  intros Ho Hn. unfold read. rewrite read_loop_operands, app_nil_r.
  simpl. rewrite Ho, Hn, rev_app_distr.
  assert (length operands ≤ length (rev operands ++ rev before))%nat as Hl
    by (rewrite length_app, length_rev; lia).
  apply Nat.ltb_ge in Hl as Hl'. rewrite Hl', andb_false_r.
  rewrite pop_operands_enough by done.
  rewrite take_app_length' by by rewrite length_rev.
  rewrite drop_app_length' by by rewrite length_rev.
  rewrite rev_involutive, app_nil_r.
  destruct (invoke operator self operands) as [self' [e|]]; [|done].
  by destruct (in_compatibility_section self').
Qed.

(** X10: when every operator of the stream finds its operands, [read] has
    no failure of its own: whatever it raises was raised by an operator
    that left the canvas outside a compatibility section. *)
Theorem read_raises_operator_exceptions_only objects operand_stk self e :
  enough_operands canvas_operators objects (length operand_stk) = true →
  (read_loop canvas_operators objects operand_stk self).2 = Raise e →
  ∃ name operator self0 operands,
    canvas_operators !! name = Some operator
    ∧ (invoke operator self0 operands).2 = Some e
    ∧ in_compatibility_section (invoke operator self0 operands).1 = false.
Proof.
  revert operand_stk self.
  induction objects as [|[obj|name] rest IH]; intros stk self; simpl.
  - done.
  - apply (IH (obj :: stk)).
  - destruct (canvas_operators !! name) as [operator|] eqn:Ho; [|apply IH].
    intros [Hn Hrest]%andb_prop. apply Nat.leb_le in Hn.
    apply Nat.ltb_ge in Hn as Hn'. rewrite Hn', andb_false_r.
    rewrite pop_operands_enough by done. rewrite app_nil_r.
    destruct (invoke operator self _) as [self' [e'|]] eqn:Hi.
    + destruct (in_compatibility_section self') eqn:Hc; simpl.
      * apply IH. by rewrite length_drop.
      * intros [= ->]. exists name, operator, self, (rev (take (number_of_operands operator) stk)).
        rewrite Hi. done.
    + apply IH. by rewrite length_drop.
Qed.

End Canvas_streams.

Lemma read_raises_operator_exceptions_only_witness :
  ∃ name operator self0 operands,
    Canvas.operators !! name = Some operator
    ∧ (Canvas.invoke operator self0 operands).2
      = Some (OperatorError "GraphicsStateUnderflow")
    ∧ Canvas.in_compatibility_section (Canvas.invoke operator self0 operands).1
      = false.
Proof.
  apply (read_raises_operator_exceptions_only Canvas.operators
           [Canvas.OperatorName "q"; Canvas.OperatorName "Q";
            Canvas.OperatorName "Q"] [] Canvas.new);
    reflexivity.
Defined.

Lemma read_operands_in_order_witness :
  Canvas.read Canvas.operators
    [ Canvas.Operand (PName "stray"); Canvas.Operand (PDecimal 3);
      Canvas.OperatorName "w" ] Canvas.new
  = ({| Canvas.in_compatibility_section := false;
        Canvas.graphics_state := {| Canvas.line_width := 3 |};
        Canvas.marked_content_stack := [];
        Canvas.graphics_state_stack := [] |}, Ok tt).
Proof.
  exact (read_operands_in_order Canvas.operators "w" Canvas.SetLineWidth
           [PName "stray"] [PDecimal 3] [] Canvas.new eq_refl eq_refl).
Defined.
(** ** More on fonts *)

Lemma set_nonempty {K V : Type} `{EqDecision K} (k : K) (v : V) (d : list (K * V)) :
  PyDict.set k v d ≠ [].
Proof. destruct d as [|[k' v'] d]; simpl; [done|]. by destruct (decide (k = k')). Qed.

Section PyDict_invert.
Context {K V : Type} `{EqDecision K, EqDecision V}.
Implicit Types (k : K) (v : V) (d : list (K * V)) (acc : list (V * K)).

Lemma invert_acc_nonempty d acc :
  acc ≠ [] → foldl (fun a (kv : K * V) => PyDict.set kv.2 kv.1 a) acc d ≠ [].
Proof.
  revert acc. induction d as [|[k0 v0] d IH]; intros acc Hacc; simpl; [done|].
  apply IH, set_nonempty.
Qed.

Lemma invert_nonempty d : d ≠ [] → PyDict.invert d ≠ [].
Proof.
  destruct d as [|[k0 v0] d]; [done|]. intros _. unfold PyDict.invert. simpl.
  by apply invert_acc_nonempty.
Qed.

Lemma invert_acc_get_notin d acc v :
  v ∉ d.*2 →
  PyDict.get v (foldl (fun a (kv : K * V) => PyDict.set kv.2 kv.1 a) acc d)
  = PyDict.get v acc.
Proof.
  revert acc. induction d as [|[k0 v0] d IH]; intros acc Hv; simpl; [done|].
  simpl in Hv. apply not_elem_of_cons in Hv as [Hne Hv].
  rewrite IH by done. by apply get_set_ne.
Qed.

Lemma invert_acc_get d acc k v :
  (k, v) ∈ d → NoDup d.*2 →
  PyDict.get v (foldl (fun a (kv : K * V) => PyDict.set kv.2 kv.1 a) acc d)
  = Some k.
Proof.
  revert acc. induction d as [|[k0 v0] d IH]; intros acc Hin Hnd; simpl.
  - by apply elem_of_nil in Hin.
  - simpl in Hnd. apply NoDup_cons in Hnd as [Hv0 Hnd].
    apply elem_of_cons in Hin as [[= -> ->]|Hin].
    + rewrite invert_acc_get_notin by done. apply get_set_eq.
    + by apply IH.
Qed.

Lemma invert_acc_get_inv d acc k v :
  PyDict.get v (foldl (fun a (kv : K * V) => PyDict.set kv.2 kv.1 a) acc d)
  = Some k →
  (k, v) ∈ d ∨ PyDict.get v acc = Some k.
Proof.
  revert acc. induction d as [|[k0 v0] d IH]; intros acc Hg; simpl in *.
  - by right.
  - apply IH in Hg as [Hin|Hg]; [left; by right|].
    destruct (decide (v0 = v)) as [->|Hne].
    + rewrite get_set_eq in Hg. injection Hg as ->. left. left.
    + rewrite get_set_ne in Hg by done. by right.
Qed.

Lemma get_None_notin k d : k ∉ d.*1 → PyDict.get k d = None.
Proof.
  induction d as [|[k0 v0] d IH]; simpl; [done|].
  intros [Hne Hk]%not_elem_of_cons. rewrite decide_False by done. by apply IH.
Qed.

Lemma get_of_elem k v d : NoDup d.*1 → (k, v) ∈ d → PyDict.get k d = Some v.
Proof.
  induction d as [|[k0 v0] d IH]; simpl.
  - by intros _ ?%elem_of_nil.
  - intros [Hk0 Hnd]%NoDup_cons [[= -> ->]|Hin]%elem_of_cons.
    + by rewrite decide_True.
    + destruct (decide (k = k0)) as [->|Hne]; [|by apply IH].
      destruct Hk0. apply list_elem_of_fmap. by exists (k0, v).
Qed.

(** On a table without a repeated key or a repeated value, the inverted
    table is the inverse. *)
Lemma invert_round_trip d k v :
  NoDup d.*1 → NoDup d.*2 →
  PyDict.get k d = Some v ↔ PyDict.get v (PyDict.invert d) = Some k.
Proof.
  intros Hk Hv. split.
  - intros Hg%get_elem_of. by apply invert_acc_get.
  - intros [Hin|Hg]%invert_acc_get_inv; [by apply get_of_elem | done].
Qed.

End PyDict_invert.

Section Font_more.
Import Type1Font.
Variable mac_roman_decode : bytes → result ustr.
Variable mac_roman_encode : ustr → result bytes.
Variable adobe_standard_decode : bytes → result ustr.
Variable adobe_standard_encode : ustr → result bytes.
Variable _read_cmap : pdf_object → result (list (Z * ustr)).
Variable toUnicode : string → ustr.
Variable str_of : pdf_object → string.

Abbreviation cid_to_unicode_with cmap :=
  (character_identifier_to_unicode mac_roman_decode adobe_standard_decode
     cmap toUnicode str_of).
Abbreviation unicode_to_cid_with cmap :=
  (unicode_to_character_identifier mac_roman_encode adobe_standard_encode
     cmap toUnicode str_of).
Abbreviation cid_to_unicode := (cid_to_unicode_with _read_cmap).
Abbreviation unicode_to_cid := (unicode_to_cid_with _read_cmap).

(** *** Fonts with a [ToUnicode] CMap *)

Lemma to_unicode_lookups self to_unicode cmap_bytes table :
  PyDict.get "ToUnicode"%string (entries self) = Some to_unicode →
  getitem to_unicode "DecodedBytes" = Ok cmap_bytes →
  _read_cmap cmap_bytes = Ok table →
  cmap_cache_ok self table →
  ∃ self',
    (∀ cid, cid_to_unicode cid self = (self', Ok (PyDict.get cid table)))
    ∧ (∀ u, unicode_to_cid u self = (self', Ok (PyDict.get u (PyDict.invert table))))
    ∧ entries self' = entries self
    ∧ _character_identifier_to_unicode_lookup self' = table
    ∧ _unicode_lookup_to_character_identifier self' = PyDict.invert table.
Proof.
  intros Ht Hb Hc Hok.
  destruct (_read_to_unicode_cached _read_cmap _ _ _ _ Ht Hb Hc Hok)
    as (self' & Hr & He & Hl & Hi).
  exists self'. split_and!; [| |done..].
  - intros cid. unfold character_identifier_to_unicode, PyDict.contains.
    rewrite Ht, Hr. simpl. by rewrite Hl.
  - intros u. unfold unicode_to_character_identifier, PyDict.contains.
    rewrite Ht, Hr. simpl. by rewrite Hi.
Qed.

(** X19: when the CMap of a font gives no code twice and no text to two
    codes, the two lookups are inverse to each other: a code maps to a
    text exactly when the text maps back to the code, before and after
    the tables have been read. *)
Theorem to_unicode_round_trip self cid u to_unicode cmap_bytes table :
  PyDict.get "ToUnicode"%string (entries self) = Some to_unicode →
  getitem to_unicode "DecodedBytes" = Ok cmap_bytes →
  _read_cmap cmap_bytes = Ok table →
  cmap_cache_ok self table →
  NoDup table.*1 → NoDup table.*2 →
  ((cid_to_unicode cid self).2 = Ok (Some u)
   ↔ (unicode_to_cid u self).2 = Ok (Some cid))
  ∧ ((cid_to_unicode cid self).2 = Ok (Some u)
     ↔ (unicode_to_cid u (cid_to_unicode cid self).1).2 = Ok (Some cid)).
Proof.
  intros Ht Hb Hc Hok Hk Hv.
  destruct (to_unicode_lookups _ _ _ _ Ht Hb Hc Hok)
    as (self' & Hf & Hr & He & Hl & Hi).
  assert (cmap_cache_ok self' table) as Hok' by (by right).
  assert (PyDict.get "ToUnicode"%string (entries self') = Some to_unicode)
    as Ht' by (by rewrite He).
  destruct (to_unicode_lookups _ _ _ _ Ht' Hb Hc Hok')
    as (self'' & _ & Hr' & _).
  rewrite Hf, Hr. cbn [fst snd]. rewrite Hr'. cbn [snd].
  pose proof (invert_round_trip table cid u Hk Hv) as Hrt.
  split; (split; [intros [= H]; f_equal; by apply Hrt
                 | intros [= H]; f_equal; by apply Hrt]).
Qed.

(** X20: the CMap of a font is parsed once when it has an entry: after one
    lookup, every later lookup in either direction answers from the
    tables read then, whatever the parser would give now, and leaves the
    font as it is.  A CMap without any entry is parsed again by the next
    lookup. *)
Theorem to_unicode_read_once self cid to_unicode cmap_bytes table :
  PyDict.get "ToUnicode"%string (entries self) = Some to_unicode →
  getitem to_unicode "DecodedBytes" = Ok cmap_bytes →
  _read_cmap cmap_bytes = Ok table →
  cmap_cache_ok self table →
  (table ≠ [] →
   ∀ later_cmap cid' u',
     cid_to_unicode_with later_cmap cid' (cid_to_unicode cid self).1
     = ((cid_to_unicode cid self).1, Ok (PyDict.get cid' table))
     ∧ unicode_to_cid_with later_cmap u' (cid_to_unicode cid self).1
       = ((cid_to_unicode cid self).1, Ok (PyDict.get u' (PyDict.invert table))))
  ∧ (table = [] →
     ∀ later_cmap table' cid',
       later_cmap cmap_bytes = Ok table' →
       (cid_to_unicode_with later_cmap cid' (cid_to_unicode cid self).1).2
       = Ok (PyDict.get cid' table')).
Proof.
  intros Ht Hb Hc Hok.
  destruct (to_unicode_lookups _ _ _ _ Ht Hb Hc Hok)
    as (self' & Hf & Hr & He & Hl & Hi).
  rewrite Hf. cbn [fst].
  assert (PyDict.get "ToUnicode"%string (entries self') = Some to_unicode)
    as Ht' by (by rewrite He).
  split.
  - intros Hne later_cmap cid' u'.
    assert (_read_to_unicode later_cmap self' = (self', Ok tt)) as Hread.
    { unfold _read_to_unicode. rewrite Hi.
      pose proof (invert_nonempty table Hne) as Hinv.
      by destruct (PyDict.invert table). }
    unfold character_identifier_to_unicode, unicode_to_character_identifier,
      PyDict.contains.
    rewrite Ht', Hread. simpl. by rewrite Hl, Hi.
  - intros -> later_cmap table' cid' Hlater.
    assert (cmap_cache_ok self' table') as Hok' by (left; by rewrite Hi).
    destruct (_read_to_unicode_cached later_cmap _ _ _ _ Ht' Hb Hlater Hok')
      as (self'' & Hr'' & _ & Hl'' & _).
    unfold character_identifier_to_unicode, PyDict.contains.
    rewrite Ht', Hr''. simpl. by rewrite Hl''.
Qed.

(** *** Fonts with a named encoding or none *)

Lemma or_None_Ok {A} (r : result A) : ∃ o, or_None r = Ok o.
Proof. destruct r; simpl; eauto. Qed.

Lemma get_implied_encoding self :
  PyDict.get "Encoding"%string (entries (implied_encoding self))
  = Some (default (PName "StandardEncoding")
            (PyDict.get "Encoding"%string (entries self))).
Proof.
  unfold implied_encoding, PyDict.contains.
  destruct (PyDict.get "Encoding"%string (entries self)) as [e|] eqn:He.
  - by rewrite He.
  - cbn [entries with_entries]. by rewrite get_set_eq.
Qed.

(** X21: without a [ToUnicode] CMap, in a font whose encoding is one of the
    four predefined names, or is absent, the reverse lookup never
    raises: whatever the codec does, the answer is a value or [None]. *)
Theorem reverse_lookup_never_raises self u :
  PyDict.contains "ToUnicode"%string (entries self) = false →
  (PyDict.get "Encoding"%string (entries self) = None
   ∨ ∃ e, PyDict.get "Encoding"%string (entries self) = Some (PName e)
          ∧ e ∈ predefined_encodings) →
  ∃ r, unicode_to_cid u self = (implied_encoding self, Ok r).
Proof.
  intros Ht He.
  assert (∃ e, PyDict.get "Encoding"%string (entries (implied_encoding self))
               = Some (PName e) ∧ e ∈ predefined_encodings) as (e & Hg & Hin).
  { rewrite get_implied_encoding. destruct He as [->|(e & -> & Hin)].
    - exists "StandardEncoding"%string. split; [done|].
      unfold predefined_encodings. rewrite !elem_of_cons. tauto.
    - by exists e. }
  unfold unicode_to_character_identifier. rewrite Ht, Hg.
  unfold predefined_encodings in Hin.
  rewrite !elem_of_cons, elem_of_nil in Hin.
  destruct Hin as [->|[->|[->|[->|[]]]]].
  - change (is_Name _ && in_strs _ _) with true.
    change (eq_str (PName "MacRomanEncoding") "WinAnsiEncoding") with false.
    change (eq_str (PName "MacRomanEncoding") "MacRomanEncoding") with true.
    cbv iota.
    destruct (or_None_Ok (let? b := mac_roman_encode u in Codec.int_of_bytes b))
      as [o ->]. eauto.
  - change (is_Name _ && in_strs _ _) with true.
    change (eq_str (PName "MacExpertEncoding") "WinAnsiEncoding") with false.
    change (eq_str (PName "MacExpertEncoding") "MacRomanEncoding") with false.
    change (eq_str (PName "MacExpertEncoding") "MacExpertEncoding") with true.
    cbv iota.
    destruct (or_None_Ok (let? b := mac_roman_encode u in Codec.int_of_bytes b))
      as [o ->]. eauto.
  - change (is_Name _ && in_strs _ _) with true.
    change (eq_str (PName "WinAnsiEncoding") "WinAnsiEncoding") with true.
    cbv iota.
    destruct (or_None_Ok (let? b := Codec.cp1252_encode u in Codec.int_of_bytes b))
      as [o ->]. eauto.
  - change (is_Name _ && in_strs _ _) with true.
    change (eq_str (PName "StandardEncoding") "WinAnsiEncoding") with false.
    change (eq_str (PName "StandardEncoding") "MacRomanEncoding") with false.
    change (eq_str (PName "StandardEncoding") "MacExpertEncoding") with false.
    change (eq_str (PName "StandardEncoding") "StandardEncoding") with true.
    cbv iota.
    destruct (or_None_Ok (let? b := adobe_standard_encode u in Codec.int_of_bytes b))
      as [o ->]. eauto.
Qed.

(** X22: without a [ToUnicode] CMap, a character identifier below 0 or above
    256 has no text in any font, and no character identifier has a text
    in a font whose encoding is neither a predefined name nor a
    dictionary with a predefined base encoding: the lookup answers
    [None] and does not raise. *)
Theorem lookup_without_mapping self cid :
  PyDict.contains "ToUnicode"%string (entries self) = false →
  (cid < 0 ∨ 256 < cid
   ∨ ∃ e, PyDict.get "Encoding"%string (entries self) = Some e
          ∧ is_Name e && in_strs e predefined_encodings = false
          ∧ has_base_encoding e = false) →
  cid_to_unicode cid self = (implied_encoding self, Ok None).
Proof.
  intros Ht Hcase. unfold character_identifier_to_unicode.
  rewrite Ht, get_implied_encoding.
  destruct Hcase as [Hlt|[Hgt|(e & -> & Hn & Hb)]].
  - assert ((cid <? 0) || (256 <? cid) = true) as ->.
    { apply orb_true_iff. left. by apply Z.ltb_lt. }
    destruct (is_Name _ && in_strs _ _); [done|].
    by destruct (has_base_encoding _).
  - assert ((cid <? 0) || (256 <? cid) = true) as ->.
    { apply orb_true_iff. right. by apply Z.ltb_lt. }
    destruct (is_Name _ && in_strs _ _); [done|].
    by destruct (has_base_encoding _).
  - cbn [default from_option id]. unfold id. by rewrite Hn, Hb.
Qed.

(** *** Fonts with a [Differences] array *)

Lemma differences_from_app code l1 c names lookup :
  differences_from toUnicode str_of code (l1 ++ PDecimal c :: names) lookup
  = differences_from toUnicode str_of c names
      (differences_from toUnicode str_of code l1 lookup).
Proof.
  revert code lookup. induction l1 as [|o l1 IH]; intros code lookup; [done|].
  destruct o; simpl; apply IH.
Qed.

Lemma differences_from_name code o rest lookup :
  is_Decimal o = false →
  differences_from toUnicode str_of code (o :: rest) lookup
  = differences_from toUnicode str_of (code + 1)%Q rest
      (PyDict.set (int_of_Decimal code) (toUnicode (str_of o)) lookup).
Proof. by destruct o. Qed.

Lemma int_of_Decimal_whole q : Qden q = 1%positive → int_of_Decimal q = Qnum q.
Proof. unfold int_of_Decimal. intros ->. apply Z.quot_1_r. Qed.

Lemma differences_run q names lookup :
  Qden q = 1%positive →
  Forall (fun o => is_Decimal o = false) names →
  (∀ i o, names !! i = Some o →
          PyDict.get (Qnum q + Z.of_nat i)
            (differences_from toUnicode str_of q names lookup)
          = Some (toUnicode (str_of o)))
  ∧ (∀ k, ¬ (Qnum q ≤ k < Qnum q + Z.of_nat (length names)) →
          PyDict.get k (differences_from toUnicode str_of q names lookup)
          = PyDict.get k lookup).
Proof.
  intros Hq Hnames. revert q lookup Hq.
  induction Hnames as [|o names Ho Hnames IH]; intros q lookup Hq.
  - split; [by intros i o ?|done].
  - rewrite differences_from_name by done.
    assert (Qden (q + 1) = 1%positive) as Hq1.
    { destruct q as [n d]. simpl in *. subst d. reflexivity. }
    assert (Qnum (q + 1) = Qnum q + 1) as Hn1.
    { destruct q as [n d]. simpl in *. subst d. lia. }
    destruct (IH (q + 1)%Q
                (PyDict.set (int_of_Decimal q) (toUnicode (str_of o)) lookup) Hq1)
      as [Hin Hout].
    rewrite Hn1 in Hin, Hout. rewrite int_of_Decimal_whole in * by done.
    split.
    + intros [|i] o' Hi; simpl in Hi.
      * injection Hi as <-. rewrite Hout by lia.
        rewrite Z.add_0_r. apply get_set_eq.
      * rewrite <- (Hin i o' Hi). f_equal. lia.
    + intros k Hk. simpl in Hk. rewrite Hout by lia.
      apply get_set_ne. lia.
Qed.

Lemma differences_from_get code l lookup k u :
  PyDict.get k (differences_from toUnicode str_of code l lookup) = Some u →
  PyDict.get k lookup = Some u
  ∨ ∃ o, o ∈ l ∧ is_Decimal o = false ∧ u = toUnicode (str_of o).
Proof.
  revert code lookup. induction l as [|o l IH]; intros code lookup Hg.
  - by left.
  - destruct (is_Decimal o) eqn:Ho.
    + destruct o; try done. simpl in Hg.
      apply IH in Hg as [Hg|(o' & Hin & Hd & Hu)]; [by left|].
      right. exists o'. split; [by right | done].
    + rewrite differences_from_name in Hg by done.
      apply IH in Hg as [Hg|(o' & Hin & Hd & Hu)].
      * destruct (decide (int_of_Decimal code = k)) as [<-|Hne].
        -- rewrite get_set_eq in Hg. injection Hg as <-.
           right. exists o. split; [left | done].
        -- rewrite get_set_ne in Hg by done. by left.
      * right. exists o'. split; [by right | done].
Qed.

(** What a lookup does in a font whose encoding is a dictionary with a
    predefined base encoding, when the tables have not been read. *)
Lemma cid_to_unicode_differences self encoding differences first last table cid :
  PyDict.contains "ToUnicode"%string (entries self) = false →
  PyDict.get "Encoding"%string (entries self) = Some encoding →
  has_base_encoding encoding = true →
  getitem encoding "Differences" = Ok differences →
  apply_differences toUnicode str_of differences = Ok table →
  PyDict.get "FirstChar"%string (entries self) = Some (PDecimal first) →
  PyDict.get "LastChar"%string (entries self) = Some (PDecimal last) →
  _unicode_lookup_to_character_identifier self = [] →
  0 ≤ cid ≤ 256 →
  cid_to_unicode cid self
  = (with_lookups self table (PyDict.invert table), Ok (PyDict.get cid table)).
Proof.
  intros Ht He Hb Hd Ha Hf Hl Hr Hcid.
  assert (implied_encoding self = self) as Himp.
  { unfold implied_encoding, PyDict.contains. by rewrite He. }
  assert (is_Name encoding = false) as Hn.
  { unfold has_base_encoding in Hb. by destruct encoding. }
  unfold character_identifier_to_unicode.
  rewrite Ht, Himp, He, Hn, Hb. cbn [andb].
  assert ((cid <? 0) || (256 <? cid) = false) as ->.
  { apply orb_false_iff. split; [apply Z.ltb_ge | apply Z.ltb_ge]; lia. }
  unfold _read_encoding_with_differences.
  rewrite Hr. cbn [length Nat.ltb Nat.leb].
  unfold PyDict.contains, PyDict.getitem.
  rewrite Hf, Hl, He. cbn [assert rbind is_Decimal].
  rewrite Hd. cbn [rbind]. rewrite Ha. reflexivity.
Qed.

(** X23: in a font whose encoding is a dictionary with a predefined base
    encoding, the names of the last run of [Differences] get consecutive
    codes from the number that starts the run: the code [c + i] maps to
    the glyph of the [i]-th name. *)
Theorem differences_last_run self encoding pre c names first last i name :
  PyDict.contains "ToUnicode"%string (entries self) = false →
  PyDict.get "Encoding"%string (entries self) = Some encoding →
  has_base_encoding encoding = true →
  getitem encoding "Differences"
  = Ok (PList (pre ++ PDecimal (inject_Z c) :: names)) →
  (pre = [] ∨ ∃ q pre', pre = PDecimal q :: pre') →
  Forall (fun o => is_Decimal o = false) names →
  PyDict.get "FirstChar"%string (entries self) = Some (PDecimal first) →
  PyDict.get "LastChar"%string (entries self) = Some (PDecimal last) →
  _unicode_lookup_to_character_identifier self = [] →
  names !! i = Some name →
  0 ≤ c + Z.of_nat i ≤ 256 →
  (cid_to_unicode (c + Z.of_nat i) self).2 = Ok (Some (toUnicode (str_of name))).
Proof.
  intros Ht He Hb Hd Hpre Hnames Hf Hl Hr Hi Hcid.
  assert (∃ lookup,
            apply_differences toUnicode str_of
              (PList (pre ++ PDecimal (inject_Z c) :: names))
            = Ok (differences_from toUnicode str_of (inject_Z c) names lookup))
    as [lookup Ha].
  { destruct Hpre as [->|(q & pre' & ->)].
    - by exists [].
    - eexists. simpl. by rewrite differences_from_app. }
  rewrite (cid_to_unicode_differences _ _ _ _ _ _ _ Ht He Hb Hd Ha Hf Hl Hr Hcid).
  cbn [snd]. f_equal.
  by apply (differences_run (inject_Z c) names lookup eq_refl Hnames).
Qed.

(** X24: in such a font the base encoding is never consulted: every text a
    lookup answers is the glyph of a name in [Differences], and with an
    empty [Differences] no character identifier has a text. *)
Theorem differences_only self encoding l first last cid :
  PyDict.contains "ToUnicode"%string (entries self) = false →
  PyDict.get "Encoding"%string (entries self) = Some encoding →
  has_base_encoding encoding = true →
  getitem encoding "Differences" = Ok (PList l) →
  PyDict.get "FirstChar"%string (entries self) = Some (PDecimal first) →
  PyDict.get "LastChar"%string (entries self) = Some (PDecimal last) →
  _unicode_lookup_to_character_identifier self = [] →
  (∀ u, (cid_to_unicode cid self).2 = Ok (Some u) →
        ∃ o, o ∈ l ∧ is_Decimal o = false ∧ u = toUnicode (str_of o))
  ∧ (l = [] → (cid_to_unicode cid self).2 = Ok None).
Proof.
  intros Ht He Hb Hd Hf Hl Hr.
  destruct (decide (0 ≤ cid ≤ 256)) as [Hcid|Hcid].
  - destruct (apply_differences toUnicode str_of (PList l)) as [table|e] eqn:Ha.
    + rewrite (cid_to_unicode_differences _ _ _ _ _ _ _ Ht He Hb Hd Ha Hf Hl Hr Hcid).
      cbn [snd]. split.
      * intros u [= Hg].
        destruct l as [|[] l]; simpl in Ha; try done.
        { injection Ha as <-. done. }
        injection Ha as <-.
        apply differences_from_get in Hg as [Hg|(o & Hin & Ho & Hu)]; [done|].
        exists o. split; [by right | done].
      * intros ->. by injection Ha as <-.
    + split.
      * intros u Hu. exfalso. revert Hu.
        unfold character_identifier_to_unicode.
        assert (implied_encoding self = self) as ->.
        { unfold implied_encoding, PyDict.contains. by rewrite He. }
        assert (is_Name encoding = false) as Hn.
        { unfold has_base_encoding in Hb. by destruct encoding. }
        rewrite Ht, He, Hn, Hb. cbn [andb].
        assert ((cid <? 0) || (256 <? cid) = false) as ->.
        { apply orb_false_iff. split; [apply Z.ltb_ge | apply Z.ltb_ge]; lia. }
        unfold _read_encoding_with_differences.
        rewrite Hr. cbn [length Nat.ltb Nat.leb].
        unfold PyDict.contains, PyDict.getitem.
        rewrite Hf, Hl, He. cbn [assert rbind is_Decimal].
        rewrite Hd. cbn [rbind]. rewrite Ha. done.
      * intros ->. done.
  - assert (cid_to_unicode cid self = (implied_encoding self, Ok None)) as ->.
    { apply lookup_without_mapping; [done|]. lia. }
    split; [done|done].
Qed.

(** *** Widths *)

(** X25: in a font dictionary whose [Widths] array has one entry per
    character from [FirstChar] to [LastChar], the width of a character
    identifier in that range is the entry at its distance from
    [FirstChar], every other character identifier has no width, and the
    lookup does not raise. *)
Theorem get_width_well_formed self first last ws cid :
  PyDict.get "FirstChar"%string (entries self) = Some (PDecimal first) →
  PyDict.get "LastChar"%string (entries self) = Some (PDecimal last) →
  PyDict.get "Widths"%string (entries self) = Some (PList ws) →
  Z.of_nat (length ws) = int_of_Decimal last - int_of_Decimal first + 1 →
  (int_of_Decimal first ≤ cid ≤ int_of_Decimal last →
   ∃ w, get_width cid self = Ok (Some w)
        ∧ ws !! Z.to_nat (cid - int_of_Decimal first) = Some w)
  ∧ (¬ (int_of_Decimal first ≤ cid ≤ int_of_Decimal last) →
     get_width cid self = Ok None).
Proof.
  intros Hf Hl Hw Hlen. unfold get_width, PyDict.getitem.
  rewrite Hf, Hl. cbn [rbind py_int]. split.
  - intros [H1 H2].
    assert ((int_of_Decimal first <=? cid) && (cid <=? int_of_Decimal last) = true)
      as ->.
    { apply andb_true_iff. split; by apply Z.leb_le. }
    rewrite Hw. cbn [rbind index].
    destruct (lookup_lt_is_Some_2 ws (Z.to_nat (cid - int_of_Decimal first)))
      as [w Hws]; [lia|].
    exists w. by rewrite Hws.
  - intros Hout.
    assert ((int_of_Decimal first <=? cid) && (cid <=? int_of_Decimal last) = false)
      as ->; [|done].
    apply andb_false_iff.
    destruct (Z.leb_spec (int_of_Decimal first) cid);
      destruct (Z.leb_spec cid (int_of_Decimal last)); auto. lia.
Qed.

End Font_more.

(** *** The standard fonts *)

Section Standard_font_more.
Import StandardType1FontObject.
Variable afm_files : string → option AFM.
Variable symbol_decode zapfdingbats_decode : list Z → ustr.

Lemma canonical_name_fixed name n :
  StandardType1Font._canonical_name name = Some n →
  StandardType1Font._canonical_name n = Some n.
Proof.
  intros [Hin He]%first_match_Some.
  by apply canonical_name_of_standard.
Qed.

(** X26: a standard font is made from any spelling of its name that differs
    in case, spaces or punctuation only, with the same result as from
    the name as listed; a name of no standard font fails the first
    assertion. *)
Theorem standard_font_any_spelling name :
  (∀ n, StandardType1Font._canonical_name name = Some n →
        __init__ afm_files symbol_decode zapfdingbats_decode (Some name)
        = __init__ afm_files symbol_decode zapfdingbats_decode (Some n))
  ∧ (StandardType1Font.is_standard_14_font_name name = false →
     __init__ afm_files symbol_decode zapfdingbats_decode (Some name)
     = Raise AssertionError).
Proof.
  split.
  - intros n Hn. unfold __init__.
    by rewrite Hn, (canonical_name_fixed _ _ Hn).
  - unfold StandardType1Font.is_standard_14_font_name, __init__.
    by destruct (StandardType1Font._canonical_name name).
Qed.

Lemma text_font_tables name f :
  __init__ afm_files symbol_decode zapfdingbats_decode (Some name) = Ok f →
  is_text_font_name name = true →
  Type1Font._character_identifier_to_unicode_lookup (font f)
  = table_of cp1252_or_empty
  ∧ Type1Font._unicode_lookup_to_character_identifier (font f)
    = PyDict.invert (table_of cp1252_or_empty).
Proof.
  unfold __init__, is_text_font_name.
  destruct (StandardType1Font._canonical_name name) as [n|]; [|done].
  destruct (afm_files _) as [afm|]; [|done].
  destruct (PyDict.getitem "FontName"%string (_attrs afm)) as [[s|q]|];
    [|done..].
  cbn [rbind].
  destruct (String.eqb n "Symbol"); [by intros _ ?|].
  destruct (String.eqb n "ZapfDingbats"); [by intros _ ?|].
  by intros [= <-] _.
Qed.

Lemma cp1252_table_checked :
  let table := table_of cp1252_or_empty in
  let reverse := PyDict.invert table in
  forallb
    (fun c =>
       match PyDict.get c table with
       | Some u =>
           bool_decide (u = []) || bool_decide (PyDict.get u reverse = Some c)
       | None => false
       end)
    (map Z.of_nat (seq 0 256)) = true
  ∧ table.*1 = map Z.of_nat (seq 0 256)
  ∧ PyDict.get [] reverse = Some 157.
Proof. vm_compute. done. Qed.

(** X27: in a standard font other than [Symbol] and [ZapfDingbats], every
    character identifier from 0 to 255 has a text; when the text is not
    empty it maps back to the character identifier.  The five bytes
    without a character in [cp1252] have the empty text, which maps back
    to 157, the last of them.  No other character identifier has a
    text. *)
Theorem standard_text_font_round_trip name f cid :
  __init__ afm_files symbol_decode zapfdingbats_decode (Some name) = Ok f →
  is_text_font_name name = true →
  (0 ≤ cid < 256 →
   ∃ u, character_identifier_to_unicode cid f = Some u
        ∧ (u ≠ [] → unicode_to_character_identifier u f = Some cid))
  ∧ (¬ (0 ≤ cid < 256) → character_identifier_to_unicode cid f = None)
  ∧ unicode_to_character_identifier [] f = Some 157.
Proof.
  intros Hinit Htext.
  destruct (text_font_tables _ _ Hinit Htext) as [Hl Hr].
  unfold character_identifier_to_unicode, unicode_to_character_identifier.
  rewrite Hl, Hr. clear Hl Hr Hinit.
  pose proof cp1252_table_checked as Hchecked. cbv zeta in Hchecked.
  revert Hchecked. generalize (table_of cp1252_or_empty) as table.
  intros table (Hall & Hkeys & Hempty).
  split; [|split; [|exact Hempty]].
  - intros Hcid. rewrite forallb_forall in Hall.
    specialize (Hall cid). rewrite <- list_elem_of_In in Hall.
    assert (cid ∈ map Z.of_nat (seq 0 256)) as Hin.
    { apply list_elem_of_fmap. exists (Z.to_nat cid).
      split; [lia | apply elem_of_seq; lia]. }
    specialize (Hall Hin).
    destruct (PyDict.get cid table) as [u|]; [|discriminate Hall].
    exists u. split; [reflexivity|]. intros Hu.
    apply orb_true_iff in Hall as [Hall|Hall];
      apply bool_decide_eq_true in Hall; [contradiction | exact Hall].
  - intros Hcid. apply get_None_notin. rewrite Hkeys.
    intros (n & -> & Hn%elem_of_seq)%list_elem_of_fmap. lia.
Qed.

End Standard_font_more.

Lemma to_unicode_round_trip_witness :
  (Type1Font.character_identifier_to_unicode no_decode no_decode cmap_AB
     no_glyph text_of 65 (to_unicode_font [])).2 = Ok (Some [65%N])
  ↔ (Type1Font.unicode_to_character_identifier no_encode no_encode cmap_AB
       no_glyph text_of [65%N] (to_unicode_font [])).2 = Ok (Some 65).
Proof.
  apply (to_unicode_round_trip no_decode no_encode no_decode no_encode cmap_AB
           no_glyph text_of (to_unicode_font []) 65 [65%N]
           (PDict ClsStream [("DecodedBytes"%string, PBytes [])]) (PBytes [])
           [(65, [65%N]); (66, [66%N])]);
    [reflexivity | reflexivity | reflexivity | left; reflexivity
    | vm_compute; repeat constructor; set_solver
    | vm_compute; repeat constructor; set_solver].
Defined.

Lemma to_unicode_read_once_witness :
  Type1Font.character_identifier_to_unicode no_decode no_decode no_cmap
    no_glyph text_of 66
    (Type1Font.character_identifier_to_unicode no_decode no_decode cmap_AB
       no_glyph text_of 65 (to_unicode_font [])).1
  = ((Type1Font.character_identifier_to_unicode no_decode no_decode cmap_AB
        no_glyph text_of 65 (to_unicode_font [])).1,
     Ok (PyDict.get 66 [(65, [65%N]); (66, [66%N])])).
Proof.
  destruct (to_unicode_read_once no_decode no_encode no_decode no_encode cmap_AB
              no_glyph text_of (to_unicode_font []) 65
              (PDict ClsStream [("DecodedBytes"%string, PBytes [])]) (PBytes [])
              [(65, [65%N]); (66, [66%N])]
              eq_refl eq_refl eq_refl (or_introl eq_refl)) as [H _].
  by destruct (H ltac:(discriminate) no_cmap 66 []) as [H1 _].
Defined.

Lemma reverse_lookup_never_raises_witness :
  ∃ r,
    Type1Font.unicode_to_character_identifier no_encode no_encode cmap_B
      no_glyph text_of [65%N] winansi_font
    = (Type1Font.implied_encoding winansi_font, Ok r).
Proof.
  apply (reverse_lookup_never_raises no_decode no_encode no_decode no_encode
           cmap_B no_glyph text_of winansi_font [65%N]); [reflexivity|].
  right. exists "WinAnsiEncoding"%string. split; [reflexivity|].
  unfold Type1Font.predefined_encodings. set_solver.
Defined.

Lemma lookup_without_mapping_witness :
  Type1Font.character_identifier_to_unicode no_decode no_decode cmap_B
    no_glyph text_of 300 winansi_font
  = (Type1Font.implied_encoding winansi_font, Ok None).
Proof.
  apply (lookup_without_mapping no_decode no_decode cmap_B no_glyph text_of
           winansi_font 300); [reflexivity|].
  right. left. lia.
Defined.

Lemma differences_last_run_witness :
  (Type1Font.character_identifier_to_unicode no_decode no_decode cmap_B
     name_codes text_of (96 + Z.of_nat 1) differences_font).2
  = Ok (Some (name_codes (text_of (PName "a")))).
Proof.
  apply (differences_last_run no_decode no_decode cmap_B name_codes text_of
           differences_font
           (PDict ClsDictionary
              [("BaseEncoding"%string, PName "WinAnsiEncoding");
               ("Differences"%string,
                PList [PDecimal 39; PName "quotesingle";
                       PDecimal 96; PName "grave"; PName "a"])])
           [PDecimal 39; PName "quotesingle"] 96
           [PName "grave"; PName "a"] 0 255 1%nat (PName "a"));
    [reflexivity | reflexivity | reflexivity | reflexivity
    | right; eexists _, _; reflexivity
    | repeat constructor
    | reflexivity | reflexivity | reflexivity | reflexivity | simpl; lia].
Defined.

Lemma differences_only_witness :
  (∀ u,
      (Type1Font.character_identifier_to_unicode no_decode no_decode cmap_B
         name_codes text_of 65 differences_font).2 = Ok (Some u) →
      ∃ o, o ∈ [PDecimal 39; PName "quotesingle";
                PDecimal 96; PName "grave"; PName "a"]
           ∧ is_Decimal o = false ∧ u = name_codes (text_of o))
  ∧ (Type1Font.character_identifier_to_unicode no_decode no_decode cmap_B
       name_codes text_of 65 differences_font).2 = Ok None.
Proof.
  split; [|reflexivity].
  apply (differences_only no_decode no_decode cmap_B name_codes text_of
           differences_font
           (PDict ClsDictionary
              [("BaseEncoding"%string, PName "WinAnsiEncoding");
               ("Differences"%string,
                PList [PDecimal 39; PName "quotesingle";
                       PDecimal 96; PName "grave"; PName "a"])])
           [PDecimal 39; PName "quotesingle";
            PDecimal 96; PName "grave"; PName "a"] 0 255 65);
    reflexivity.
Defined.

Lemma get_width_well_formed_witness :
  ∃ w, Type1Font.get_width 33 widths_font = Ok (Some w)
       ∧ [PDecimal 250; PDecimal 333; PDecimal 408]
           !! Z.to_nat (33 - int_of_Decimal 32) = Some w.
Proof.
  apply (get_width_well_formed widths_font 32 34
           [PDecimal 250; PDecimal 333; PDecimal 408] 33);
    [reflexivity | reflexivity | reflexivity | reflexivity
    | vm_compute; split; discriminate].
Defined.

Lemma standard_font_any_spelling_witness :
  StandardType1FontObject.__init__ afm_files no_symbol no_symbol
    (Some "HELVETICA"%string)
  = StandardType1FontObject.__init__ afm_files no_symbol no_symbol
      (Some "Helvetica"%string).
Proof.
  destruct (standard_font_any_spelling afm_files no_symbol no_symbol "HELVETICA")
    as [H _].
  apply H. reflexivity.
Defined.

Lemma standard_text_font_round_trip_witness :
  ∃ u,
    StandardType1FontObject.character_identifier_to_unicode 65 helvetica_font
    = Some u
    ∧ (u ≠ [] →
       StandardType1FontObject.unicode_to_character_identifier u helvetica_font
       = Some 65).
Proof.
  destruct (standard_text_font_round_trip afm_files no_symbol no_symbol
              "helvetica" helvetica_font 65 eq_refl eq_refl) as [H _].
  apply H. lia.
Defined.

(** ** The chain of write transformers *)

Section Handlers_facts.
Import WriteBaseTransformer.
Context {V C R : Type}.
Variable py_None : R.
Implicit Types (store : gmap positive (@transformer_object V C R)).
Implicit Types (t s : @transformer_object V C R) (hs : list positive).

Lemma add_child_transformer_methods self handler store store' x t :
  add_child_transformer self handler store = Ok store' →
  store !! x = Some t →
  ∃ t', store' !! x = Some t'
        ∧ can_be_transformed t' = can_be_transformed t
        ∧ own_transform t' = own_transform t.
Proof.
  unfold add_child_transformer.
  destruct (store !! self) as [s|] eqn:Hs; [|done].
  destruct (<[self := _]> store !! handler) as [h|] eqn:Hh; [|done].
  intros [= <-] Hx. destruct (decide (x = handler)) as [->|Hne].
  - rewrite lookup_insert_eq. eexists. split; [done|].
    destruct (decide (handler = self)) as [->|Hne'].
    + rewrite lookup_insert_eq in Hh. injection Hh as <-.
      rewrite Hs in Hx. by injection Hx as <-.
    + rewrite lookup_insert_ne in Hh by done. rewrite Hx in Hh.
      by injection Hh as <-.
  - rewrite lookup_insert_ne by done.
    destruct (decide (x = self)) as [->|Hne'].
    + rewrite lookup_insert_eq. eexists. split; [done|].
      rewrite Hs in Hx. by injection Hx as <-.
    + rewrite lookup_insert_ne by done. eauto.
Qed.

Lemma add_child_transformer_handlers self handler store store' s :
  add_child_transformer self handler store = Ok store' →
  store !! self = Some s →
  ∃ s', store' !! self = Some s' ∧ handlers s' = handlers s ++ [handler].
Proof.
  unfold add_child_transformer. intros H Hs. rewrite Hs in H.
  destruct (<[self := _]> store !! handler) as [h|] eqn:Hh; [|done].
  injection H as <-. destruct (decide (self = handler)) as [<-|Hne].
  - rewrite lookup_insert_eq in Hh. injection Hh as <-.
    rewrite lookup_insert_eq. eexists. split; done.
  - rewrite lookup_insert_ne by done. rewrite lookup_insert_eq.
    eexists. split; done.
Qed.

Lemma dispatch_app store hs1 hs2 o c :
  Forall (fun h => is_Some (store !! h)) hs1 →
  dispatch py_None store (hs1 ++ hs2) o c
  = if handled store hs1 o then dispatch py_None store hs1 o c
    else dispatch py_None store hs2 o c.
Proof.
  induction 1 as [|h hs1 [t Ht] _ IH]; simpl; [done|].
  rewrite Ht. by destruct (can_be_transformed t o).
Qed.

Lemma dispatch_same_methods store store' hs o c :
  (∀ x t, store !! x = Some t →
          ∃ t', store' !! x = Some t'
                ∧ can_be_transformed t' = can_be_transformed t
                ∧ own_transform t' = own_transform t) →
  Forall (fun h => is_Some (store !! h)) hs →
  dispatch py_None store' hs o c = dispatch py_None store hs o c.
Proof.
  intros Hm. induction 1 as [|h hs [t Ht] _ IH]; simpl; [done|].
  destruct (Hm h t Ht) as (t' & -> & -> & ->). rewrite Ht.
  by destruct (can_be_transformed t o).
Qed.

(** X11: registration order is precedence: after
    [self.add_child_transformer(handler)] a value that one of the earlier
    handlers can transform is still transformed by that one; the new
    handler gets what none of them takes, and what it does not take either
    gives [None]. *)
Theorem add_child_transformer_precedence self handler store store' s h o c :
  add_child_transformer self handler store = Ok store' →
  store !! self = Some s →
  store !! handler = Some h →
  Forall (fun x => is_Some (store !! x)) (handlers s) →
  transform py_None store' self o c
  = if handled store (handlers s) o then transform py_None store self o c
    else if can_be_transformed h o then own_transform h o c
    else (c, Ok py_None).
Proof.
  intros Ha Hs Hh Hall. unfold transform. rewrite Hs.
  destruct (add_child_transformer_handlers _ _ _ _ _ Ha Hs) as (s' & -> & ->).
  assert (Forall (fun x => is_Some (store' !! x)) (handlers s)) as Hall'.
  { eapply Forall_impl; [exact Hall|]. intros x [t Ht].
    destruct (add_child_transformer_methods _ _ _ _ _ _ Ha Ht) as (t' & -> & _).
    done. }
  rewrite dispatch_app by done.
  assert (handled store' (handlers s) o = handled store (handlers s) o) as ->.
  { unfold handled. clear Hall'. induction Hall as [|x hs [t Ht] _ IH]; [done|].
    simpl. destruct (add_child_transformer_methods _ _ _ _ _ _ Ha Ht)
      as (t' & -> & -> & _).
    by rewrite Ht, IH. }
  rewrite (dispatch_same_methods store store') by
    (done || intros; by eapply add_child_transformer_methods).
  destruct (handled store (handlers s) o); [done|]. simpl.
  destruct (add_child_transformer_methods _ _ _ _ _ _ Ha Hh) as (h' & -> & -> & ->).
  by destruct (can_be_transformed h o).
Qed.

Lemma ancestors_get_root fuel store p path :
  ancestors fuel store p = Some path →
  get_root_transformer fuel store p = last path.
Proof.
  revert p path. induction fuel as [|fuel IH]; intros p path; simpl; [done|].
  destruct (store !! p) as [t|]; [|done].
  destruct (parent t) as [q|]; [|by intros [= <-]].
  destruct (ancestors fuel store q) as [path'|] eqn:Hq; [|done].
  simpl. intros [= <-]. rewrite (IH q path' Hq).
  destruct path' as [|x path']; [|done].
  destruct fuel; simpl in Hq; [done|].
  destruct (store !! q) as [tq|]; [|done].
  destruct (parent tq); [|done]. by destruct (ancestors fuel store _).
Qed.

Lemma add_child_transformer_parent self handler store store' x t :
  add_child_transformer self handler store = Ok store' →
  store !! x = Some t →
  ∃ t', store' !! x = Some t'
        ∧ parent t' = if decide (x = handler) then Some self else parent t.
Proof.
  unfold add_child_transformer.
  destruct (store !! self) as [s|] eqn:Hs; [|done].
  destruct (<[self := _]> store !! handler) as [h|] eqn:Hh; [|done].
  intros [= <-] Hx. destruct (decide (x = handler)) as [->|Hne].
  - rewrite lookup_insert_eq. eauto.
  - rewrite lookup_insert_ne by done.
    destruct (decide (x = self)) as [->|Hne'].
    + rewrite lookup_insert_eq. eexists. split; [done|].
      rewrite Hs in Hx. by injection Hx as <-.
    + rewrite lookup_insert_ne by done. eauto.
Qed.

Lemma ancestors_after_add_child fuel self handler store store' p path :
  add_child_transformer self handler store = Ok store' →
  ancestors fuel store p = Some path →
  handler ∉ path →
  ancestors fuel store' p = Some path.
Proof.
  intros Ha. revert p path. induction fuel as [|fuel IH]; intros p path; simpl;
    [done|].
  destruct (store !! p) as [t|] eqn:Hp; [|done].
  destruct (add_child_transformer_parent _ _ _ _ _ _ Ha Hp) as (t' & -> & Hpar).
  destruct (parent t) as [q|] eqn:Hq.
  - destruct (ancestors fuel store q) as [path'|] eqn:Hanc; [|done].
    simpl. intros [= <-] Hnin. apply not_elem_of_cons in Hnin as [Hne Hnin].
    rewrite decide_False in Hpar by done. rewrite Hpar.
    by rewrite (IH q path' Hanc Hnin).
  - intros [= <-] Hnin. apply not_elem_of_cons in Hnin as [Hne _].
    rewrite decide_False in Hpar by done. by rewrite Hpar.
Qed.

(** X12: a transformer that is added as a child gets the root of its new
    parent: when the way up from [self] ends within [fuel] steps and does
    not pass through [handler], the way up from [handler] ends one step
    later at the same root, and the root of [self] is what it was. *)
Theorem get_root_transformer_of_child fuel self handler store store' path :
  add_child_transformer self handler store = Ok store' →
  ancestors fuel store self = Some path →
  handler ∉ path →
  get_root_transformer (S fuel) store' handler = last path
  ∧ get_root_transformer fuel store' self = last path
  ∧ get_root_transformer fuel store self = last path
  ∧ is_Some (last path).
Proof.
  intros Ha Hanc Hnin.
  pose proof (ancestors_after_add_child _ _ _ _ _ _ _ Ha Hanc Hnin) as Hanc'.
  assert (∃ h', store' !! handler = Some h' ∧ parent h' = Some self)
    as (h' & Hh' & Hpar).
  { unfold add_child_transformer in Ha.
    destruct (store !! self) as [s|]; [|done].
    destruct (<[self := _]> store !! handler) as [h|]; [|done].
    injection Ha as <-. rewrite lookup_insert_eq. eauto. }
  split_and!.
  - simpl. rewrite Hh', Hpar. by apply ancestors_get_root.
  - by apply ancestors_get_root.
  - by apply ancestors_get_root.
  - destruct fuel; simpl in Hanc; [done|].
    destruct (store !! self) as [t|]; [|done].
    destruct (parent t); [|by injection Hanc as <-].
    destruct (ancestors fuel store _) as [path'|]; [|done].
    injection Hanc as <-. simpl. destruct path'; [done|].
    apply last_is_Some. done.
Qed.

(** X13: a transformer can be added to itself as a child; it is then its own
    parent, and the walk up from it never reaches a root, however many
    steps it takes. *)
Theorem get_root_transformer_own_child self store store' :
  add_child_transformer self self store = Ok store' →
  (∃ s', store' !! self = Some s' ∧ parent s' = Some self)
  ∧ ∀ fuel, get_root_transformer fuel store' self = None.
Proof.
  intros Ha.
  assert (∃ s', store' !! self = Some s' ∧ parent s' = Some self)
    as (s' & Hs' & Hpar).
  { unfold add_child_transformer in Ha.
    destruct (store !! self) as [s|]; [|done].
    destruct (<[self := _]> store !! self) as [h|]; [|done].
    injection Ha as <-. rewrite lookup_insert_eq. eauto. }
  split; [eauto|].
  induction fuel as [|fuel IH]; simpl; [done|]. by rewrite Hs', Hpar.
Qed.

End Handlers_facts.

Lemma add_child_transformer_precedence_witness :
  ∃ store',
    WriteBaseTransformer.add_child_transformer 1 2 three_transformers = Ok store'
    ∧ WriteBaseTransformer.transform O store' 1 (PName "Type") []
      = ([47%N], Ok 1%nat)
    ∧ WriteBaseTransformer.transform O store' 1 PNull [] = ([], Ok O).
Proof.
  destruct (WriteBaseTransformer.add_child_transformer 1 2 three_transformers)
    as [store'|] eqn:Ha; [|vm_compute in Ha; discriminate].
  exists store'. split; [done|].
  split.
  - rewrite (add_child_transformer_precedence O 1 2 three_transformers store'
               base_transformer name_transformer (PName "Type") [] Ha
               eq_refl eq_refl (Forall_nil_2 _)).
    reflexivity.
  - rewrite (add_child_transformer_precedence O 1 2 three_transformers store'
               base_transformer name_transformer PNull [] Ha
               eq_refl eq_refl (Forall_nil_2 _)).
    reflexivity.
Defined.

Lemma get_root_transformer_of_child_witness :
  ∃ store',
    WriteBaseTransformer.add_child_transformer 1 2 three_transformers = Ok store'
    ∧ WriteBaseTransformer.get_root_transformer 2 store' 2 = Some 1%positive.
Proof.
  destruct (WriteBaseTransformer.add_child_transformer 1 2 three_transformers)
    as [store'|] eqn:Ha; [|vm_compute in Ha; discriminate].
  exists store'. split; [done|].
  destruct (get_root_transformer_of_child 1 1 2 three_transformers store'
              [1%positive] Ha eq_refl) as (H & _).
  - set_solver.
  - exact H.
Defined.

Lemma get_root_transformer_own_child_witness :
  ∃ store',
    WriteBaseTransformer.add_child_transformer 3 3 three_transformers = Ok store'
    ∧ WriteBaseTransformer.get_root_transformer 1000 store' 3 = None.
Proof.
  destruct (WriteBaseTransformer.add_child_transformer 3 3 three_transformers)
    as [store'|] eqn:Ha; [|vm_compute in Ha; discriminate].
  exists store'. split; [done|].
  by destruct (get_root_transformer_own_child 3 three_transformers store' Ha)
    as [_ H].
Defined.

(** ** Object headers and byte offsets *)

Section Object_facts.
Import WriteBaseTransformer.

(** X14: [_start_object] appends the header to the destination and records
    in the reference the offset at which the header starts; the object
    number, the generation and the other references stay as they are.
    Since writing only appends, the header is found at that offset in
    every later state of the destination, also after the body and the
    trailer that [_end_object] appends. *)
Theorem start_object_records_offset reference ref destination refs refs' destination' :
  refs !! reference = Some ref →
  _start_object (Some reference) (Some (Some destination)) refs
  = Ok (refs', destination') →
  ∃ ref',
    refs' !! reference = Some ref'
    ∧ byte_offset ref' = Some (length destination)
    ∧ object_number ref' = object_number ref
    ∧ generation_number ref' = generation_number ref
    ∧ (∀ r, r ≠ reference → refs' !! r = refs !! r)
    ∧ destination' = destination ++ object_header ref
    ∧ ∀ body more,
        _end_object (Some (Some (destination' ++ body)))
        = Ok (destination' ++ body ++ object_trailer)
        ∧ take (length (object_header ref))
            (drop (length destination)
               (destination' ++ body ++ object_trailer ++ more))
          = object_header ref.
Proof.
  intros Hr. unfold _start_object. rewrite Hr. intros [= <- <-].
  eexists. rewrite lookup_insert_eq. split_and!; try done.
  - intros r Hne. by rewrite lookup_insert_ne.
  - intros body more. split.
    + unfold _end_object. by rewrite <- !app_assoc.
    + rewrite <- !app_assoc. rewrite drop_app_length.
      by rewrite take_app_length.
Qed.

Lemma start_object_records_offset_witness :
  ∃ refs' destination' ref',
    _start_object (Some 1%positive) (Some (Some [37; 80; 68; 70; 10]%N))
      {[ 1%positive := reference_12 ]} = Ok (refs', destination')
    ∧ refs' !! 1%positive = Some ref'
    ∧ byte_offset ref' = Some 5%nat
    ∧ destination'
      = [37; 80; 68; 70; 10; 49; 50; 32; 48; 32; 111; 98; 106; 10]%N.
Proof.
  destruct (_start_object (Some 1%positive) (Some (Some [37; 80; 68; 70; 10]%N))
              {[ 1%positive := reference_12 ]}) as [[refs' destination']|] eqn:Hs;
    [|vm_compute in Hs; discriminate].
  destruct (start_object_records_offset 1 reference_12 [37; 80; 68; 70; 10]%N
              {[ 1%positive := reference_12 ]} refs' destination'
              (lookup_singleton_eq _ _) Hs)
    as (ref' & Hr & Ho & _ & _ & _ & Hd & _).
  exists refs', destination', ref'. split_and!; [done | done | done |].
  rewrite Hd. vm_compute. reflexivity.
Defined.

(** [_start_object] needs a context with a destination and an object
    with a reference, [_end_object] a context with a destination: without
    them an assertion fails and nothing is written. *)
Lemma start_object_requirements reference context refs :
  (context = None ∨ context = Some None ∨ reference = None →
   _start_object reference context refs = Raise AssertionError)
  ∧ (context = None ∨ context = Some None →
     _end_object context = Raise AssertionError)
  ∧ (∀ r ref destination,
       context = Some (Some destination) → reference = Some r →
       refs !! r = Some ref →
       is_ok (_start_object reference context refs) = true
       ∧ is_ok (_end_object context) = true).
Proof.
  split_and!.
  - intros [-> | [-> | ->]]; [done | done |].
    by destruct context as [[d|]|].
  - by intros [-> | ->].
  - intros r ref destination -> -> Hr. unfold _start_object. by rewrite Hr.
Qed.

Lemma start_object_requirements_witness :
  _start_object None (Some (Some [])) ∅ = Raise AssertionError.
Proof.
  destruct (start_object_requirements None (Some (Some [])) ∅) as (H & _).
  apply H. right. by right.
Defined.

End Object_facts.

(** ** More on the reference registry *)

Section Registry_more.
Import WriteBaseTransformer.
Context {V : Type}.
Variable equals : V → V → bool.
Variable hash : V → option Z.
Hypothesis equals_sym : ∀ a b, equals a b = true → equals b a = true.
Hypothesis equals_trans :
  ∀ a b c, equals a b = true → equals b c = true → equals a c = true.
Hypothesis hash_equals : ∀ a b, equals a b = true → hash a = hash b.

Implicit Types (heap : gmap positive (@py_object V)) (R : gset positive).
Implicit Types (context : WriteTransformerContext) (o this : @py_object V).

(** The three ways through [get_reference]: the object is in the id
    registry; it takes over the reference of an equal entry; it gets a
    number of its own. *)
Lemma get_reference_cases heap context object r σ' :
  get_reference equals hash object (heap, context) = Ok (r, σ') →
  (∃ cached oc,
      indirect_objects_by_id context !! object = Some cached
      ∧ heap !! cached = Some oc ∧ r = reference oc ∧ σ' = (heap, context))
  ∨ (∃ this h bucket z obj ref this',
      indirect_objects_by_id context !! object = None
      ∧ heap !! object = Some this ∧ hash (value this) = Some h
      ∧ indirect_objects_by_hash context !! h = Some bucket
      ∧ find_equal equals heap (value this) bucket = Ok (Some z)
      ∧ heap !! z = Some obj ∧ reference obj = Some ref
      ∧ set_reference this ref = Ok this'
      ∧ r = Some ref ∧ σ' = (<[object := this']> heap, context))
  ∨ (∃ this h existing this',
      indirect_objects_by_id context !! object = None
      ∧ heap !! object = Some this ∧ hash (value this) = Some h
      ∧ (∀ bucket z,
           indirect_objects_by_hash context !! h = Some bucket → z ∈ bucket →
           ∃ o, heap !! z = Some o ∧ equals (value o) (value this) = false)
      ∧ existing_obj_numbers heap context = Ok existing
      ∧ set_reference this
          {| object_number :=
               next_free (S (size existing)) existing (size existing + 1);
             generation_number := None; byte_offset := None |} = Ok this'
      ∧ r = Some {| object_number :=
                      next_free (S (size existing)) existing (size existing + 1);
                    generation_number := None; byte_offset := None |}
      ∧ σ' = (<[object := this']> heap,
              {| indirect_objects_by_id :=
                   <[object := object]> (indirect_objects_by_id context);
                 indirect_objects_by_hash :=
                   <[h := match indirect_objects_by_hash context !! h with
                          | Some bucket => bucket ++ [object]
                          | None => [object]
                          end]> (indirect_objects_by_hash context) |})).
Proof.
  unfold get_reference.
  destruct (indirect_objects_by_id context !! object) as [cached|] eqn:Hid.
  - unfold deref. destruct (heap !! cached) as [oc|] eqn:Hc; simpl; [|done].
    intros [= <- <-]. left. by exists cached, oc.
  - unfold deref. destruct (heap !! object) as [this|] eqn:Hthis; simpl; [|done].
    unfold _hash. destruct (hash (value this)) as [h|] eqn:Hh; simpl; [|done].
    destruct (match indirect_objects_by_hash context !! h with
              | Some bucket => find_equal equals heap (value this) bucket
              | None => Ok None
              end) as [found|] eqn:Hfound; simpl; [|done].
    destruct found as [z|].
    + destruct (indirect_objects_by_hash context !! h) as [bucket|] eqn:Hb;
        [|done].
      destruct (find_equal_Some _ _ _ _ _ Hfound) as (Hz & obj & Hobj & He).
      rewrite Hobj. simpl. destruct (reference obj) as [ref|] eqn:Href; [|done].
      destruct (set_reference this ref) as [this'|] eqn:Hset; simpl; [|done].
      intros [= <- <-]. right. left.
      by exists this, h, bucket, z, obj, ref, this'.
    + destruct (existing_obj_numbers heap context) as [existing|] eqn:Hex;
        simpl; [|done].
      destruct (set_reference this _) as [this'|] eqn:Hset; simpl; [|done].
      intros [= <- <-]. right. right.
      exists this, h, existing, this'. split_and!; try done.
      intros bucket z Hb Hz. rewrite Hb in Hfound.
      by eapply find_equal_None.
Qed.



(** Only the reference of the object asked for is written. *)
Lemma get_reference_frame heap context object r σ' :
  get_reference equals hash object (heap, context) = Ok (r, σ') →
  (∀ q, q ≠ object → σ'.1 !! q = heap !! q)
  ∧ (∀ q o, heap !! q = Some o →
            ∃ o', σ'.1 !! q = Some o' ∧ value o' = value o)
  ∧ (∀ q, σ'.1 !! q = None ↔ heap !! q = None).
Proof.
  intros Hg.
  assert (σ' = (heap, context)
          ∨ ∃ this this', heap !! object = Some this
                          ∧ value this' = value this
                          ∧ σ'.1 = <[object := this']> heap) as [-> | Hins].
  { destruct (get_reference_cases _ _ _ _ _ Hg)
      as [(cached & oc & Hid & Hc & -> & ->)
         |[(this & h & bucket & z & obj & ref & this' & Hid & Hthis & Hh & Hb
            & Hfind & Hobj & Href & Hset & -> & ->)
          |(this & h & existing & this' & Hid & Hthis & Hh & Hnone & Hex & Hset
            & -> & ->)]]; [by left | right..];
      destruct (set_reference_Ok _ _ _ Hset) as [Hv _]; by exists this, this'. }
  - split_and!; [done | eauto | done].
  - destruct Hins as (this & this' & Hthis & Hv & ->). split_and!.
    + intros q Hne. by rewrite lookup_insert_ne.
    + intros q o Hq. destruct (decide (q = object)) as [->|Hne].
      * rewrite lookup_insert_eq. exists this'. split; [done|]. congruence.
      * rewrite lookup_insert_ne by done. eauto.
    + intros q. destruct (decide (q = object)) as [->|Hne].
      * rewrite lookup_insert_eq, Hthis. done.
      * by rewrite lookup_insert_ne.
Qed.

Lemma register_all_frame objects σ σ' :
  register_all equals hash objects σ = Ok σ' →
  (∀ q, q ∉ objects → σ'.1 !! q = σ.1 !! q)
  ∧ (∀ q o, σ.1 !! q = Some o →
            ∃ o', σ'.1 !! q = Some o' ∧ value o' = value o)
  ∧ (∀ q, σ'.1 !! q = None ↔ σ.1 !! q = None).
Proof.
  revert σ. induction objects as [|object objects IH]; intros σ; simpl.
  - intros [= <-]. split_and!; eauto.
  - destruct σ as [heap context].
    destruct (get_reference equals hash object (heap, context))
      as [[r σ1]|] eqn:Hg; simpl; [|done].
    intros Hrest. destruct (get_reference_frame _ _ _ _ _ Hg) as (H1 & H2 & H3).
    destruct (IH _ Hrest) as (H1' & H2' & H3'). split_and!.
    + intros q Hq. apply not_elem_of_cons in Hq as [Hne Hq].
      rewrite H1' by done. by apply H1.
    + intros q o Hq. destruct (H2 q o Hq) as (o1 & Ho1 & Hv1).
      destruct (H2' q o1 Ho1) as (o' & Ho' & Hv'). exists o'.
      split; [done | congruence].
    + intros q. rewrite H3'. apply H3.
Qed.

(** *** Numbers without gaps *)

Lemma in_registry_items (m : gmap Z (list positive)) p :
  p ∈ concat (map snd (map_to_list m)) ↔ ∃ h b, m !! h = Some b ∧ p ∈ b.
Proof.
  rewrite list_elem_of_In, in_concat. split.
  - intros (b & Hb & Hp). apply in_map_iff in Hb as ([h b'] & <- & Hb).
    apply list_elem_of_In, elem_of_map_to_list in Hb.
    exists h, b'. split; [done | by apply list_elem_of_In].
  - intros (h & b & Hb & Hp). exists b. split; [|by apply list_elem_of_In].
    apply in_map_iff. exists (h, b). split; [done|].
    by apply list_elem_of_In, elem_of_map_to_list.
Qed.

Lemma numbers_of_spec heap items s :
  numbers_of heap items = Ok s →
  ∀ k, k ∈ s ↔ ∃ p, p ∈ items ∧ number_of heap p = Some k.
Proof.
  revert s. induction items as [|p items IH]; intros s; simpl.
  - intros [= <-] k. split; [set_solver|]. by intros (p & ?%elem_of_nil & _).
  - destruct (numbers_of heap items) as [s0|]; simpl; [|done].
    unfold deref. destruct (heap !! p) as [o|] eqn:Hp; simpl; [|done].
    destruct (reference o) as [ref|] eqn:Hr; [|done].
    intros [= <-] k. rewrite elem_of_union, elem_of_singleton, (IH s0 eq_refl).
    split.
    + intros [-> | (q & Hq & Hn)].
      * exists p. split; [left | by eapply number_of_Some].
      * exists q. split; [by right | done].
    + intros (q & [-> | Hq]%elem_of_cons & Hn).
      * left. rewrite (number_of_Some _ _ _ _ Hp Hr) in Hn. by injection Hn.
      * right. eauto.
Qed.

Lemma existing_obj_numbers_spec heap context s :
  existing_obj_numbers heap context = Ok s →
  ∀ k, k ∈ s ↔ ∃ p, in_hash_registry context p ∧ number_of heap p = Some k.
Proof.
  intros Hs k. rewrite (numbers_of_spec _ _ _ Hs). unfold in_hash_registry.
  split; intros (p & Hp & Hn); exists p; (split; [|done]);
    by apply in_registry_items.
Qed.

Lemma existing_obj_numbers_range n heap context s :
  numbering_inv n (heap, context) →
  existing_obj_numbers heap context = Ok s →
  s = set_seq 1 n.
Proof.
  intros Hnum Hs. apply set_eq. intros k.
  rewrite (existing_obj_numbers_spec _ _ _ Hs), elem_of_set_seq. split.
  - intros (p & Hp & Hn). destruct (num_range _ _ Hnum p Hp) as (k' & Hk' & Hr).
    simpl in *. rewrite Hn in Hk'. injection Hk' as <-. lia.
  - intros Hk. apply (num_onto _ _ Hnum). lia.
Qed.

Lemma in_hash_registry_minted context object h p :
  in_hash_registry
    {| indirect_objects_by_id :=
         <[object := object]> (indirect_objects_by_id context);
       indirect_objects_by_hash :=
         <[h := match indirect_objects_by_hash context !! h with
                | Some bucket => bucket ++ [object]
                | None => [object]
                end]> (indirect_objects_by_hash context) |} p
  ↔ p = object ∨ in_hash_registry context p.
Proof.
  unfold in_hash_registry. simpl. split.
  - intros (h' & b' & Hb' & Hp). destruct (decide (h = h')) as [<-|Hne].
    + rewrite lookup_insert_eq in Hb'. injection Hb' as <-.
      destruct (indirect_objects_by_hash context !! h) as [b|] eqn:Hb.
      * apply elem_of_app in Hp as [Hp | Hp%list_elem_of_singleton];
          [right; eauto | by left].
      * apply list_elem_of_singleton in Hp. by left.
    + rewrite lookup_insert_ne in Hb' by done. right. eauto.
  - intros [-> | (h' & b & Hb & Hp)].
    + exists h. eexists. rewrite lookup_insert_eq. split; [done|].
      destruct (indirect_objects_by_hash context !! h).
      * apply elem_of_app. right. by apply list_elem_of_singleton.
      * by apply list_elem_of_singleton.
    + destruct (decide (h = h')) as [<-|Hne].
      * exists h. eexists. rewrite lookup_insert_eq, Hb. split; [done|].
        apply elem_of_app. by left.
      * exists h', b. by rewrite lookup_insert_ne.
Qed.

Lemma numbering_inv_insert n heap context object o :
  ¬ in_hash_registry context object →
  numbering_inv n (heap, context) →
  numbering_inv n (<[object := o]> heap, context).
Proof.
  intros Hnin Hnum.
  assert (∀ p, in_hash_registry context p →
               number_of (<[object := o]> heap) p = number_of heap p) as Hsame.
  { intros p Hp. apply number_of_insert_ne. by intros ->. }
  split; simpl.
  - intros p Hp. rewrite Hsame by done. by apply (num_range _ _ Hnum).
  - intros k Hk. destruct (num_onto _ _ Hnum k Hk) as (p & Hp & Hn).
    exists p. by rewrite Hsame.
  - intros p q k Hp Hq. rewrite !Hsame by done.
    by apply (num_inj _ _ Hnum).
Qed.

Lemma get_reference_numbering R n heap context object r σ' :
  registry_inv equals hash R (heap, context) →
  numbering_inv n (heap, context) →
  get_reference equals hash object (heap, context) = Ok (r, σ') →
  ∃ n', numbering_inv n' σ' ∧ (n ≤ n' ≤ S n)%nat.
Proof.
  intros Hinv Hnum Hg.
  assert (indirect_objects_by_id context !! object = None →
          ¬ in_hash_registry context object) as Hfresh.
  { intros Hid (h & b & Hb & Hin).
    by eapply (not_cached_not_in_bucket equals hash R heap context object h b). }
  destruct (get_reference_cases _ _ _ _ _ Hg)
    as [(cached & oc & Hid & Hc & -> & ->)
       |[(this & h & bucket & z & obj & ref & this' & Hid & Hthis & Hh & Hb
          & Hfind & Hobj & Href & Hset & -> & ->)
        |(this & h & existing & this' & Hid & Hthis & Hh & Hnone & Hex & Hset
          & -> & ->)]].
  - exists n. split; [done | lia].
  - exists n. split; [|lia]. apply numbering_inv_insert; auto.
  - exists (S n). split; [|lia].
    pose proof (existing_obj_numbers_range _ _ _ _ Hnum Hex) as ->.
    rewrite size_set_seq in Hset. simpl in Hset.
    rewrite decide_False in Hset by (rewrite elem_of_set_seq; lia).
    destruct (set_reference_Ok _ _ _ Hset) as [Hv Hr].
    assert (number_of (<[object := this']> heap) object = Some (S n)) as Hno.
    { rewrite (number_of_Some _ _ this' _ (lookup_insert_eq _ _ _) Hr).
      simpl. f_equal. lia. }
    assert (∀ p, in_hash_registry context p →
                 number_of (<[object := this']> heap) p = number_of heap p)
      as Hsame.
    { intros p Hp. apply number_of_insert_ne. intros ->. by apply Hfresh. }
    split; simpl.
    + intros p [-> | Hp]%in_hash_registry_minted.
      * exists (S n). split; [done | lia].
      * rewrite Hsame by done.
        destruct (num_range _ _ Hnum p Hp) as (k & Hk & Hrange).
        exists k. split; [done | lia].
    + intros k Hk. destruct (decide (k = S n)) as [-> | Hne].
      * exists object. split; [|done]. apply in_hash_registry_minted. by left.
      * destruct (num_onto _ _ Hnum k ltac:(lia)) as (p & Hp & Hn).
        exists p. split; [apply in_hash_registry_minted; by right|].
        by rewrite Hsame.
    + intros p q k [-> | Hp]%in_hash_registry_minted
        [-> | Hq]%in_hash_registry_minted; [done | | |].
      * rewrite Hno, Hsame by done. intros [= <-] Hq'.
        destruct (num_range _ _ Hnum q Hq) as (k & Hk & Hrange).
        simpl in Hk. rewrite Hq' in Hk. injection Hk as <-. lia.
      * rewrite Hno, Hsame by done. intros Hp' [= <-].
        destruct (num_range _ _ Hnum p Hp) as (k & Hk & Hrange).
        simpl in Hk. rewrite Hp' in Hk. injection Hk as <-. lia.
      * rewrite !Hsame by done. by apply (num_inj _ _ Hnum).
Qed.

Lemma register_all_numbering objects R n σ σ' :
  registry_inv equals hash R σ →
  numbering_inv n σ →
  register_all equals hash objects σ = Ok σ' →
  ∃ n', numbering_inv n' σ' ∧ (n ≤ n' ≤ n + length objects)%nat.
Proof.
  revert R n σ. induction objects as [|object objects IH]; intros R n σ Hinv Hnum;
    simpl.
  - intros [= <-]. exists n. split; [done | lia].
  - destruct σ as [heap context].
    destruct (get_reference equals hash object (heap, context))
      as [[r σ1]|] eqn:Hg; simpl; [|done].
    intros Hrest.
    destruct (get_reference_inv equals hash equals_sym equals_trans hash_equals
                _ _ _ _ _ _ Hinv Hg) as (Hinv1 & _).
    destruct (get_reference_numbering _ _ _ _ _ _ _ Hinv Hnum Hg)
      as (n1 & Hnum1 & Hn1).
    destruct (IH _ _ _ Hinv1 Hnum1 Hrest) as (n' & Hnum' & Hn').
    exists n'. split; [done | lia].
Qed.

Lemma numbering_inv_fresh heap : numbering_inv 0 (heap, fresh_context).
Proof.
  split; simpl.
  - intros p (h & b & Hb & _). simpl in Hb. by rewrite lookup_empty in Hb.
  - intros k Hk. lia.
  - intros p q k (h & b & Hb & _). simpl in Hb. by rewrite lookup_empty in Hb.
Qed.

(** The numbers in use after a pass are 1, ..., n. *)
Lemma register_all_numbers heap objects heap' context' :
  register_all equals hash objects (heap, fresh_context) = Ok (heap', context') →
  ∃ n,
    existing_obj_numbers heap' context' = Ok (set_seq 1 n)
    ∧ (n ≤ length objects)%nat
    ∧ ∀ a, a ∈ objects →
           ∃ k, number_of heap' a = Some k ∧ (1 ≤ k ≤ n)%nat.
Proof.
  intros Hrun.
  destruct (register_all_inv equals hash equals_sym equals_trans hash_equals
              _ _ _ _ (registry_inv_fresh equals hash equals_sym equals_trans hash_equals heap) Hrun) as [Hinv _].
  destruct (register_all_numbering _ _ _ _ _
              (registry_inv_fresh equals hash equals_sym equals_trans hash_equals heap) (numbering_inv_fresh heap) Hrun)
    as (n & Hnum & Hn).
  exists n. split_and!.
  - destruct (existing_obj_numbers_total equals hash _ _ _ Hinv) as [s Hs].
    by rewrite Hs, (existing_obj_numbers_range _ _ _ _ Hnum Hs).
  - lia.
  - intros a Ha.
    assert (a ∈ (list_to_set objects ∪ ∅ : gset positive)) as HaR by set_solver.
    destruct (inv_registered _ _ _ _ Hinv a HaR)
      as (o & r & m & om & rm & h & b & Ho & Hr & Hb & Hm & Hom & Hrm & Hnr & _).
    simpl in *.
    destruct (num_range _ _ Hnum m) as (k & Hk & Hrange); [by exists h, b|].
    simpl in Hk. rewrite (number_of_Some _ _ _ _ Hom Hrm) in Hk.
    injection Hk as <-. exists (object_number rm). split; [|done].
    rewrite (number_of_Some _ _ _ _ Ho Hr). by rewrite Hnr.
Qed.


End Registry_more.

(** ** More on reference dedup on PDF values *)

Section Dedup_more.
Import WriteBaseTransformer.
Variable hash : pdf_object → option Z.

(** X15: in a pass that starts from a fresh context the object numbers in
    use are 1, ..., n without gaps, with n at most the number of requests;
    every object of the pass carries one of them, and the next number to
    be handed out is n + 1 (the search loop for a free number does not
    move). *)
Theorem numbers_without_gaps heap objects heap' context' :
  register_all equals hash objects (heap, fresh_context) = Ok (heap', context') →
  ∃ n,
    existing_obj_numbers heap' context' = Ok (set_seq 1 n)
    ∧ (n ≤ length objects)%nat
    ∧ (∀ a, a ∈ objects →
            ∃ k, number_of heap' a = Some k ∧ (1 ≤ k ≤ n)%nat)
    ∧ next_free (S (size (set_seq (C:=gset nat) 1 n))) (set_seq 1 n)
        (size (set_seq (C:=gset nat) 1 n) + 1) = S n.
Proof.
  intros Hrun.
  destruct (register_all_numbers equals hash equals_sym equals_trans
              (hash_equals hash) _ _ _ _ Hrun) as (n & Hs & Hn & Hall).
  exists n. split_and!; [done..|].
  rewrite size_set_seq. simpl.
  rewrite decide_False by (rewrite elem_of_set_seq; lia). lia.
Qed.






(** X18: a pass writes references and nothing else: no value changes, no
    object appears or disappears, and an object that was not asked about
    is left exactly as it was. *)
Theorem register_all_writes_references_only objects σ σ' :
  register_all equals hash objects σ = Ok σ' →
  (∀ q, q ∉ objects → σ'.1 !! q = σ.1 !! q)
  ∧ (∀ q o, σ.1 !! q = Some o →
            ∃ o', σ'.1 !! q = Some o' ∧ value o' = value o)
  ∧ (∀ q, σ'.1 !! q = None ↔ σ.1 !! q = None).
Proof. apply register_all_frame. Qed.


End Dedup_more.

Section Dedup_more_samples.
Import WriteBaseTransformer.

Lemma numbers_without_gaps_witness :
  ∃ heap' context',
    register_all equals weight_hash [1; 2; 1]%positive (two_fonts, fresh_context)
    = Ok (heap', context')
    ∧ existing_obj_numbers heap' context' = Ok (set_seq 1 1).
Proof.
  destruct (register_all equals weight_hash [1; 2; 1]%positive
              (two_fonts, fresh_context))
    as [[heap' context']|] eqn:Hrun; [|vm_compute in Hrun; discriminate].
  exists heap', context'. split; [done|].
  destruct (numbers_without_gaps weight_hash two_fonts [1; 2; 1]%positive
              heap' context' Hrun) as (n & Hs & Hn & Hall & _).
  destruct (Hall 1%positive ltac:(set_solver)) as (k & Hk & Hrange).
  assert (number_of heap' 1 = Some 1%nat) as H1.
  { vm_compute in Hrun. injection Hrun as <- <-. vm_compute. reflexivity. }
  assert (n = 1%nat) as ->; [|done].
  assert (∃ s, existing_obj_numbers heap' context' = Ok s ∧ size s = 1%nat)
    as (s & Hs' & Hsize).
  { vm_compute in Hrun. injection Hrun as <- <-. eexists. split; [reflexivity|].
    vm_compute. reflexivity. }
  rewrite Hs in Hs'. injection Hs' as <-. by rewrite size_set_seq in Hsize.
Defined.



Lemma register_all_writes_references_only_witness :
  ∃ σ',
    register_all equals weight_hash [1%positive] (two_fonts, fresh_context)
    = Ok σ'
    ∧ σ'.1 !! 2%positive
      = Some {| value := font_dictionary; reference := None |}.
Proof.
  destruct (register_all equals weight_hash [1%positive]
              (two_fonts, fresh_context)) as [σ'|] eqn:Hrun;
    [|vm_compute in Hrun; discriminate].
  exists σ'. split; [done|].
  destruct (register_all_writes_references_only weight_hash [1%positive]
              (two_fonts, fresh_context) σ' Hrun) as (H & _).
  rewrite H by set_solver. reflexivity.
Defined.

End Dedup_more_samples.
